(* Verification model of the jcli command dispatcher (package jcli):
   flagset.go (flagProto, flagSet, parseFlags), part_004 (Command, run,
   PrintHelp, AddCommand), cli.go (Cli, Run, RunBuffer) and the scope
   accessors of part_005 (getFlagValues, BoolFlag, StringFlag, OtherArgs,
   HelpFlag, Stdout), together with the part of Go's standard `flag`
   package that parseFlags relies on (FlagSet.Var, FlagSet.Parse). *)

From Stdlib Require Import Floats.
From stdpp Require Import base gmap list strings.

Open Scope string_scope.

(* ------------------------------------------------------------------ *)
(** * Go values and memory *)

(** The four primitive kinds supported by the flag binder. *)
Inductive kind := KString | KInt | KFloat | KBool.

Definition kind_eqb (a b : kind) : bool :=
  match a, b with
  | KString, KString | KInt, KInt | KFloat, KFloat | KBool, KBool => true
  | _, _ => false
  end.

(** A dynamically typed Go value stored in an [interface{}] (the
    [value] field of [flagProto]); [GOther] stands for a value of any
    other dynamic type (int64, []string, nil, ...), named by its type. *)
Inductive gval :=
| GString (s : string)
| GInt (z : Z)
| GFloat (f : float)
| GBool (b : bool)
| GOther (ty : string).

(** The [ptr interface{}] field of [flagProto]: a nil interface, a typed
    nil pointer, a non-nil pointer of kind [k] to the external cell [a],
    or a value of some other type. *)
Inductive gptr :=
| PtrNone
| PtrNilOf (k : kind)
| PtrTo (k : kind) (a : Z)
| PtrOtherType.

(** A Go pointer [*T] for one of the four kinds: either a cell allocated
    by the current call ([new(T)] inside [flag.String] and friends), or
    a caller-owned external cell. *)
Inductive cloc := LFresh (i : nat) | LExt (a : Z).
Record cell := { c_kind : kind; c_at : cloc }.

(** External cells of different pointer types never alias in Go; the
    shared store is keyed by kind and address. *)
Definition kind_idx (k : kind) : Z :=
  match k with KString => 0 | KInt => 1 | KFloat => 2 | KBool => 3 end.
Definition ext_key (k : kind) (a : Z) : Z := 4 * a + kind_idx k.

(** Memory seen by one call: the cells it allocated itself, and the
    shared store of external cells (visible to every call). *)
Record mem := { m_loc : list gval; m_ext : gmap Z gval }.

Definition zero_of (k : kind) : gval :=
  match k with
  | KString => GString EmptyString | KInt => GInt 0 | KFloat => GFloat 0%float
  | KBool => GBool false
  end.

Definition deref (m : mem) (c : cell) : gval :=
  match c_at c with
  | LFresh i => default (zero_of (c_kind c)) (m_loc m !! i)
  | LExt a => default (zero_of (c_kind c)) (m_ext m !! ext_key (c_kind c) a)
  end.

Definition store (m : mem) (c : cell) (v : gval) : mem :=
  match c_at c with
  | LFresh i => {| m_loc := <[i := v]> (m_loc m); m_ext := m_ext m |}
  | LExt a => {| m_loc := m_loc m; m_ext := <[ext_key (c_kind c) a := v]> (m_ext m) |}
  end.

(** [new(T)] followed by [*p = v]. *)
Definition alloc (m : mem) (k : kind) (v : gval) : cell * mem :=
  ({| c_kind := k; c_at := LFresh (length (m_loc m)) |},
   {| m_loc := m_loc m ++ [v]; m_ext := m_ext m |}).

(* ------------------------------------------------------------------ *)
(** * Output *)

(** Destinations: the process standard output ([os.Stdout]), the
    process standard error ([os.Stderr]), the in-memory buffer created
    by one RunBuffer call, or any other writer of the caller. *)
Inductive writer := WOs | WErr | WBuffer (n : nat) | WOther (n : nat).

#[global] Instance writer_eq_dec : EqDecision writer.
Proof. solve_decision. Defined.

(** What is written: plain text, or the defaults listing printed by
    [FlagSet.PrintDefaults] (name, default value, usage of each flag;
    its textual layout is the flag package's), or a text [pre], then
    [s] quoted as Go's %q verb prints it ([strconv.Quote]), then [post]. *)
Inductive item :=
| IText (s : string)
| IDefaults (ds : list (string * gval * string))
| IQuoted (pre s post : string).

Definition log := list (writer * item).

(* ------------------------------------------------------------------ *)
(** * Errors *)

(** Errors returned by [flag.FlagSet.Parse]. *)
Inductive perr :=
| PBadSyntax (s : string)          (* "bad flag syntax: %s" *)
| PUndefined (name : string)       (* "flag provided but not defined: -%s" *)
| PHelpRequested                   (* flag.ErrHelp *)
| PInvalidBool (v name : string) (why : string)
| PNeedsArg (name : string)
| PInvalidValue (v name : string) (why : string).

(** The double quote character, as printed by Go's %q verb. *)
Definition dq : string := String (Ascii.ascii_of_nat 34) EmptyString.

Definition perr_msg (e : perr) : string :=
  match e with
  | PBadSyntax s => "bad flag syntax: " ++ s
  | PUndefined n => "flag provided but not defined: -" ++ n
  | PHelpRequested => "flag: help requested"
  | PInvalidBool v n why => "invalid boolean value " ++ dq ++ v ++ dq ++ " for -" ++ n ++ ": " ++ why
  | PNeedsArg n => "flag needs an argument: -" ++ n
  | PInvalidValue v n why => "invalid value " ++ dq ++ v ++ dq ++ " for flag -" ++ n ++ ": " ++ why
  end.

(** Errors seen by callers of [run]: the jcli sentinel [ErrHelp], an
    error carrying a text ([fmt.Errorf], [errors.New] in callbacks), or
    a raw flag parse error handed through unchanged. *)
Inductive err :=
| ErrHelp
| EText (s : string)
| EParse (e : perr).

(* ------------------------------------------------------------------ *)
(** * String helpers (Go's strings package on ASCII text) *)

Definition ch (n : nat) : Ascii.ascii := Ascii.ascii_of_nat n.

(** [s[i] == c] for an index inside [s]. *)
Definition char_at_is (i : nat) (s : string) (c : Ascii.ascii) : bool :=
  match String.get i s with Some d => Ascii.eqb d c | None => false end.

(** [strings.ToLower] on ASCII letters. *)
Fixpoint to_lower (s : string) : string :=
  match s with
  | EmptyString => EmptyString
  | String c r =>
      let n := Ascii.nat_of_ascii c in
      String (if (Nat.leb 65 n && Nat.leb n 90)%bool then ch (n + 32) else c) (to_lower r)
  end.

(** [strings.Repeat(s, n)]. *)
Fixpoint repeat_str (s : string) (n : nat) : string :=
  match n with O => EmptyString | S k => s ++ repeat_str s k end.

(** First '=' of a string: the text before it and the text after it. *)
Fixpoint split_first_eq (s : string) : option (string * string) :=
  match s with
  | EmptyString => None
  | String c r =>
      if Ascii.eqb c (ch 61) then Some (EmptyString, r)
      else match split_first_eq r with
           | Some (a, b) => Some (String c a, b)
           | None => None
           end
  end.

(** The loop [for i := 1; i < len(name); i++ { if name[i] == '=' ...}]
    of [parseOne]: an '=' at index 0 is not a separator. *)
Definition split_name_value (name : string) : string * option string :=
  match name with
  | EmptyString => (name, None)
  | String c r =>
      match split_first_eq r with
      | Some (a, b) => (String c a, Some b)
      | None => (name, None)
      end
  end.

(* ------------------------------------------------------------------ *)
(** * Go's strconv conversions used by the flag package *)

(** [strconv.ParseInt(s, 0, strconv.IntSize)] and
    [strconv.ParseFloat(s, 64)]: the value produced and, on failure,
    the reason ("parse error" or "value out of range") that the flag
    package reports. Their digit-level behaviour is the Go library's and
    is kept abstract: every theorem below holds for any of them. *)
Record strconv := {
  parse_int : string -> Z * option string;
  parse_float : string -> float * option string
}.

(** [strconv.ParseBool], as wrapped by [boolValue.Set]. *)
Definition parse_bool (s : string) : bool * option string :=
  if bool_decide (s ∈ ["1"; "t"; "T"; "TRUE"; "true"; "True"]) then (true, None)
  else if bool_decide (s ∈ ["0"; "f"; "F"; "FALSE"; "false"; "False"]) then (false, None)
  else (false, Some "parse error").

(** [Value.Set] of the four flag value types: the value is stored even
    when the conversion fails (Go assigns before returning the error). *)
Definition set_value (sc : strconv) (k : kind) (s : string) : gval * option string :=
  match k with
  | KString => (GString s, None)
  | KInt => let '(z, e) := parse_int sc s in (GInt z, e)
  | KFloat => let '(f, e) := parse_float sc s in (GFloat f, e)
  | KBool => let '(b, e) := parse_bool s in (GBool b, e)
  end.

(* ------------------------------------------------------------------ *)
(** * Go's flag.FlagSet (ContinueOnError) *)

(** [flag.Flag]: name, usage, the bound variable and the default value
    remembered at definition time ([DefValue]). *)
Record gflag := { f_name : string; f_usage : string; f_cell : cell; f_defvalue : gval }.

(** [flag.FlagSet]: its name, the [formal] map, the remaining arguments
    after [Parse] ([Args()]) and the output writer. *)
Record flagset := {
  fs_name : string;
  fs_formal : gmap string gflag;
  fs_args : list string;
  fs_output : writer
}.

(** [flag.NewFlagSet(name, flag.ContinueOnError)]; its output is
    [os.Stderr] until [SetOutput]. *)
Definition new_flagset (name : string) : flagset :=
  {| fs_name := name; fs_formal := ∅; fs_args := []; fs_output := WErr |}.

Definition set_output (fs : flagset) (w : writer) : flagset :=
  {| fs_name := fs_name fs; fs_formal := fs_formal fs; fs_args := fs_args fs; fs_output := w |}.

Definition set_args (fs : flagset) (a : list string) : flagset :=
  {| fs_name := fs_name fs; fs_formal := fs_formal fs; fs_args := a; fs_output := fs_output fs |}.

(** [strings.Contains(s, "=")]. *)
Definition has_eq (s : string) : bool :=
  match split_first_eq s with Some _ => true | None => false end.

(** The checks of [FlagSet.Var] (Go 1.21 and later), in order: a name
    beginning with '-', a name containing '=', a name already defined.
    Each panics with a message that [f.sprintf] first prints, with a
    newline, to the flag set's output. (Var's last check, a name
    assigned through [FlagSet.Set] before being defined, cannot fire
    here: nothing calls Set on the flag sets of parseFlags.) *)
Definition var_panic (fs : flagset) (name : string) : option item :=
  if char_at_is 0 name (ch 45) then
    Some (IQuoted "flag " name (" begins with -" ++ String (ch 10) EmptyString))
  else if has_eq name then
    Some (IQuoted "flag " name (" contains =" ++ String (ch 10) EmptyString))
  else
    match fs_formal fs !! name with
    | Some _ =>
        Some (IText ((if String.eqb (fs_name fs) EmptyString
                      then "flag redefined: " ++ name
                      else fs_name fs ++ " flag redefined: " ++ name) ++ String (ch 10) EmptyString))
    | None => None
    end.

(** [FlagSet.Var]: the extended flag set, or (on a panic) what was
    printed before panicking. *)
Definition fs_var (fs : flagset) (c : cell) (def : gval) (name usage : string) : flagset + log :=
  match var_panic fs name with
  | Some it => inr [(fs_output fs, it)]
  | None =>
      inl {| fs_name := fs_name fs;
             fs_formal := <[name := {| f_name := name; f_usage := usage;
                                       f_cell := c; f_defvalue := def |}]> (fs_formal fs);
             fs_args := fs_args fs; fs_output := fs_output fs |}
  end.

(** [FlagSet.PrintDefaults]: one entry per defined flag. *)
Definition defaults_of (fs : flagset) : list (string * gval * string) :=
  (fun '(n, g) => (n, f_defvalue g, f_usage g)) <$> map_to_list (fs_formal fs).

(** [defaultUsage]: "Usage:" for a flag set without name, else
    "Usage of <name>:", then the defaults. *)
Definition usage_log (fs : flagset) : log :=
  [(fs_output fs, IText ((if String.eqb (fs_name fs) EmptyString then "Usage:"
                          else "Usage of " ++ fs_name fs ++ ":") ++ String (ch 10) EmptyString));
   (fs_output fs, IDefaults (defaults_of fs))].

(** [failf]: the error line, then the usage. *)
Definition fail_log (fs : flagset) (e : perr) : log :=
  (fs_output fs, IText (perr_msg e ++ String (ch 10) EmptyString)) :: usage_log fs.

(** [FlagSet.Parse] = the [parseOne] loop. Returns the remaining
    arguments, the memory (flag variables written), what was printed
    and the error, if any. *)
Fixpoint parse_loop (sc : strconv) (fs : flagset) (m : mem) (args : list string)
  : list string * mem * log * option perr :=
  match args with
  | [] => ([], m, [], None)
  | s :: rest =>
      if (Nat.ltb (String.length s) 2 || negb (char_at_is 0 s (ch 45)))%bool
      then (args, m, [], None)
      else
        let dbl := char_at_is 1 s (ch 45) in
        if (dbl && Nat.eqb (String.length s) 2)%bool then (rest, m, [], None)
        else
          let name0 := String.substring (if dbl then 2 else 1) (String.length s) s in
          if (Nat.eqb (String.length name0) 0 || char_at_is 0 name0 (ch 45)
              || char_at_is 0 name0 (ch 61))%bool
          then (args, m, fail_log fs (PBadSyntax s), Some (PBadSyntax s))
          else
            let '(name, hv) := split_name_value name0 in
            match fs_formal fs !! name with
            | None =>
                if bool_decide (name = "help" \/ name = "h")
                then (rest, m, usage_log fs, Some PHelpRequested)
                else (rest, m, fail_log fs (PUndefined name), Some (PUndefined name))
            | Some fl =>
                let c := f_cell fl in
                match c_kind c with
                | KBool =>
                    match hv with
                    | Some v =>
                        let '(b, e) := parse_bool v in
                        let m1 := store m c (GBool b) in
                        match e with
                        | Some why =>
                            (rest, m1, fail_log fs (PInvalidBool v name why),
                             Some (PInvalidBool v name why))
                        | None => parse_loop sc fs m1 rest
                        end
                    | None => parse_loop sc fs (store m c (GBool true)) rest
                    end
                | k =>
                    match hv with
                    | Some v =>
                        let '(x, e) := set_value sc k v in
                        let m1 := store m c x in
                        match e with
                        | Some why =>
                            (rest, m1, fail_log fs (PInvalidValue v name why),
                             Some (PInvalidValue v name why))
                        | None => parse_loop sc fs m1 rest
                        end
                    | None =>
                        match rest with
                        | [] => ([], m, fail_log fs (PNeedsArg name), Some (PNeedsArg name))
                        | v :: rest' =>
                            let '(x, e) := set_value sc k v in
                            let m1 := store m c x in
                            match e with
                            | Some why =>
                                (rest', m1, fail_log fs (PInvalidValue v name why),
                                 Some (PInvalidValue v name why))
                            | None => parse_loop sc fs m1 rest'
                            end
                        end
                    end
                end
            end
  end.

(** [FlagSet.Parse(arguments)]: the flag set with [Args()] recorded. *)
Definition fs_parse (sc : strconv) (fs : flagset) (m : mem) (args : list string)
  : flagset * mem * log * option perr :=
  let '(rest, m1, lg, e) := parse_loop sc fs m args in
  (set_args fs rest, m1, lg, e).

(* ------------------------------------------------------------------ *)
(** * Execution scope (context.Context) *)

(** [flagValues]: the parsed flag set and the name -> cell map. *)
Record flagValues := { fv_flags : flagset; fv_values : gmap string cell }.

(** Values stored under context keys. *)
Inductive cval :=
| CVFlagValues (fv : flagValues)
| CVWriter (w : writer)
| CVBool (b : bool)
| CVOther (s : string).

(** A context is a chain of [WithValue] layers, innermost first;
    [Value(k)] returns the innermost binding of [k]. *)
Definition context := list (string * cval).

Definition with_value (ctx : context) (k : string) (v : cval) : context := (k, v) :: ctx.

Fixpoint ctx_value (ctx : context) (k : string) : option cval :=
  match ctx with
  | [] => None
  | (k', v) :: r => if String.eqb k k' then Some v else ctx_value r k
  end.

Definition FlagValuesKey := "__flag_values__".
Definition StdoutKey := "__stdout__".
Definition PrintJsonKey := "__print_json__".

(** [getFlagValues]. *)
Definition getFlagValues (ctx : context) : option flagValues :=
  match ctx_value ctx FlagValuesKey with Some (CVFlagValues fv) => Some fv | _ => None end.

(** [getValuePointer]. *)
Definition getValuePointer (ctx : context) (name : string) : option cell :=
  match getFlagValues ctx with Some fv => fv_values fv !! name | None => None end.

(** The accessors: the cell must have the accessor's pointer type. *)
Definition StringFlag (ctx : context) (m : mem) (name otherwise : string) : string :=
  match getValuePointer ctx name with
  | Some c => if kind_eqb (c_kind c) KString
              then match deref m c with GString s => s | _ => EmptyString end
              else otherwise
  | None => otherwise
  end.

Definition IntFlag (ctx : context) (m : mem) (name : string) (otherwise : Z) : Z :=
  match getValuePointer ctx name with
  | Some c => if kind_eqb (c_kind c) KInt
              then match deref m c with GInt z => z | _ => 0%Z end
              else otherwise
  | None => otherwise
  end.

Definition FloatFlag (ctx : context) (m : mem) (name : string) (otherwise : float) : float :=
  match getValuePointer ctx name with
  | Some c => if kind_eqb (c_kind c) KFloat
              then match deref m c with GFloat f => f | _ => 0%float end
              else otherwise
  | None => otherwise
  end.

Definition BoolFlag (ctx : context) (m : mem) (name : string) (otherwise : bool) : bool :=
  match getValuePointer ctx name with
  | Some c => if kind_eqb (c_kind c) KBool
              then match deref m c with GBool b => b | _ => false end
              else otherwise
  | None => otherwise
  end.

Definition HelpFlag (ctx : context) (m : mem) : bool := BoolFlag ctx m "help" false.

(** [OtherArgs]: [None] is Go's nil slice. *)
Definition OtherArgs (ctx : context) : option (list string) :=
  match getFlagValues ctx with Some fv => Some (fs_args (fv_flags fv)) | None => None end.

(** [Stdout]: the writer stored in the context, else [os.Stdout]. *)
Definition Stdout (ctx : context) : writer :=
  match ctx_value ctx StdoutKey with Some (CVWriter w) => w | _ => WOs end.

Definition WithStdout (ctx : context) (w : writer) : context := with_value ctx StdoutKey (CVWriter w).

(* ------------------------------------------------------------------ *)
(** * Flag schema: flagProto and flagSet (flagset.go) *)

Record flagProto := {
  fp_name : string;
  fp_description : string;
  fp_value : gval;   (* default value *)
  fp_ptr : gptr      (* external storage, type should match value *)
}.

(** [flags.StringVar(ptr, ...)] when [fp.ptr] is a non-nil pointer of
    the value's type, else [flags.String(...)] (a fresh cell). *)
Definition bind_cell (m : mem) (k : kind) (p : gptr) (v : gval) : cell * mem :=
  match p with
  | PtrTo k' a =>
      if kind_eqb k' k then
        let c := {| c_kind := k; c_at := LExt a |} in (c, store m c v)
      else alloc m k v
  | _ => alloc m k v
  end.

(** The kind selected by [switch v := fp.value.(type)]. *)
Definition kind_of (v : gval) : option kind :=
  match v with
  | GString _ => Some KString
  | GInt _ => Some KInt
  | GFloat _ => Some KFloat
  | GBool _ => Some KBool
  | GOther _ => None
  end.

(** [flagProto.addFlag(flags, vals)]: [inr] when [FlagSet.Var] panics,
    with what it printed and the memory then (the [*Var] functions
    store the default before calling Var); a value of an unsupported
    type falls through the type switch. *)
Definition proto_addFlag (fp : flagProto) (fs : flagset) (vals : gmap string cell) (m : mem)
  : (flagset * gmap string cell * mem) + (log * mem) :=
  match kind_of (fp_value fp) with
  | Some k =>
      let '(c, m1) := bind_cell m k (fp_ptr fp) (fp_value fp) in
      match fs_var fs c (fp_value fp) (fp_name fp) (fp_description fp) with
      | inl fs1 => inl (fs1, <[fp_name fp := c]> vals, m1)
      | inr lg => inr (lg, m1)
      end
  | None => inl (fs, vals, m)
  end.

(** [flagSet]: the map [protos] from names to declarations. *)
Abbreviation flagSet := (gmap string flagProto).

Definition newFlagSet : flagSet := ∅.

Definition flagCount (fs : flagSet) : nat := size fs.

(** [flagSet.addFlag]: [fs.protos[name] = &flagProto{...}]. *)
Definition flagSet_addFlag (name description : string) (val : gval) (ptr : gptr) (fs : flagSet)
  : flagSet :=
  <[name := {| fp_name := name; fp_description := description; fp_value := val; fp_ptr := ptr |}]> fs.

(** [for _, proto := range fs.protos { proto.addFlag(flags, vals) }],
    in the map's enumeration order. *)
Fixpoint bind_protos (ps : list flagProto) (fs : flagset) (vals : gmap string cell) (m : mem)
  : (flagset * gmap string cell * mem) + (log * mem) :=
  match ps with
  | [] => inl (fs, vals, m)
  | p :: r =>
      match proto_addFlag p fs vals m with
      | inl (fs1, vals1, m1) => bind_protos r fs1 vals1 m1
      | inr e => inr e
      end
  end.

(** Outcome of [parseFlags]: the extended context, the parse error, or a
    panic of [FlagSet.Var] (its message is in the log). *)
Inductive pf_result :=
| PFOk (ctx : context)
| PFErr (e : perr)
| PFPanic.

Definition help_usage (commandPath : string) : string :=
  "Get help on the '" ++ to_lower commandPath ++ "' command.".

(** [flagSet.parseFlags(ctx, commandPath, args)]. *)
Definition parseFlags (sc : strconv) (fs : flagSet) (ctx : context) (m : mem)
    (commandPath : string) (args : list string) : pf_result * mem * log :=
  match bind_protos (snd <$> map_to_list fs) (new_flagset commandPath) ∅ m with
  | inr (lg, m1) => (PFPanic, m1, lg)
  | inl (flags, vals, m1) =>
      let '(hc, m2) := alloc m1 KBool (GBool false) in
      match fs_var flags hc (GBool false) "help" (help_usage commandPath) with
      | inr lg => (PFPanic, m2, lg)
      | inl flags1 =>
          let flags2 := set_output flags1 (Stdout ctx) in
          let vals1 := <[ "help" := hc ]> vals in
          let '(flags3, m3, lg, e) := fs_parse sc flags2 m2 args in
          match e with
          | Some pe => (PFErr pe, m3, lg)
          | None =>
              (PFOk (with_value ctx FlagValuesKey
                       (CVFlagValues {| fv_flags := flags3; fv_values := vals1 |})), m3, lg)
          end
      end
  end.

(* ------------------------------------------------------------------ *)
(** * Commands and the application wrapper (part_004, cli.go) *)

(** A Go callback taking the context: it may read any memory it can
    reach, writes to writers, and returns an error or nil ([None]).
    [Action] is [func(ctx context.Context) error]. *)
Definition callback := context -> mem -> log * option err.

(** The banner renderer of a Cli: [defaultBannerFunction], a custom
    function, or nil (calling it panics). *)
Inductive banner := BannerDefault | BannerFunc (f : context -> mem -> string) | BannerNil.

(** [Command]; other commands are referred to by their identity (the Go
    pointer), an index into the world. *)
Record command := {
  c_app : option nat;          (* only the root has an app *)
  c_parent : option nat;
  c_name : string;
  c_shortdescription : string;
  c_longdescription : string;
  c_subCommands : list nat;
  c_subCommandsMap : gmap string nat;
  c_actionCallback : option callback;
  c_hidden : bool;
  c_flags : flagSet
}.

(** [Cli]. The [*Cli] argument of the pre-run hook and of the help
    handler is left out: a Go closure can capture it anyway. *)
Record cli := {
  cli_version : string;
  cli_rootCommand : nat;
  cli_defaultCommand : option nat;
  cli_preRunCommand : option callback;
  cli_bannerFunction : banner;
  cli_errorHandler : option (string -> perr -> option err);
  cli_helpHandler : option callback
}.

(** The heap of Command and Cli objects. *)
Record world := { w_cmds : gmap nat command; w_clis : gmap nat cli }.

Definition maxDepth : nat := 10.

(** [getCli]: walk parents (at most [maxDepth] nodes) up to one with an app. *)
Fixpoint getCli_walk (w : world) (i : nat) (c : nat) : option nat :=
  match i with
  | O => None
  | S i' =>
      match w_cmds w !! c with
      | None => None
      | Some cmd =>
          match c_app cmd with
          | Some a => Some a
          | None => match c_parent cmd with Some p => getCli_walk w i' p | None => None end
          end
      end
  end.

Definition getCli (w : world) (c : nat) : option (nat * cli) :=
  match getCli_walk w maxDepth c with
  | Some a => match w_clis w !! a with Some app => Some (a, app) | None => None end
  | None => None
  end.

(** [commandPath]: prefix the non-empty names of at most [maxDepth] ancestors. *)
Fixpoint path_walk (w : world) (i : nat) (cmd : command) (pth : string) : string :=
  match i with
  | O => pth
  | S i' =>
      match c_parent cmd with
      | None => pth
      | Some p =>
          match w_cmds w !! p with
          | None => pth
          | Some pc =>
              path_walk w i' pc
                (if String.eqb (c_name pc) EmptyString then pth else c_name pc ++ " " ++ pth)
          end
      end
  end.

Definition commandPath (w : world) (c : nat) : string :=
  match w_cmds w !! c with
  | Some cmd => path_walk w maxDepth cmd (c_name cmd)
  | None => EmptyString
  end.

Definition nl : string := String (ch 10) EmptyString.

(** [Cli.Name], [Cli.ShortDescription] and [defaultBannerFunction]. *)
Definition cli_Name (w : world) (app : cli) : string :=
  match w_cmds w !! cli_rootCommand app with Some r => c_name r | None => EmptyString end.
Definition cli_ShortDescription (w : world) (app : cli) : string :=
  match w_cmds w !! cli_rootCommand app with Some r => c_shortdescription r | None => EmptyString end.

Definition defaultBannerFunction (w : world) (app : cli) : string :=
  let version := if Nat.ltb 0 (String.length (cli_version app)) then " " ++ cli_version app
                 else EmptyString in
  cli_Name w app ++ version ++ " - " ++ cli_ShortDescription w app.

(** [Cli.PrintBanner]; [None] when the banner function is nil. *)
Definition PrintBanner (w : world) (app : cli) (ctx : context) (m : mem) : option log :=
  let out := Stdout ctx in
  let b := match cli_bannerFunction app with
           | BannerDefault => Some (defaultBannerFunction w app)
           | BannerFunc f => Some (f ctx m)
           | BannerNil => None
           end in
  match b with
  | Some s => Some [(out, IText (s ++ nl)); (out, IText nl)]
  | None => None
  end.

Definition isDefaultCommand (w : world) (c : nat) : bool :=
  match getCli w c with
  | Some (_, app) => match cli_defaultCommand app with Some d => Nat.eqb d c | None => false end
  | None => false
  end.

Definition name_len (w : world) (c : nat) : nat :=
  match w_cmds w !! c with Some s => String.length (c_name s) | None => 0 end.

(** [longestSubcommand]. *)
Definition longestSubcommand (w : world) (cmd : command) : nat :=
  foldl (fun acc s => Nat.max acc (name_len w s)) 0 (c_subCommands cmd).

Definition subcommand_line (w : world) (longest : nat) (s : nat) : log :=
  match w_cmds w !! s with
  | Some sc =>
      if c_hidden sc then []
      else
        let spacer := repeat_str " " (3 + longest - String.length (c_name sc)) in
        let isDefault := if isDefaultCommand w s then "[default]" else EmptyString in
        [(WOs, IText ("   " ++ c_name sc ++ spacer ++ c_shortdescription sc ++ " "
                      ++ isDefault ++ nl))]
  | None => []
  end.

(** [flagSet.printDefaults(ctx)]. *)
Definition printDefaults (ctx : context) : log :=
  match getFlagValues ctx with
  | Some fv =>
      let out := Stdout ctx in
      [(out, IText ("Flags:" ++ nl)); (out, IText nl);
       (fs_output (fv_flags fv), IDefaults (defaults_of (fv_flags fv)))]
  | None => []
  end.

(** [Command.PrintHelp(ctx)]: the title, long description and command
    list go to [os.Stdout] through [fmt.Println]; banner, flag defaults
    and the final newline go to [Stdout(ctx)]. [None]: a nil banner
    function panicked. *)
Definition PrintHelp (w : world) (c : nat) (ctx : context) (m : mem) : option log :=
  match w_cmds w !! c with
  | None => None
  | Some cmd =>
      let banner := match getCli w c with
                    | Some (_, app) => PrintBanner w app ctx m
                    | None => Some []
                    end in
      match banner with
      | None => None
      | Some lb =>
          let commandPath := commandPath w c in
          let commandTitle := if String.eqb (c_shortdescription cmd) EmptyString then commandPath
                              else commandPath ++ " - " ++ c_shortdescription cmd in
          let lt := if String.eqb commandPath (c_name cmd) then []
                    else [(WOs, IText (commandTitle ++ nl))] in
          let ll := if String.eqb (c_longdescription cmd) EmptyString then []
                    else [(WOs, IText (c_longdescription cmd ++ nl ++ nl))] in
          let ls := match c_subCommands cmd with
                    | [] => []
                    | subs =>
                        let longest := longestSubcommand w cmd in
                        ([(WOs, IText ("Available commands:" ++ nl)); (WOs, IText nl)]
                          ++ concat (subcommand_line w longest <$> subs)
                          ++ [(WOs, IText nl)])%list
                    end in
          let lf := if Nat.ltb 0 (flagCount (c_flags cmd)) then printDefaults ctx else [] in
          Some (lb ++ lt ++ ll ++ ls ++ lf ++ [(Stdout ctx, IText nl)])%list
      end
  end.

(** How a call ends: returning an error or nil, or panicking. *)
Inductive res := Ret (e : option err) | Panic.

Definition parse_error_text (e : perr) (commandPath : string) : string :=
  "Error: " ++ perr_msg e ++ nl ++ "See '" ++ commandPath ++ " --help' for usage".

Definition help_or_panic (r : option log) (e : option err) (lg : log) (m : mem)
  : option (res * log * mem) :=
  match r with
  | Some lh => Some (Ret e, List.app lg lh, m)
  | None => Some (Panic, lg, m)
  end.

(** [Command.run(ctx, args)]. [fuel] bounds the number of nested [run]
    calls; [None] means it ran out (the Go call may not terminate when
    default commands of two apps delegate to each other). *)
Fixpoint run (sc : strconv) (fuel : nat) (w : world) (ctx : context) (m : mem) (c : nat)
    (args : list string) {struct fuel} : option (res * log * mem) :=
  match fuel with
  | O => None
  | S fuel' =>
      match getCli w c, w_cmds w !! c with
      | Some (_, app), Some cmd =>
          (* from "Do we have an action?" on *)
          let rest_of_run (ctx1 : context) (m1 : mem) (lg1 : log) : option (res * log * mem) :=
            match c_actionCallback cmd with
            | Some act => let '(lg2, e) := act ctx1 m1 in Some (Ret e, List.app lg1 lg2, m1)
            | None =>
                let dflt := match cli_defaultCommand app with
                            | Some d => if negb (Nat.eqb d c) && Nat.eqb (length args) 0
                                        then Some d else None
                            | None => None
                            end in
                match dflt with
                | Some d =>
                    match run sc fuel' w ctx1 m1 d args with
                    | Some (r, lg2, m2) => Some (r, List.app lg1 lg2, m2)
                    | None => None
                    end
                | None =>
                    match cli_helpHandler app with
                    | Some h => let '(lg2, e) := h ctx1 m1 in Some (Ret e, List.app lg1 lg2, m1)
                    | None => help_or_panic (PrintHelp w c ctx1 m1) (Some ErrHelp) lg1 m1
                    end
                end
            end in
          match args with
          | [] => rest_of_run ctx m []
          | a0 :: rest =>
              match c_subCommandsMap cmd !! a0 with
              | Some sub => run sc fuel' w ctx m sub rest
              | None =>
                  let commandPath := commandPath w c in
                  let '(r, m1, lg1) := parseFlags sc (c_flags cmd) ctx m commandPath args in
                  match r with
                  | PFPanic => Some (Panic, lg1, m1)
                  | PFErr e =>
                      match cli_errorHandler app with
                      | Some h => Some (Ret (h commandPath e), lg1, m1)
                      | None => Some (Ret (Some (EText (parse_error_text e commandPath))), lg1, m1)
                      end
                  | PFOk ctx1 =>
                      if HelpFlag ctx1 m1
                      then help_or_panic (PrintHelp w c ctx1 m1) None lg1 m1
                      else rest_of_run ctx1 m1 lg1
                  end
              end
          end
      | _, _ => Some (Ret (Some (EText "Command not setup correctly")), [], m)
      end
  end.

(** [Cli.Run(ctx, args...)]. *)
Definition Cli_Run (sc : strconv) (fuel : nat) (w : world) (a : nat) (ctx : context) (m : mem)
    (args : list string) : option (res * log * mem) :=
  match w_clis w !! a with
  | None => Some (Panic, [], m)
  | Some app =>
      match cli_preRunCommand app with
      | Some pre =>
          let '(lg0, e) := pre ctx m in
          match e with
          | Some _ => Some (Ret e, lg0, m)
          | None =>
              match run sc fuel w ctx m (cli_rootCommand app) args with
              | Some (r, lg, m1) => Some (r, List.app lg0 lg, m1)
              | None => None
              end
          end
      | None => run sc fuel w ctx m (cli_rootCommand app) args
      end
  end.

(** What was written to a given writer. *)
Definition written_to (wr : writer) (lg : log) : list item :=
  snd <$> filter (fun p => p.1 = wr) lg.

(** [Cli.RunBuffer(ctx, printsJson, args...)]: [b] names the fresh
    [bytes.Buffer] of this call; the call starts with no cells of its
    own and the shared store [g]. Returns the buffer's content, how the
    call ended, and the shared store afterwards. *)
Definition RunBuffer (sc : strconv) (fuel : nat) (w : world) (a : nat) (ctx : context)
    (b : nat) (printsJson : bool) (args : list string) (g : gmap Z gval)
  : option (list item * res * gmap Z gval) :=
  let ctx1 := with_value ctx PrintJsonKey (CVBool printsJson) in
  let ctx2 := WithStdout ctx1 (WBuffer b) in
  match Cli_Run sc fuel w a ctx2 {| m_loc := []; m_ext := g |} args with
  | Some (r, lg, m1) => Some (written_to (WBuffer b) lg, r, m_ext m1)
  | None => None
  end.

(* ------------------------------------------------------------------ *)
(** * Building the tree (the configuration phase) *)

(** [NewCommand(name, description)]. *)
Definition NewCommand (name description : string) : command :=
  {| c_app := None; c_parent := None; c_name := name; c_shortdescription := description;
     c_longdescription := EmptyString; c_subCommands := []; c_subCommandsMap := ∅;
     c_actionCallback := None; c_hidden := false; c_flags := newFlagSet |}.

Definition with_parent (p : option nat) (c : command) : command :=
  {| c_app := c_app c; c_parent := p; c_name := c_name c;
     c_shortdescription := c_shortdescription c; c_longdescription := c_longdescription c;
     c_subCommands := c_subCommands c; c_subCommandsMap := c_subCommandsMap c;
     c_actionCallback := c_actionCallback c; c_hidden := c_hidden c; c_flags := c_flags c |}.

Definition with_subs (subs : list nat) (mp : gmap string nat) (c : command) : command :=
  {| c_app := c_app c; c_parent := c_parent c; c_name := c_name c;
     c_shortdescription := c_shortdescription c; c_longdescription := c_longdescription c;
     c_subCommands := subs; c_subCommandsMap := mp;
     c_actionCallback := c_actionCallback c; c_hidden := c_hidden c; c_flags := c_flags c |}.

Definition with_action (a : option callback) (c : command) : command :=
  {| c_app := c_app c; c_parent := c_parent c; c_name := c_name c;
     c_shortdescription := c_shortdescription c; c_longdescription := c_longdescription c;
     c_subCommands := c_subCommands c; c_subCommandsMap := c_subCommandsMap c;
     c_actionCallback := a; c_hidden := c_hidden c; c_flags := c_flags c |}.

Definition with_flags (f : flagSet) (c : command) : command :=
  {| c_app := c_app c; c_parent := c_parent c; c_name := c_name c;
     c_shortdescription := c_shortdescription c; c_longdescription := c_longdescription c;
     c_subCommands := c_subCommands c; c_subCommandsMap := c_subCommandsMap c;
     c_actionCallback := c_actionCallback c; c_hidden := c_hidden c; c_flags := f |}.

Definition with_app (a : option nat) (c : command) : command :=
  {| c_app := a; c_parent := c_parent c; c_name := c_name c;
     c_shortdescription := c_shortdescription c; c_longdescription := c_longdescription c;
     c_subCommands := c_subCommands c; c_subCommandsMap := c_subCommandsMap c;
     c_actionCallback := c_actionCallback c; c_hidden := c_hidden c; c_flags := c_flags c |}.

(** Writing through a [*Command]: [None] is a nil-pointer panic. *)
Definition update_cmd (w : world) (c : nat) (f : command -> command) : option world :=
  match w_cmds w !! c with
  | Some cmd => Some {| w_cmds := <[c := f cmd]> (w_cmds w); w_clis := w_clis w |}
  | None => None
  end.

(** Allocation of a new Command object. *)
Definition alloc_cmd (w : world) (cmd : command) : world * nat :=
  let id := fresh (dom (w_cmds w)) in
  ({| w_cmds := <[id := cmd]> (w_cmds w); w_clis := w_clis w |}, id).

(** [Command.AddCommand(command)]: set the parent, then append to the
    list and register in the map under the child's name. *)
Definition AddCommand (w : world) (c child : nat) : option world :=
  match w_cmds w !! child with
  | None => None
  | Some chd =>
      match update_cmd w child (with_parent (Some c)) with
      | None => None
      | Some w1 =>
          update_cmd w1 c (fun cc =>
            with_subs (c_subCommands cc ++ [child])
                      (<[c_name chd := child]> (c_subCommandsMap cc)) cc)
      end
  end.

(** [Command.NewSubCommand(name, description)]. *)
Definition NewSubCommand (w : world) (c : nat) (name description : string)
  : option (world * nat) :=
  let '(w1, id) := alloc_cmd w (NewCommand name description) in
  match AddCommand w1 c id with Some w2 => Some (w2, id) | None => None end.

(** [Command.Action(callback)]. *)
Definition Action (w : world) (c : nat) (a : option callback) : option world :=
  update_cmd w c (with_action a).

(** The variadic [ptrs ...*T] of the flag adders: the first pointer if
    any ([None] is a nil pointer), else the nil interface. *)
Definition ptr_arg (k : kind) (ptrs : list (option Z)) : gptr :=
  match ptrs with
  | [] => PtrNone
  | None :: _ => PtrNilOf k
  | Some a :: _ => PtrTo k a
  end.

(** [Command.BoolFlag], [StringFlag], [IntFlag], [FloatFlag]. *)
Definition cmd_addFlag (w : world) (c : nat) (name description : string) (v : gval) (p : gptr)
  : option world :=
  update_cmd w c (fun cmd => with_flags (flagSet_addFlag name description v p (c_flags cmd)) cmd).

Definition Command_BoolFlag (w : world) (c : nat) (name description : string) (val : bool)
    (ptrs : list (option Z)) : option world :=
  cmd_addFlag w c name description (GBool val) (ptr_arg KBool ptrs).
Definition Command_StringFlag (w : world) (c : nat) (name description val : string)
    (ptrs : list (option Z)) : option world :=
  cmd_addFlag w c name description (GString val) (ptr_arg KString ptrs).
Definition Command_IntFlag (w : world) (c : nat) (name description : string) (val : Z)
    (ptrs : list (option Z)) : option world :=
  cmd_addFlag w c name description (GInt val) (ptr_arg KInt ptrs).
Definition Command_FloatFlag (w : world) (c : nat) (name description : string) (val : float)
    (ptrs : list (option Z)) : option world :=
  cmd_addFlag w c name description (GFloat val) (ptr_arg KFloat ptrs).

(** [NewCli(name, description, version)]: a Cli and its root command,
    whose [app] is set to it. *)
Definition NewCli (w : world) (name description version : string) : world * nat :=
  let '(w1, root) := alloc_cmd w (NewCommand name description) in
  let a := fresh (dom (w_clis w1)) in
  let app := {| cli_version := version; cli_rootCommand := root; cli_defaultCommand := None;
                cli_preRunCommand := None; cli_bannerFunction := BannerDefault;
                cli_errorHandler := None; cli_helpHandler := None |} in
  ({| w_cmds := <[root := with_app (Some a) (NewCommand name description)]> (w_cmds w1);
      w_clis := <[a := app]> (w_clis w1) |}, a).

(** [Cli.DefaultCommand(defaultCommand)]. *)
Definition DefaultCommand (w : world) (a : nat) (d : nat) : option world :=
  match w_clis w !! a with
  | Some app =>
      Some {| w_cmds := w_cmds w;
              w_clis := <[a := {| cli_version := cli_version app;
                                  cli_rootCommand := cli_rootCommand app;
                                  cli_defaultCommand := Some d;
                                  cli_preRunCommand := cli_preRunCommand app;
                                  cli_bannerFunction := cli_bannerFunction app;
                                  cli_errorHandler := cli_errorHandler app;
                                  cli_helpHandler := cli_helpHandler app |}]> (w_clis w) |}
  | None => None
  end.

Definition empty_world : world := {| w_cmds := ∅; w_clis := ∅ |}.

(* ------------------------------------------------------------------ *)
(** * Examples: TestBasic's configuration *)

(** A strconv instance to run the examples with (they use no int or
    float flags, so its choice does not matter). *)
Definition strconv_example : strconv :=
  {| parse_int := fun _ => (0%Z, Some "parse error");
     parse_float := fun _ => (0%float, Some "parse error") |}.

(** An action recording what it reads: the [fmt] flag (fallback "???"),
    the [ui] flag and the residual arguments. *)
Definition observe_action : callback := fun ctx m =>
  ([(Stdout ctx, IText (StringFlag ctx m "fmt" "???"));
    (Stdout ctx, IText (if BoolFlag ctx m "ui" false then "ui=true" else "ui=false"))]
   ++ match OtherArgs ctx with
      | Some l => (fun s => (Stdout ctx, IText s)) <$> l
      | None => []
      end, None)%list.

(** [NewCli("Basics", ...).StringFlag("fmt", "Format", EmptyString).
    BoolFlag("ui", "Interactive", false, &interactive).Action(...)],
    with [interactive] at external address 7. *)
Definition basic_world : world :=
  let '(w, a) := NewCli empty_world "Basics" "Test basics" "0" in
  let root := 0 in
  default w
    (w1 ← Command_StringFlag w root "fmt" "Format" EmptyString [];
     w2 ← Command_BoolFlag w1 root "ui" "Interactive" false [Some 7%Z];
     Action w2 root (Some observe_action)).

(** TestBasic's second Cli: a root without action, a child [hello] with a
    [name] flag, and a child [default] that is the default command. *)
Definition hello_action : callback := fun ctx m =>
  ([(Stdout ctx, IText ("Hello " ++ StringFlag ctx m "name" "???"))], None).
Definition default_action : callback := fun ctx m =>
  ([(Stdout ctx, IText "This is default")], None).

Definition hello_world : world :=
  let '(w, a) := NewCli empty_world "Hello" "Test sub command" "0" in
  default w
    ('(w1, h) ← NewSubCommand w 0 "hello" "Hello";
     w2 ← Command_StringFlag w1 h "name" "Name" EmptyString [];
     w3 ← Action w2 h (Some hello_action);
     '(w4, d) ← NewSubCommand w3 0 "default" "Default";
     w5 ← Action w4 d (Some default_action);
     DefaultCommand w5 a d).

(** Looking up the example objects, with placeholders for absent ones. *)
Definition placeholder_cli : cli :=
  {| cli_version := EmptyString; cli_rootCommand := 0; cli_defaultCommand := None;
     cli_preRunCommand := None; cli_bannerFunction := BannerDefault;
     cli_errorHandler := None; cli_helpHandler := None |}.
Definition cmd_at (w : world) (c : nat) : command :=
  default (NewCommand EmptyString EmptyString) (w_cmds w !! c).
Definition app_of (w : world) (c : nat) : nat * cli := default (0, placeholder_cli) (getCli w c).
Definition pf_ctx (r : pf_result * mem * log) : context :=
  match r with (PFOk c, _, _) => c | _ => [] end.
Definition mem0 : mem := {| m_loc := []; m_ext := ∅ |}.

(** Cells a memory can hold: an allocated index or any external cell. *)
Definition cell_valid (m : mem) (c : cell) : Prop :=
  match c_at c with LFresh i => i < length (m_loc m) | LExt _ => True end.

(** Two cells that never alias. *)
Definition cells_disjoint (c1 c2 : cell) : Prop :=
  match c_at c1, c_at c2 with
  | LFresh i, LFresh j => i <> j
  | LExt a, LExt b => ext_key (c_kind c1) a <> ext_key (c_kind c2) b
  | _, _ => True
  end.

(** The flag schema of TestBasic: [ui] (bool, default false) and [fmt]
    (text, default the empty string), with any descriptions and storage pointers. *)
Definition basic_flags (du df : string) (pu pf : gptr) : flagSet :=
  flagSet_addFlag "ui" du (GBool false) pu (flagSet_addFlag "fmt" df (GString EmptyString) pf newFlagSet).
(** Does a declaration carry external storage of some pointer type? *)
Definition has_ext_storage (p : gptr) : bool :=
  match p with PtrTo _ _ => true | _ => false end.

(** No flag declared anywhere in the configuration has external storage. *)
Definition no_ext_storage (w : world) : Prop :=
  map_Forall (fun _ cmd => map_Forall (fun _ p => has_ext_storage (fp_ptr p) = false) (c_flags cmd))
    (w_cmds w).

(** All flags of a parser are bound to cells of the current call. *)
Definition fresh_cells (fs : flagset) : Prop :=
  map_Forall (fun _ g => exists i, c_at (f_cell g) = LFresh i) (fs_formal fs).

(* ------------------------------------------------------------------ *)
(** * Children of a node *)

(** A sequence of tree-building calls. *)
Inductive tree_op :=
| OpAddCommand (c child : nat)
| OpNewSubCommand (c : nat) (name description : string).

Definition apply_op (w : world) (op : tree_op) : option world :=
  match op with
  | OpAddCommand c child => AddCommand w c child
  | OpNewSubCommand c name description => fst <$> NewSubCommand w c name description
  end.

Fixpoint apply_ops (w : world) (ops : list tree_op) : option world :=
  match ops with
  | [] => Some w
  | op :: r => w1 ← apply_op w op; apply_ops w1 r
  end.

Definition child_name (w : world) (x : nat) : option string := c_name <$> w_cmds w !! x.

(** The last element of [subs] whose name is [n]. *)
Fixpoint last_named (w : world) (n : string) (subs : list nat) : option nat :=
  match subs with
  | [] => None
  | x :: r =>
      match last_named w n r with
      | Some y => Some y
      | None => if decide (child_name w x = Some n) then Some x else None
      end
  end.

(** The child list and the name map of every node agree: each name maps
    to the last listed child of that name (and only listed names are
    mapped); listed children exist. *)
Definition children_ok (w : world) : Prop :=
  forall c cmd, w_cmds w !! c = Some cmd ->
    Forall (fun x => is_Some (w_cmds w !! x)) (c_subCommands cmd) /\
    forall n, c_subCommandsMap cmd !! n = last_named w n (c_subCommands cmd).

(** Objects existing before a step still exist with the same name. *)
Definition names_kept (w w' : world) : Prop :=
  forall x cmd, w_cmds w !! x = Some cmd ->
    exists cmd', w_cmds w' !! x = Some cmd' /\ c_name cmd' = c_name cmd.

(* ------------------------------------------------------------------ *)
(** * More example configurations *)

(** A bare application: [NewCli("App", "An app", "1")], nothing else. *)
Definition bare_world : world := fst (NewCli empty_world "App" "An app" "1").

(** TestBasic's application with a child named "--ui" added to the root. *)
Definition basic_world_dash_ui : world :=
  default basic_world (fst <$> NewSubCommand basic_world 0 "--ui" "Odd name").


(* ------------------------------------------------------------------ *)
(** * More of the configuration API (part_004, cli.go) *)

Definition with_hidden (h : bool) (c : command) : command :=
  {| c_app := c_app c; c_parent := c_parent c; c_name := c_name c;
     c_shortdescription := c_shortdescription c; c_longdescription := c_longdescription c;
     c_subCommands := c_subCommands c; c_subCommandsMap := c_subCommandsMap c;
     c_actionCallback := c_actionCallback c; c_hidden := h; c_flags := c_flags c |}.

(** [Command.Hidden()]. *)
Definition Hidden (w : world) (c : nat) : option world := update_cmd w c (with_hidden true).

(** [Command.SubCommands(commands...)]: [AddCommand] for each, in order. *)
Fixpoint SubCommands (w : world) (c : nat) (commands : list nat) : option world :=
  match commands with
  | [] => Some w
  | command :: r => w1 ← AddCommand w c command; SubCommands w1 c r
  end.

(** Writing through a [*Cli]: [None] is a nil-pointer panic. *)
Definition update_cli (w : world) (a : nat) (f : cli -> cli) : option world :=
  match w_clis w !! a with
  | Some app => Some {| w_cmds := w_cmds w; w_clis := <[a := f app]> (w_clis w) |}
  | None => None
  end.

Definition with_preRun (p : option callback) (app : cli) : cli :=
  {| cli_version := cli_version app; cli_rootCommand := cli_rootCommand app;
     cli_defaultCommand := cli_defaultCommand app; cli_preRunCommand := p;
     cli_bannerFunction := cli_bannerFunction app; cli_errorHandler := cli_errorHandler app;
     cli_helpHandler := cli_helpHandler app |}.

(** [Cli.PreRun(callback)]. *)
Definition PreRun (w : world) (a : nat) (callback : option callback) : option world :=
  update_cli w a (with_preRun callback).

(** [asciiSpace] of the strings package: tab, newline, vertical tab,
    form feed, carriage return and space. *)
Definition is_space (c : Ascii.ascii) : bool :=
  let n := Ascii.nat_of_ascii c in ((Nat.leb 9 n && Nat.leb n 13) || Nat.eqb n 32)%bool.

(** The ASCII path of [strings.Fields]: the maximal runs of non-space
    characters, in order; [cur] is the field read so far. *)
Fixpoint fields_from (s cur : string) : list string :=
  match s with
  | EmptyString => if String.eqb cur EmptyString then [] else [cur]
  | String c r =>
      if is_space c
      then ((if String.eqb cur EmptyString then [] else [cur]) ++ fields_from r EmptyString)%list
      else fields_from r (cur ++ String c EmptyString)
  end.

(** Every byte below 0x80 ([utf8.RuneSelf]). *)
Fixpoint is_ascii (s : string) : bool :=
  match s with
  | EmptyString => true
  | String c r => (Nat.ltb (Ascii.nat_of_ascii c) 128 && is_ascii r)%bool
  end.

(** [strings.Fields(s)]: on text whose bytes are all below 0x80 the
    ASCII path; otherwise Go returns [FieldsFunc(s, unicode.IsSpace)],
    which decodes UTF-8 and splits at Unicode white space. That path is
    the Unicode tables' and is kept abstract, as [uf], like [strconv]. *)
Definition fields (uf : string -> list string) (s : string) : list string :=
  if is_ascii s then fields_from s EmptyString else uf s.

(** [Cli.RunLine(ctx, printsJson, line)]; [uf] is the non-ASCII path of
    [strings.Fields]. *)
Definition RunLine (sc : strconv) (uf : string -> list string) (fuel : nat) (w : world) (a : nat)
    (ctx : context) (b : nat) (printsJson : bool) (line : string) (g : gmap Z gval)
  : option (list item * res * gmap Z gval) :=
  let words := fields uf line in
  RunBuffer sc fuel w a ctx b printsJson words g.

(** Words separated by single spaces, as [strings.Join(words, " ")]. *)
Fixpoint join_spaces (ws : list string) : string :=
  match ws with
  | [] => EmptyString
  | [x] => x
  | x :: r => x ++ " " ++ join_spaces r
  end.

(** A word of a command line: nonempty, of ASCII characters other than spaces. *)
Definition plain_word (x : string) : Prop :=
  x <> EmptyString /\
  forall i c, String.get i x = Some c -> is_space c = false /\ Ascii.nat_of_ascii c < 128.

(** A schema whose keys are the declared names, as [flagSet.addFlag] builds it. *)
Definition flagSet_wf (fs : flagSet) : Prop := map_Forall (fun k p => fp_name p = k) fs.

(** [n] is declared with a default value of one of the four kinds. *)
Definition declares (fs : flagSet) (n : string) : Prop :=
  exists p, fs !! n = Some p /\ kind_of (fp_value p) <> None.

#[global] Instance declares_dec (fs : flagSet) (n : string) : Decision (declares fs n).
Proof.
  unfold declares. destruct (fs !! n) as [p|].
  - destruct (kind_of (fp_value p)) as [k|] eqn:E.
    + left. exists p. split; [reflexivity | rewrite E; discriminate].
    + right. intros [q [[= <-] Hq]]. contradiction.
  - right. intros [q [Hq _]]. discriminate.
Defined.

(** The first test of [parseOne]: an argument that is no option. *)
Definition is_positional (s : string) : bool :=
  (Nat.ltb (String.length s) 2 || negb (char_at_is 0 s (ch 45)))%bool.

(** Argument lists at which [FlagSet.Parse] stops at once (empty, a
    positional first argument, or the terminator "--"), with what it
    leaves as [Args()]. *)
Definition stops_at_once (args : list string) : option (list string) :=
  match args with
  | [] => Some []
  | s :: r => if is_positional s then Some args else if String.eqb s "--" then Some r else None
  end.

(** The typed accessor of [v]'s kind reads [v] for the name [n]. *)
Definition accessor_reads (ctx : context) (m : mem) (n : string) (v : gval) : Prop :=
  match v with
  | GString s => forall o, StringFlag ctx m n o = s
  | GInt z => forall o, IntFlag ctx m n o = z
  | GFloat f => forall o, FloatFlag ctx m n o = f
  | GBool b => forall o, BoolFlag ctx m n o = b
  | GOther _ => True
  end.

(** The parent chain of a node ends, at a node without parent, within
    [i] steps, every parent on the way existing. *)
Fixpoint chain_ends (w : world) (i : nat) (cmd : command) : bool :=
  match c_parent cmd with
  | None => true
  | Some p =>
      match i with
      | O => false
      | S i' => match w_cmds w !! p with Some pc => chain_ends w i' pc | None => false end
      end
  end.

(** The banner part of [PrintHelp]'s output. *)
Definition help_banner (w : world) (c : nat) (ctx : context) (m : mem) : log :=
  match getCli w c with
  | Some (_, app) => default [] (PrintBanner w app ctx m)
  | None => []
  end.

Definition with_banner (fn : banner) (app : cli) : cli :=
  {| cli_version := cli_version app; cli_rootCommand := cli_rootCommand app;
     cli_defaultCommand := cli_defaultCommand app; cli_preRunCommand := cli_preRunCommand app;
     cli_bannerFunction := fn; cli_errorHandler := cli_errorHandler app;
     cli_helpHandler := cli_helpHandler app |}.

(** [Cli.BannerFunction(fn)]; [BannerNil] is a nil function. *)
Definition BannerFunction (w : world) (a : nat) (fn : banner) : option world :=
  update_cli w a (with_banner fn).

(** Cells bound for declarations of [all], without external storage:
    valid, of the declared kind, holding the default value. *)
Definition cells_hold (all : list flagProto) (vals : gmap string cell) (m : mem) : Prop :=
  forall x c, vals !! x = Some c ->
    cell_valid m c /\
    exists p, p ∈ all /\ fp_name p = x /\ kind_of (fp_value p) = Some (c_kind c) /\
              deref m c = fp_value p.

(** The parser that [parseFlags] builds: the bound declarations, the
    help flag on the cell [hc], output to the context's writer. *)
Definition help_parser (flags : flagset) (hc : cell) (path : string) (ctx : context) : flagset :=
  set_output {| fs_name := fs_name flags;
                fs_formal := <["help" := {| f_name := "help"; f_usage := help_usage path;
                                            f_cell := hc; f_defvalue := GBool false |}]>
                               (fs_formal flags);
                fs_args := fs_args flags; fs_output := fs_output flags |} (Stdout ctx).

(** Nodes keep their name, parent and app. *)
Definition same_shape (w w' : world) : Prop :=
  forall x cmd, w_cmds w !! x = Some cmd ->
    exists cmd', w_cmds w' !! x = Some cmd' /\ c_name cmd' = c_name cmd /\
                 c_parent cmd' = c_parent cmd /\ c_app cmd' = c_app cmd.

(** Two worlds with the same names, parents and apps, and the same clis. *)
Definition skel (c : command) : string * option nat * option nat := (c_name c, c_parent c, c_app c).

Definition same_skel (w w' : world) : Prop :=
  (forall y, skel <$> w_cmds w' !! y = skel <$> w_cmds w !! y) /\ w_clis w' = w_clis w.

(** What [run] and the help printers read of a [Cli]. *)
Definition cli_view (app : cli) :=
  (cli_version app, cli_rootCommand app, cli_defaultCommand app, cli_bannerFunction app,
   cli_errorHandler app, cli_helpHandler app).

Arguments cli_view : simpl never.

Definition view_of (r : nat * cli) := (r.1, cli_view r.2).

Definition run_equiv (w w' : world) : Prop :=
  w_cmds w' = w_cmds w /\ forall c, view_of <$> getCli w' c = view_of <$> getCli w c.

(** Names that [FlagSet.Var] accepts when not yet defined: not
    beginning with '-' and without '='. *)
Definition var_name_ok (n : string) : bool := negb (char_at_is 0 n (ch 45) || has_eq n).

(** Every declaration of one of the four kinds has such a name. *)
Definition names_ok (fs : flagSet) : Prop :=
  map_Forall (fun _ p => kind_of (fp_value p) <> None -> var_name_ok (fp_name p) = true) fs.

#[global] Instance names_ok_dec (fs : flagSet) : Decision (names_ok fs).
Proof.
  apply map_Forall_dec. intros _ p.
  destruct (kind_of (fp_value p)) as [k|]; destruct (var_name_ok (fp_name p)).
  - left. auto.
  - right. intros H. specialize (H ltac:(discriminate)). discriminate.
  - left. intros H. congruence.
  - left. intros H. congruence.
Defined.





(* ------------------------------------------------------------------ *)
(** * Unfolding [run] *)

Lemma run_S sc f w ctx m c args :
  run sc (S f) w ctx m c args =
  match getCli w c, w_cmds w !! c with
  | Some (_, app), Some cmd =>
      let rest_of_run (ctx1 : context) (m1 : mem) (lg1 : log) : option (res * log * mem) :=
        match c_actionCallback cmd with
        | Some act => let '(lg2, e) := act ctx1 m1 in Some (Ret e, List.app lg1 lg2, m1)
        | None =>
            let dflt := match cli_defaultCommand app with
                        | Some d => if negb (Nat.eqb d c) && Nat.eqb (length args) 0
                                    then Some d else None
                        | None => None
                        end in
            match dflt with
            | Some d =>
                match run sc f w ctx1 m1 d args with
                | Some (r, lg2, m2) => Some (r, List.app lg1 lg2, m2)
                | None => None
                end
            | None =>
                match cli_helpHandler app with
                | Some h => let '(lg2, e) := h ctx1 m1 in Some (Ret e, List.app lg1 lg2, m1)
                | None => help_or_panic (PrintHelp w c ctx1 m1) (Some ErrHelp) lg1 m1
                end
            end
        end in
      match args with
      | [] => rest_of_run ctx m []
      | a0 :: rest =>
          match c_subCommandsMap cmd !! a0 with
          | Some sub => run sc f w ctx m sub rest
          | None =>
              let commandPath := commandPath w c in
              let '(r, m1, lg1) := parseFlags sc (c_flags cmd) ctx m commandPath args in
              match r with
              | PFPanic => Some (Panic, lg1, m1)
              | PFErr e =>
                  match cli_errorHandler app with
                  | Some h => Some (Ret (h commandPath e), lg1, m1)
                  | None => Some (Ret (Some (EText (parse_error_text e commandPath))), lg1, m1)
                  end
              | PFOk ctx1 =>
                  if HelpFlag ctx1 m1
                  then help_or_panic (PrintHelp w c ctx1 m1) None lg1 m1
                  else rest_of_run ctx1 m1 lg1
              end
          end
      end
  | _, _ => Some (Ret (Some (EText "Command not setup correctly")), [], m)
  end.
Proof. reflexivity. Qed.

(** Help rendering of an existing node panics only through a nil banner function. *)
Lemma PrintHelp_some w c ctx m cmd :
  w_cmds w !! c = Some cmd ->
  (forall a app, getCli w c = Some (a, app) -> cli_bannerFunction app <> BannerNil) ->
  exists lh, PrintHelp w c ctx m = Some lh.
Proof.
  intros Hc Hb. unfold PrintHelp. rewrite Hc.
  destruct (getCli w c) as [[a app]|] eqn:Ha.
  - unfold PrintBanner. specialize (Hb a app eq_refl).
    destruct (cli_bannerFunction app); [| | congruence]; simpl; eauto.
  - simpl. eauto.
Qed.

(* ------------------------------------------------------------------ *)
(** * Behaviour of [run] *)

(** C3. When the flags of the node where resolution stops fail to parse
    (unknown flag, bad value, ...), [run] returns the custom error
    handler's result on the command path and the parse error, if the
    wrapper has one, and otherwise the error
    "Error: <parse error>\nSee '<command path> --help' for usage"; the
    node's action is not called (the result does not involve it). *)
Theorem run_parse_error sc f w ctx m c a app cmd a0 rest e m1 lg :
  getCli w c = Some (a, app) ->
  w_cmds w !! c = Some cmd ->
  c_subCommandsMap cmd !! a0 = None ->
  parseFlags sc (c_flags cmd) ctx m (commandPath w c) (a0 :: rest) = (PFErr e, m1, lg) ->
  run sc (S f) w ctx m c (a0 :: rest) =
  Some (Ret (match cli_errorHandler app with
             | Some h => h (commandPath w c) e
             | None => Some (EText ("Error: " ++ perr_msg e ++ nl ++ "See '" ++ commandPath w c
                                    ++ " --help' for usage"))
             end), lg, m1).
Proof.
  intros Ha Hc Hs Hp. rewrite run_S, Ha, Hc. cbv zeta. rewrite Hs, Hp.
  destruct (cli_errorHandler app); reflexivity.
Qed.

Lemma run_parse_error_witness :
  exists lg m1,
  run strconv_example 1 basic_world [] {| m_loc := []; m_ext := ∅ |} 0
      ["--ui"; "--fmt"; "json"; "--xxx"; "yyy"] =
  Some (Ret (Some (EText ("Error: flag provided but not defined: -xxx" ++ nl
                          ++ "See 'Basics --help' for usage"))), lg, m1).
Proof.
  do 2 eexists.
  erewrite (run_parse_error strconv_example 0 basic_world [] {| m_loc := []; m_ext := ∅ |} 0)
    by reflexivity.
  reflexivity.
Defined.

(** C5. When the flags parse and the synthesized help flag is set,
    [run] renders the node's help and returns nil; the action is not
    called. (Rendering needs a non-nil banner function: calling a nil
    one panics.) *)
Theorem run_help_flag sc f w ctx m c a app cmd a0 rest ctx1 m1 lg :
  getCli w c = Some (a, app) ->
  w_cmds w !! c = Some cmd ->
  cli_bannerFunction app <> BannerNil ->
  c_subCommandsMap cmd !! a0 = None ->
  parseFlags sc (c_flags cmd) ctx m (commandPath w c) (a0 :: rest) = (PFOk ctx1, m1, lg) ->
  HelpFlag ctx1 m1 = true ->
  exists lh, PrintHelp w c ctx1 m1 = Some lh /\
    run sc (S f) w ctx m c (a0 :: rest) = Some (Ret None, lg ++ lh, m1)%list.
Proof.
  intros Ha Hc Hb Hs Hp Hh.
  destruct (PrintHelp_some w c ctx1 m1 cmd Hc) as [lh Hlh].
  { intros a' app' Ha'. rewrite Ha in Ha'. congruence. }
  exists lh. split; [exact Hlh |].
  rewrite run_S, Ha, Hc. cbv zeta. rewrite Hs, Hp, Hh. simpl. rewrite Hlh. reflexivity.
Qed.

Lemma run_help_flag_witness :
  exists lh,
  run strconv_example 1 basic_world [] mem0 0 ["--help"] =
  Some (Ret None, lh, {| m_loc := [GString EmptyString; GBool true];
                         m_ext := <[ext_key KBool 7 := GBool false]> ∅ |}).
Proof.
  set (P := parseFlags strconv_example (c_flags (cmd_at basic_world 0)) [] mem0
              (commandPath basic_world 0) ["--help"]).
  edestruct (run_help_flag strconv_example 0 basic_world [] mem0 0
               (app_of basic_world 0).1 (app_of basic_world 0).2 (cmd_at basic_world 0)
               "--help" [] (pf_ctx P) P.1.2 P.2)
    as [lh [_ Hrun]];
    [vm_compute; reflexivity | vm_compute; reflexivity | vm_compute; discriminate
    | vm_compute; reflexivity | vm_compute; reflexivity | vm_compute; reflexivity |].
  eexists. rewrite Hrun. vm_compute. reflexivity.
Defined.

(** C6. With no action, a default command [d] of the wrapper other than
    this node, and an empty argument list, [run] is the run of [d] on
    the empty argument list (in the same scope). *)
Theorem run_default_command sc f w ctx m c a app cmd d :
  getCli w c = Some (a, app) ->
  w_cmds w !! c = Some cmd ->
  c_actionCallback cmd = None ->
  cli_defaultCommand app = Some d ->
  d <> c ->
  run sc (S f) w ctx m c [] = run sc f w ctx m d [].
Proof.
  intros Ha Hc Hact Hd Hne. rewrite run_S, Ha, Hc. cbv zeta. rewrite Hact, Hd.
  assert (Nat.eqb d c = false) as -> by (apply Nat.eqb_neq; exact Hne).
  simpl. destruct (run sc f w ctx m d []) as [[[r lg2] m2]|]; reflexivity.
Qed.

Lemma run_default_command_witness :
  run strconv_example 2 hello_world [] mem0 0 [] = run strconv_example 1 hello_world [] mem0 2 [] /\
  run strconv_example 1 hello_world [] mem0 2 [] =
  Some (Ret None, [(WOs, IText "This is default")], mem0).
Proof.
  split.
  - apply (run_default_command strconv_example 1 hello_world [] mem0 0
             (app_of hello_world 0).1 (app_of hello_world 0).2 (cmd_at hello_world 0) 2);
      vm_compute; first [reflexivity | discriminate].
  - vm_compute. reflexivity.
Defined.

(** C7. When resolution reaches a node without action (with no
    arguments, or after a successful parse without the help flag), the
    default-command fallback does not apply and no help handler is set,
    [run] renders the node's help and returns the sentinel [ErrHelp],
    which is not nil and differs from every other error [run] builds
    itself. (Rendering needs a non-nil banner function.) *)
Theorem run_help_sentinel sc f w ctx m c args a app cmd ctx1 m1 lg1 :
  getCli w c = Some (a, app) ->
  w_cmds w !! c = Some cmd ->
  ((args = [] /\ ctx1 = ctx /\ m1 = m /\ lg1 = []) \/
   (exists a0 rest, args = a0 :: rest /\ c_subCommandsMap cmd !! a0 = None /\
      parseFlags sc (c_flags cmd) ctx m (commandPath w c) args = (PFOk ctx1, m1, lg1) /\
      HelpFlag ctx1 m1 = false)) ->
  c_actionCallback cmd = None ->
  (cli_defaultCommand app = None \/ cli_defaultCommand app = Some c \/ args <> []) ->
  cli_helpHandler app = None ->
  cli_bannerFunction app <> BannerNil ->
  exists lh, PrintHelp w c ctx1 m1 = Some lh /\
    run sc (S f) w ctx m c args = Some (Ret (Some ErrHelp), lg1 ++ lh, m1)%list /\
    Some ErrHelp <> None /\ (forall s e, ErrHelp <> EText s /\ ErrHelp <> EParse e).
Proof.
  intros Ha Hc Hreach Hact Hdef Hhh Hb.
  destruct (PrintHelp_some w c ctx1 m1 cmd Hc) as [lh Hlh].
  { intros a' app' Ha'. rewrite Ha in Ha'. congruence. }
  exists lh. split; [exact Hlh |]. split; [| split; [discriminate | intros; split; discriminate]].
  assert (Hnd : match cli_defaultCommand app with
                | Some d => if negb (Nat.eqb d c) && Nat.eqb (length args) 0 then Some d else None
                | None => None
                end = None).
  { destruct Hdef as [-> | [-> | Hne]]; [reflexivity | |].
    - rewrite Nat.eqb_refl. reflexivity.
    - destruct (cli_defaultCommand app); [| reflexivity].
      destruct args; [congruence |]. rewrite andb_false_r. reflexivity. }
  rewrite run_S, Ha, Hc. cbv zeta.
  destruct Hreach as [[-> [-> [-> ->]]] | [a0 [rest [-> [Hs [Hp Hh]]]]]].
  - rewrite Hact. simpl in Hnd |- *. rewrite Hnd, Hhh, Hlh. reflexivity.
  - rewrite Hs, Hp, Hh, Hact. rewrite Hnd, Hhh, Hlh. reflexivity.
Qed.

Lemma run_help_sentinel_witness :
  run strconv_example 1 bare_world [] mem0 0 [] =
  Some (Ret (Some ErrHelp), [(WOs, IText ("App 1 - An app" ++ nl)); (WOs, IText nl);
                             (WOs, IText nl)], mem0).
Proof.
  edestruct (run_help_sentinel strconv_example 0 bare_world [] mem0 0 [] 
               (app_of bare_world 0).1 (app_of bare_world 0).2 (cmd_at bare_world 0) [] mem0 [])
    as [lh [Hlh [Hrun _]]];
    [vm_compute; reflexivity | vm_compute; reflexivity | left; repeat split
    | vm_compute; reflexivity | left; vm_compute; reflexivity | vm_compute; reflexivity
    | vm_compute; discriminate |].
  rewrite Hrun. vm_compute in Hlh. injection Hlh as <-. reflexivity.
Defined.

(** C1 (as the code does it). With an empty argument list, [run] parses
    no flags: the action is called with the incoming scope and memory
    unchanged. A scope without a flag-values layer (as the one of a
    top-level call) makes every accessor return its fallback, the help
    flag read false and [OtherArgs] return nil. *)
Theorem run_empty_args_no_parse sc f w ctx m c a app cmd act :
  getCli w c = Some (a, app) ->
  w_cmds w !! c = Some cmd ->
  c_actionCallback cmd = Some act ->
  run sc (S f) w ctx m c [] = Some (Ret (act ctx m).2, (act ctx m).1, m) /\
  (getFlagValues ctx = None ->
   forall name,
     (forall o, StringFlag ctx m name o = o) /\ (forall o, IntFlag ctx m name o = o) /\
     (forall o, FloatFlag ctx m name o = o) /\ (forall o, BoolFlag ctx m name o = o) /\
     HelpFlag ctx m = false /\ OtherArgs ctx = None).
Proof.
  intros Ha Hc Hact. split.
  - rewrite run_S, Ha, Hc. cbv zeta. rewrite Hact. destruct (act ctx m); reflexivity.
  - intros Hfv name.
    unfold StringFlag, IntFlag, FloatFlag, HelpFlag, BoolFlag, OtherArgs, getValuePointer.
    rewrite Hfv. repeat split.
Qed.

Lemma run_empty_args_no_parse_witness :
  run strconv_example 1 basic_world [] mem0 0 [] =
  Some (Ret None, [(WOs, IText "???"); (WOs, IText "ui=false")], mem0) /\
  StringFlag [] mem0 "fmt" "???" = "???".
Proof.
  destruct (run_empty_args_no_parse strconv_example 0 basic_world [] mem0 0
              (app_of basic_world 0).1 (app_of basic_world 0).2 (cmd_at basic_world 0)
              observe_action) as [Hrun Hacc];
    [vm_compute; reflexivity | vm_compute; reflexivity | vm_compute; reflexivity |].
  split.
  - rewrite Hrun. vm_compute. reflexivity.
  - apply (Hacc eq_refl "fmt").
Defined.

(** C1 as stated fails: after a zero-argument call, TestBasic's action
    reads the fallback "???" for [fmt], not its declared default, the empty string. *)
Lemma run_empty_args_reads_fallback :
  RunBuffer strconv_example 1 basic_world 0 [] 1 false [] ∅ =
  Some ([IText "???"; IText "ui=false"], Ret None, ∅) /\
  fp_value <$> (c_flags (cmd_at basic_world 0) !! "fmt") = Some (GString EmptyString) /\
  "???" <> EmptyString.
Proof. split; [vm_compute; reflexivity | split; [vm_compute; reflexivity | discriminate]]. Qed.

(* ------------------------------------------------------------------ *)
(** * Flag declarations *)

(** C8. Registering a flag name twice on a node leaves one declaration,
    the second: the node ends up exactly as if only the second
    registration had been made (so every later parse binds its default
    and storage), and no error is raised. *)
Theorem addFlag_last_wins w c name d1 v1 p1 d2 v2 p2 :
  (w1 ← cmd_addFlag w c name d1 v1 p1; cmd_addFlag w1 c name d2 v2 p2) =
  cmd_addFlag w c name d2 v2 p2 /\
  (forall w2, cmd_addFlag w c name d2 v2 p2 = Some w2 ->
   exists cmd, w_cmds w2 !! c = Some cmd /\
     c_flags cmd !! name =
     Some {| fp_name := name; fp_description := d2; fp_value := v2; fp_ptr := p2 |}).
Proof.
  unfold cmd_addFlag, update_cmd. split.
  - destruct (w_cmds w !! c) as [cmd|] eqn:Hc; [| reflexivity].
    simpl. rewrite lookup_insert_eq. simpl. unfold flagSet_addFlag, with_flags at 2.
    cbn [c_flags]. rewrite !insert_insert_eq. reflexivity.
  - intros w2 H. destruct (w_cmds w !! c) as [cmd|]; [| discriminate].
    injection H as <-. eexists. simpl. rewrite lookup_insert_eq. split; [reflexivity |].
    simpl. unfold flagSet_addFlag. apply lookup_insert_eq.
Qed.

(* ------------------------------------------------------------------ *)
(** * Children of a node: proofs *)

Lemma names_kept_child_name w w' x :
  names_kept w w' -> is_Some (w_cmds w !! x) -> child_name w' x = child_name w x.
Proof.
  intros Hk [cmd Hx]. destruct (Hk x cmd Hx) as [cmd' [Hx' Hn]].
  unfold child_name. rewrite Hx, Hx'. simpl. congruence.
Qed.

Lemma names_kept_last_named w w' n subs :
  names_kept w w' -> Forall (fun x => is_Some (w_cmds w !! x)) subs ->
  last_named w' n subs = last_named w n subs.
Proof.
  intros Hk. induction subs as [|x r IH]; intros Hall; [reflexivity |].
  inversion Hall as [|? ? Hx Hr]; subst. simpl. rewrite (IH Hr).
  rewrite (names_kept_child_name w w' x Hk Hx). reflexivity.
Qed.

Lemma names_kept_is_Some w w' x :
  names_kept w w' -> is_Some (w_cmds w !! x) -> is_Some (w_cmds w' !! x).
Proof. intros Hk [cmd Hx]. destruct (Hk x cmd Hx) as [cmd' [Hx' _]]. eauto. Qed.

Lemma last_named_snoc w n subs x :
  last_named w n (subs ++ [x]) =
  if decide (child_name w x = Some n) then Some x else last_named w n subs.
Proof.
  induction subs as [|y r IH]; simpl.
  - destruct (decide (child_name w x = Some n)); reflexivity.
  - rewrite IH. destruct (decide (child_name w x = Some n)); reflexivity.
Qed.

Lemma update_cmd_inv w c f w' :
  update_cmd w c f = Some w' ->
  exists cmd, w_cmds w !! c = Some cmd /\ w_cmds w' = <[c := f cmd]> (w_cmds w) /\
              w_clis w' = w_clis w.
Proof.
  unfold update_cmd. destruct (w_cmds w !! c) as [cmd|]; [| discriminate].
  intros [= <-]. eauto.
Qed.

Lemma names_kept_update w c f w' :
  update_cmd w c f = Some w' -> (forall cmd, c_name (f cmd) = c_name cmd) -> names_kept w w'.
Proof.
  intros Hu Hf. destruct (update_cmd_inv w c f w' Hu) as [cmd0 [Hc [Hw _]]].
  intros x cmd Hx. rewrite Hw. destruct (decide (x = c)) as [->|Hne].
  - rewrite lookup_insert_eq. eexists; split; [reflexivity |]. rewrite Hf. congruence.
  - rewrite lookup_insert_ne by congruence. eauto.
Qed.

(** Transfer of [children_ok] to a world whose nodes keep their child
    list and map, or are new and childless. *)
Lemma children_ok_transfer w w' :
  children_ok w -> names_kept w w' ->
  (forall x cmd', w_cmds w' !! x = Some cmd' ->
     (exists cmd, w_cmds w !! x = Some cmd /\ c_subCommands cmd' = c_subCommands cmd /\
                  c_subCommandsMap cmd' = c_subCommandsMap cmd) \/
     (c_subCommands cmd' = [] /\ c_subCommandsMap cmd' = ∅)) ->
  children_ok w'.
Proof.
  intros Hok Hk Hx x cmd' Hx'.
  destruct (Hx x cmd' Hx') as [[cmd [Hc [Hs Hm]]] | [Hs Hm]].
  - destruct (Hok x cmd Hc) as [Hall Hmap]. rewrite Hs, Hm. split.
    + eapply Forall_impl; [exact Hall |]. intros y Hy. eapply names_kept_is_Some; eauto.
    + intros n. rewrite Hmap. symmetry. apply names_kept_last_named; assumption.
  - rewrite Hs, Hm. split; [constructor |]. intros n. rewrite lookup_empty. reflexivity.
Qed.

Lemma children_ok_with_parent w x p w' :
  children_ok w -> update_cmd w x (with_parent p) = Some w' -> children_ok w' /\ names_kept w w'.
Proof.
  intros Hok Hu.
  assert (Hk : names_kept w w') by (eapply names_kept_update; [exact Hu | reflexivity]).
  split; [| exact Hk].
  apply (children_ok_transfer w w' Hok Hk).
  destruct (update_cmd_inv w x _ w' Hu) as [cmd0 [Hc [Hw _]]].
  intros y cmd' Hy. rewrite Hw in Hy. left.
  destruct (decide (y = x)) as [->|Hne].
  - rewrite lookup_insert_eq in Hy. injection Hy as <-. exists cmd0. auto.
  - rewrite lookup_insert_ne in Hy by congruence. exists cmd'. auto.
Qed.

Lemma children_ok_alloc w cmd :
  children_ok w -> c_subCommands cmd = [] -> c_subCommandsMap cmd = ∅ ->
  children_ok (alloc_cmd w cmd).1 /\ names_kept w (alloc_cmd w cmd).1.
Proof.
  intros Hok Hs Hm. unfold alloc_cmd. simpl.
  set (id := fresh (dom (w_cmds w))).
  assert (Hfresh : w_cmds w !! id = None).
  { apply not_elem_of_dom. apply is_fresh. }
  assert (Hk : names_kept w {| w_cmds := <[id:=cmd]> (w_cmds w); w_clis := w_clis w |}).
  { intros x c0 Hx. simpl. destruct (decide (x = id)) as [->|Hne]; [congruence |].
    rewrite lookup_insert_ne by congruence. eauto. }
  split; [| exact Hk].
  apply (children_ok_transfer _ _ Hok Hk). simpl. intros y cmd' Hy.
  destruct (decide (y = id)) as [->|Hne].
  - rewrite lookup_insert_eq in Hy. injection Hy as <-. right. auto.
  - rewrite lookup_insert_ne in Hy by congruence. left. exists cmd'. auto.
Qed.

Lemma children_ok_AddCommand w c child w' :
  children_ok w -> AddCommand w c child = Some w' -> children_ok w'.
Proof.
  intros Hok Hadd. unfold AddCommand in Hadd.
  destruct (w_cmds w !! child) as [chd|] eqn:Hch; [| discriminate].
  destruct (update_cmd w child (with_parent (Some c))) as [w1|] eqn:Hu1; [| discriminate].
  destruct (children_ok_with_parent w child (Some c) w1 Hok Hu1) as [Hok1 Hk1].
  assert (Hk2 : names_kept w1 w') by (eapply names_kept_update; [exact Hadd | reflexivity]).
  destruct (update_cmd_inv w1 c _ w' Hadd) as [cc [Hc1 [Hw' _]]].
  destruct (Hk1 child chd Hch) as [chd1 [Hch1 Hname1]].
  assert (Hcn : child_name w' child = Some (c_name chd)).
  { rewrite (names_kept_child_name w1 w' child Hk2) by (rewrite Hch1; eauto).
    unfold child_name. rewrite Hch1. simpl. congruence. }
  intros x cmd' Hx. rewrite Hw' in Hx.
  destruct (decide (x = c)) as [->|Hne].
  - rewrite lookup_insert_eq in Hx. injection Hx as <-. cbn.
    destruct (Hok1 c cc Hc1) as [Hall Hmap]. split.
    + apply Forall_app. split.
      * eapply Forall_impl; [exact Hall |]. intros y Hy. eapply names_kept_is_Some; eauto.
      * constructor; [| constructor]. rewrite Hw'.
        destruct (decide (child = c)) as [->|Hne'];
          [rewrite lookup_insert_eq; eauto | rewrite lookup_insert_ne by congruence; eauto].
    + intros n. rewrite last_named_snoc, Hcn.
      destruct (decide (Some (c_name chd) = Some n)) as [Heq|Hneq].
      * injection Heq as <-. apply lookup_insert_eq.
      * rewrite lookup_insert_ne by congruence. rewrite Hmap.
        symmetry. apply names_kept_last_named; assumption.
  - rewrite lookup_insert_ne in Hx by congruence.
    destruct (Hok1 x cmd' Hx) as [Hall Hmap]. split.
    + eapply Forall_impl; [exact Hall |]. intros y Hy. eapply names_kept_is_Some; eauto.
    + intros n. rewrite Hmap. symmetry. apply names_kept_last_named; assumption.
Qed.

Lemma children_ok_apply_op w op w' :
  children_ok w -> apply_op w op = Some w' -> children_ok w'.
Proof.
  intros Hok. destruct op as [c child | c name description]; simpl.
  - apply children_ok_AddCommand; assumption.
  - unfold NewSubCommand. destruct (alloc_cmd w (NewCommand name description)) as [w1 id] eqn:Ha.
    destruct (AddCommand w1 c id) as [w2|] eqn:Hadd; [| discriminate]. simpl.
    intros [= <-].
    destruct (children_ok_alloc w (NewCommand name description) Hok eq_refl eq_refl) as [Hok1 _].
    rewrite Ha in Hok1. eapply children_ok_AddCommand; eauto.
Qed.

Lemma cmd_at_some w c cc : w_cmds w !! c = Some cc -> cmd_at w c = cc.
Proof. intros H. unfold cmd_at. rewrite H. reflexivity. Qed.

Lemma AddCommand_spec w c child w' :
  AddCommand w c child = Some w' ->
  exists chd cc,
    w_cmds w !! child = Some chd /\ w_cmds w !! c = Some cc /\
    c_parent (cmd_at w' child) = Some c /\
    c_subCommands (cmd_at w' c) = (c_subCommands cc ++ [child])%list /\
    c_subCommandsMap (cmd_at w' c) = <[c_name chd := child]> (c_subCommandsMap cc) /\
    (forall y, y <> c -> c_subCommands (cmd_at w' y) = c_subCommands (cmd_at w y) /\
                         c_subCommandsMap (cmd_at w' y) = c_subCommandsMap (cmd_at w y)) /\
    (forall y, y <> child -> c_parent (cmd_at w' y) = c_parent (cmd_at w y)) /\
    (forall y, c_name (cmd_at w' y) = c_name (cmd_at w y)) /\
    (forall y, is_Some (w_cmds w' !! y) <-> is_Some (w_cmds w !! y)).
Proof.
  unfold AddCommand. destruct (w_cmds w !! child) as [chd|] eqn:Ech; [| discriminate].
  destruct (update_cmd w child (with_parent (Some c))) as [w1|] eqn:E1; [| discriminate].
  intros E2.
  destruct (update_cmd_inv _ _ _ _ E1) as [chd' [Ech' [Hw1 Hl1]]].
  rewrite Ech in Ech'. injection Ech' as <-.
  destruct (update_cmd_inv _ _ _ _ E2) as [cc1 [Ec1 [Hw2 Hl2]]].
  assert (Hcc : exists cc, w_cmds w !! c = Some cc /\
                  cc1 = if decide (c = child) then with_parent (Some c) cc else cc).
  { rewrite Hw1 in Ec1. destruct (decide (c = child)) as [->|Hne].
    - rewrite lookup_insert_eq in Ec1. injection Ec1 as <-. eauto.
    - rewrite lookup_insert_ne in Ec1 by congruence. eauto. }
  destruct Hcc as [cc [Ec Hcc1]].
  assert (Hsubs : c_subCommands cc1 = c_subCommands cc /\ c_subCommandsMap cc1 = c_subCommandsMap cc)
    by (destruct (decide (c = child)); subst cc1; split; reflexivity).
  exists chd, cc. split; [reflexivity |]. split; [exact Ec |].
  unfold cmd_at. rewrite !Hw2, !Hw1.
  split; [| split; [| split; [| split; [| split; [| split]]]]].
  - destruct (decide (child = c)) as [->|Hne].
    + rewrite lookup_insert_eq. simpl. destruct (decide (c = c)); [| congruence]. subst cc1. reflexivity.
    + rewrite lookup_insert_ne by congruence. rewrite lookup_insert_eq. reflexivity.
  - rewrite lookup_insert_eq. simpl. rewrite (proj1 Hsubs). reflexivity.
  - rewrite lookup_insert_eq. simpl. rewrite (proj2 Hsubs). reflexivity.
  - intros y Hy. rewrite lookup_insert_ne by congruence.
    destruct (decide (y = child)) as [->|Hyc].
    + rewrite lookup_insert_eq, Ech. split; reflexivity.
    + rewrite lookup_insert_ne by congruence. split; reflexivity.
  - intros y Hy. destruct (decide (y = c)) as [->|Hyc].
    + rewrite lookup_insert_eq, Ec. simpl. destruct (decide (c = child)); [congruence |].
      subst cc1. reflexivity.
    + rewrite lookup_insert_ne by congruence. rewrite lookup_insert_ne by congruence. reflexivity.
  - intros y. destruct (decide (y = c)) as [->|Hyc].
    + rewrite lookup_insert_eq, Ec. simpl. destruct (decide (c = child)); subst cc1; [|reflexivity].
      subst. rewrite Ech in Ec. injection Ec as ->. reflexivity.
    + rewrite lookup_insert_ne by congruence. destruct (decide (y = child)) as [->|Hych].
      * rewrite lookup_insert_eq, Ech. reflexivity.
      * rewrite lookup_insert_ne by congruence. reflexivity.
  - intros y. destruct (decide (y = c)) as [->|Hyc].
    + rewrite lookup_insert_eq, Ec. split; intros _; eexists; reflexivity.
    + rewrite lookup_insert_ne by congruence. destruct (decide (y = child)) as [->|Hych].
      * rewrite lookup_insert_eq, Ech. split; intros _; eexists; reflexivity.
      * rewrite lookup_insert_ne by congruence. reflexivity.
Qed.

Lemma NewSubCommand_spec w c name description w1 x :
  NewSubCommand w c name description = Some (w1, x) ->
  w_cmds w !! x = None /\
  c_subCommands (cmd_at w1 c) = (c_subCommands (cmd_at w c) ++ [x])%list /\
  c_subCommandsMap (cmd_at w1 c) = <[name := x]> (c_subCommandsMap (cmd_at w c)).
Proof.
  unfold NewSubCommand, alloc_cmd.
  set (id := fresh (dom (w_cmds w))).
  set (w0 := {| w_cmds := <[id := NewCommand name description]> (w_cmds w); w_clis := w_clis w |}).
  destruct (AddCommand w0 c id) as [w2|] eqn:Hadd; [| discriminate]. intros [= <- <-].
  assert (Hfresh : w_cmds w !! id = None).
  { apply not_elem_of_dom. apply is_fresh. }
  destruct (AddCommand_spec w0 c id w2 Hadd) as [chd [cc [Ech [Ec [_ [Hs [Hm _]]]]]]].
  cbn [w0 w_cmds] in Ech, Ec. rewrite lookup_insert_eq in Ech. injection Ech as <-.
  split; [exact Hfresh |]. rewrite Hs, Hm. cbn [c_name NewCommand].
  destruct (decide (c = id)) as [->|Hne].
  - rewrite lookup_insert_eq in Ec. injection Ec as <-.
    unfold cmd_at. rewrite Hfresh. split; reflexivity.
  - rewrite lookup_insert_ne in Ec by congruence. rewrite (cmd_at_some w c cc Ec).
    split; reflexivity.
Qed.

(** C9 (as the code does it). Names of children are not made unique.
    From nodes created childless (NewCommand, NewCli), after any
    sequence of AddCommand / NewSubCommand calls, the name map of every
    node agrees with its ordered child list: each name maps to the last
    listed child of that name, names of no listed child are unmapped,
    and every listed child exists. And from any such state, a further
    AddCommand (or NewSubCommand) appends the child to the node's list
    whatever its name, so an earlier child of the same name stays
    listed, and points the map entry of the child's name at the new
    child, whatever it pointed to before. *)
Theorem children_map_agrees w ops w' :
  (forall c cmd, w_cmds w !! c = Some cmd ->
     c_subCommands cmd = [] /\ c_subCommandsMap cmd = ∅) ->
  apply_ops w ops = Some w' ->
  children_ok w' /\
  (forall c child w1, AddCommand w' c child = Some w1 ->
     c_subCommands (cmd_at w1 c) = (c_subCommands (cmd_at w' c) ++ [child])%list /\
     c_subCommandsMap (cmd_at w1 c) =
       <[c_name (cmd_at w' child) := child]> (c_subCommandsMap (cmd_at w' c))) /\
  (forall c name description w1 x, NewSubCommand w' c name description = Some (w1, x) ->
     w_cmds w' !! x = None /\
     c_subCommands (cmd_at w1 c) = (c_subCommands (cmd_at w' c) ++ [x])%list /\
     c_subCommandsMap (cmd_at w1 c) = <[name := x]> (c_subCommandsMap (cmd_at w' c))).
Proof.
  intros Hfresh Hops. split; [| split].
  - assert (Hok : children_ok w).
    { intros c cmd Hc. destruct (Hfresh c cmd Hc) as [-> ->].
      split; [constructor | intros n; apply lookup_empty]. }
    clear Hfresh. revert w Hok Hops. induction ops as [|op r IH]; intros w Hok; simpl.
    + intros [= <-]. exact Hok.
    + destruct (apply_op w op) as [w1|] eqn:H1; [| discriminate]. simpl.
      apply IH. eapply children_ok_apply_op; eauto.
  - intros c child w1 Hadd.
    destruct (AddCommand_spec w' c child w1 Hadd) as [chd [cc [Ech [Ec [_ [Hs [Hm _]]]]]]].
    rewrite Hs, Hm, (cmd_at_some w' child chd Ech), (cmd_at_some w' c cc Ec). split; reflexivity.
  - intros c name description w1 x. apply NewSubCommand_spec.
Qed.

Lemma children_map_agrees_witness :
  (forall c cmd, w_cmds bare_world !! c = Some cmd ->
     c_subCommands cmd = [] /\ c_subCommandsMap cmd = ∅) /\
  (let w' := default bare_world
       (apply_ops bare_world [OpNewSubCommand 0 "x" "first"; OpNewSubCommand 0 "x" "second"]) in
   children_ok w' /\
   (forall c child w1, AddCommand w' c child = Some w1 ->
      c_subCommands (cmd_at w1 c) = (c_subCommands (cmd_at w' c) ++ [child])%list /\
      c_subCommandsMap (cmd_at w1 c) =
        <[c_name (cmd_at w' child) := child]> (c_subCommandsMap (cmd_at w' c))) /\
   (forall c name description w1 x, NewSubCommand w' c name description = Some (w1, x) ->
      w_cmds w' !! x = None /\
      c_subCommands (cmd_at w1 c) = (c_subCommands (cmd_at w' c) ++ [x])%list /\
      c_subCommandsMap (cmd_at w1 c) = <[name := x]> (c_subCommandsMap (cmd_at w' c)))).
Proof.
  assert (H : forall c cmd, w_cmds bare_world !! c = Some cmd ->
                c_subCommands cmd = [] /\ c_subCommandsMap cmd = ∅).
  { intros c cmd Hc.
    assert (Hw : w_cmds bare_world = {[0 := cmd_at bare_world 0]}) by (vm_compute; reflexivity).
    rewrite Hw in Hc. apply lookup_singleton_Some in Hc. destruct Hc as [_ <-].
    split; reflexivity. }
  split; [exact H |].
  apply (children_map_agrees bare_world
           [OpNewSubCommand 0 "x" "first"; OpNewSubCommand 0 "x" "second"]); [exact H |].
  vm_compute. reflexivity.
Defined.

(** C9 as stated fails: two children named "x" are both listed, and the
    first one is not reachable by its name. *)
Lemma children_names_not_unique :
  (fun w => (child_name w <$> c_subCommands (cmd_at w 0), c_subCommandsMap (cmd_at w 0) !! "x"))
    <$> apply_ops bare_world [OpNewSubCommand 0 "x" "first"; OpNewSubCommand 0 "x" "second"] =
  Some ([Some "x"; Some "x"], Some 2).
Proof. vm_compute. reflexivity. Qed.

(* ------------------------------------------------------------------ *)
(** * Cells and memory *)

Lemma ext_key_inj k1 k2 a1 a2 :
  ext_key k1 a1 = ext_key k2 a2 -> k1 = k2 /\ a1 = a2.
Proof. unfold ext_key. destruct k1, k2; simpl; intros H; split; try reflexivity; lia. Qed.

Lemma length_store m c v : length (m_loc (store m c v)) = length (m_loc m).
Proof. unfold store. destruct (c_at c); simpl; [apply length_insert | reflexivity]. Qed.

Lemma cell_valid_store m c c0 v : cell_valid (store m c v) c0 <-> cell_valid m c0.
Proof. unfold cell_valid. destruct (c_at c0); [rewrite length_store |]; tauto. Qed.

Lemma deref_store_same m c v : cell_valid m c -> deref (store m c v) c = v.
Proof.
  unfold cell_valid, deref, store. destruct c as [k [i|a]]; simpl; intros H.
  - rewrite list_lookup_insert_eq by exact H. reflexivity.
  - rewrite lookup_insert_eq. reflexivity.
Qed.

Lemma deref_store_other m c c0 v : cells_disjoint c0 c -> deref (store m c v) c0 = deref m c0.
Proof.
  unfold cells_disjoint, deref, store. destruct c as [k [i|a]], c0 as [k0 [i0|a0]]; simpl;
    intros H; try reflexivity.
  - rewrite list_lookup_insert_ne by congruence. reflexivity.
  - rewrite lookup_insert_ne by congruence. reflexivity.
Qed.

Lemma cells_disjoint_sym c1 c2 : cells_disjoint c1 c2 -> cells_disjoint c2 c1.
Proof. unfold cells_disjoint. destruct (c_at c1), (c_at c2); congruence. Qed.

(** [bind_cell]: the cell has the declared kind, is valid and holds the
    default value; cells valid before stay valid, and those of another
    kind are disjoint from it and keep their contents. *)
Lemma bind_cell_spec m k p v :
  let '(c, m') := bind_cell m k p v in
  c_kind c = k /\ cell_valid m' c /\ deref m' c = v /\
  (forall c0, cell_valid m c0 -> cell_valid m' c0) /\
  (forall c0, cell_valid m c0 -> c_kind c0 <> k ->
     cells_disjoint c0 c /\ deref m' c0 = deref m c0).
Proof.
  assert (Halloc : let '(c, m') := alloc m k v in
    c_kind c = k /\ cell_valid m' c /\ deref m' c = v /\
    (forall c0, cell_valid m c0 -> cell_valid m' c0) /\
    (forall c0, cell_valid m c0 -> c_kind c0 <> k ->
       cells_disjoint c0 c /\ deref m' c0 = deref m c0)).
  { unfold alloc, cell_valid, cells_disjoint, deref. simpl. rewrite length_app. simpl.
    split; [reflexivity |]. split; [lia |].
    split; [rewrite lookup_app_r, Nat.sub_diag by lia; reflexivity |].
    split; [intros [k0 [i0|a0]]; simpl; lia |].
    intros [k0 [i0|a0]]; simpl; intros Hv Hk; split; try lia; try reflexivity.
    rewrite lookup_app_l by exact Hv. reflexivity. }
  unfold bind_cell. destruct p as [|k'|k' a|]; try exact Halloc.
  destruct (kind_eqb k' k); [| exact Halloc].
  cbn -[deref store]. split; [reflexivity |]. split; [exact I |].
  split; [apply deref_store_same; exact I |].
  split; [intros c0; apply cell_valid_store |].
  intros c0 Hv Hk. assert (Hd : cells_disjoint c0 {| c_kind := k; c_at := LExt a |}).
  { unfold cells_disjoint. destruct c0 as [k0 [i0|a0]]; simpl; [exact I |].
    intros He. apply ext_key_inj in He. destruct He. simpl in Hk. congruence. }
  split; [exact Hd |]. apply deref_store_other. exact Hd.
Qed.

(** The run of TestBasic's argument list on a parser knowing [ui] and [fmt]. *)
Lemma parse_loop_basic sc fs m gu gf :
  fs_formal fs !! "ui" = Some gu -> c_kind (f_cell gu) = KBool ->
  fs_formal fs !! "fmt" = Some gf -> c_kind (f_cell gf) = KString ->
  parse_loop sc fs m ["--ui"; "--fmt"; "json"; "hello"; "--aaa"; "bbb"] =
  (["hello"; "--aaa"; "bbb"], store (store m (f_cell gu) (GBool true)) (f_cell gf) (GString "json"),
   [], None).
Proof.
  intros Hu Hku Hf Hkf. assert (H45 : ch 45 = Ascii.Ascii true false true true false true false false) by reflexivity. assert (H61 : ch 61 = Ascii.Ascii true false true true true true false false) by reflexivity. do 4 (cbn -[lookup store ch]; rewrite ?H45, ?H61). rewrite Hu, Hku. do 4 (cbn -[lookup store ch]; rewrite ?H45, ?H61). rewrite Hf, Hkf. do 4 (cbn -[lookup store ch]; rewrite ?H45, ?H61). reflexivity.
Qed.


(** [FlagSet.Var] on a fresh, acceptable name, and its inversion. *)
Lemma var_panic_none fs name :
  var_panic fs name = None <-> var_name_ok name = true /\ fs_formal fs !! name = None.
Proof.
  unfold var_panic, var_name_ok.
  destruct (char_at_is 0 name (ch 45)), (has_eq name); cbn; try (split; [discriminate | intros [? _]; discriminate]).
  destruct (fs_formal fs !! name); split; try discriminate; try (intros [_ ?]; discriminate); auto.
Qed.

Lemma fs_var_fresh fs c d name u :
  var_name_ok name = true -> fs_formal fs !! name = None ->
  fs_var fs c d name u =
  inl {| fs_name := fs_name fs;
         fs_formal := <[name := {| f_name := name; f_usage := u; f_cell := c; f_defvalue := d |}]>
                        (fs_formal fs);
         fs_args := fs_args fs; fs_output := fs_output fs |}.
Proof.
  intros H1 H2. unfold fs_var. rewrite (proj2 (var_panic_none fs name) (conj H1 H2)). reflexivity.
Qed.

Lemma fs_var_inl fs c d name u fs1 :
  fs_var fs c d name u = inl fs1 ->
  var_name_ok name = true /\ fs_formal fs !! name = None /\
  fs1 = {| fs_name := fs_name fs;
           fs_formal := <[name := {| f_name := name; f_usage := u; f_cell := c; f_defvalue := d |}]>
                          (fs_formal fs);
           fs_args := fs_args fs; fs_output := fs_output fs |}.
Proof.
  unfold fs_var. destruct (var_panic fs name) eqn:E; [discriminate |].
  intros [= <-]. apply var_panic_none in E. tauto.
Qed.

Lemma fs_var_inr fs c d name u lg :
  fs_var fs c d name u = inr lg ->
  exists it, var_panic fs name = Some it /\ lg = [(fs_output fs, it)].
Proof. unfold fs_var. destruct (var_panic fs name); [intros [= <-]; eauto | discriminate]. Qed.

Lemma fs_var_taken fs c d name u :
  fs_formal fs !! name <> None -> exists lg, fs_var fs c d name u = inr lg.
Proof.
  intros H. unfold fs_var. destruct (var_panic fs name) eqn:E; [eauto |].
  apply var_panic_none in E. tauto.
Qed.

Lemma fs_var_bad_name fs c d name u :
  var_name_ok name = false -> exists lg, fs_var fs c d name u = inr lg.
Proof.
  intros H. unfold fs_var. destruct (var_panic fs name) eqn:E; [eauto |].
  apply var_panic_none in E. destruct E as [E _]. congruence.
Qed.

Ltac fs_var_step :=
  match goal with
  | |- context [fs_var ?fs ?c ?d ?n ?u] =>
      rewrite (fs_var_fresh fs c d n u);
      [| reflexivity
       | cbn [fs_formal new_flagset set_output];
         rewrite ?lookup_insert_ne, ?lookup_empty by discriminate; reflexivity]
  end.

Lemma alloc_spec m k v :
  let '(c, m') := alloc m k v in
  c_kind c = k /\ cell_valid m' c /\ deref m' c = v /\
  (forall c0, cell_valid m c0 -> cell_valid m' c0) /\
  (forall c0, cell_valid m c0 -> cells_disjoint c0 c /\ deref m' c0 = deref m c0).
Proof.
  unfold alloc, cell_valid, cells_disjoint, deref. simpl. rewrite length_app. simpl.
  split; [reflexivity |]. split; [lia |].
  split; [rewrite lookup_app_r, Nat.sub_diag by lia; reflexivity |].
  split; [intros [k0 [i0|a0]]; simpl; lia |].
  intros [k0 [i0|a0]]; simpl; intros Hv; split; try lia; try reflexivity.
  rewrite lookup_app_l by exact Hv. reflexivity.
Qed.

Lemma parseFlags_basic sc ctx m path du df pu pf :
  exists ctx1 m1,
    parseFlags sc (basic_flags du df pu pf) ctx m path ["--ui"; "--fmt"; "json"; "hello"; "--aaa"; "bbb"] =
    (PFOk ctx1, m1, []) /\
    BoolFlag ctx1 m1 "ui" false = true /\ (forall o, StringFlag ctx1 m1 "fmt" o = "json") /\
    OtherArgs ctx1 = Some ["hello"; "--aaa"; "bbb"] /\ HelpFlag ctx1 m1 = false.
Proof.
  unfold parseFlags.
  assert (Hl : snd <$> map_to_list (basic_flags du df pu pf) =
    [{| fp_name := "ui"; fp_description := du; fp_value := GBool false; fp_ptr := pu |};
     {| fp_name := "fmt"; fp_description := df; fp_value := GString EmptyString; fp_ptr := pf |}])
    by (vm_compute; reflexivity).
  rewrite Hl. cbn [bind_protos proto_addFlag kind_of fp_value fp_ptr fp_name fp_description].
  pose proof (bind_cell_spec m KBool pu (GBool false)) as Su.
  destruct (bind_cell m KBool pu (GBool false)) as [cu m1] eqn:Eu.
  destruct Su as [Kcu [Vcu [Dcu [Pu Ou]]]].
  fs_var_step.
  pose proof (bind_cell_spec m1 KString pf (GString EmptyString)) as Sf.
  destruct (bind_cell m1 KString pf (GString EmptyString)) as [cf m2] eqn:Ef.
  destruct Sf as [Kcf [Vcf [Dcf [Pf Of]]]].
  fs_var_step. cbn [fs_formal fs_name fs_args fs_output].
  pose proof (alloc_spec m2 KBool (GBool false)) as Sh.
  destruct (alloc m2 KBool (GBool false)) as [hc m3] eqn:Eh.
  destruct Sh as [Khc [Vhc [Dhc [Ph Oh]]]].
  fs_var_step. unfold fs_parse.
  erewrite (parse_loop_basic sc _ _
    {| f_name := "ui"; f_usage := du; f_cell := cu; f_defvalue := GBool false |}
    {| f_name := "fmt"; f_usage := df; f_cell := cf; f_defvalue := GString EmptyString |}).
  2: { cbn [fs_formal set_output]. rewrite lookup_insert_ne by discriminate.
        rewrite lookup_insert_ne by discriminate. rewrite lookup_insert_eq. reflexivity. }
  2: { exact Kcu. }
 
  2: { cbn [fs_formal set_output]. rewrite lookup_insert_ne by discriminate. rewrite lookup_insert_eq. reflexivity. }
  2: { exact Kcf. }
 
  cbn [fs_formal set_output f_cell].
  do 2 eexists. split; [reflexivity |].
  assert (Hd_uf : cells_disjoint cu cf) by (apply (Of cu); [exact Vcu | congruence]).
  assert (Vcu3 : cell_valid m3 cu) by (apply Ph, Pf, Vcu).
  assert (Vcf3 : cell_valid m3 cf) by (apply Ph, Vcf).
  destruct (Oh cu (Pf cu Vcu)) as [Hd_uh _].
  destruct (Oh cf Vcf) as [Hd_fh _].
  unfold BoolFlag, StringFlag, HelpFlag, OtherArgs, getValuePointer, getFlagValues.
  cbn [ctx_value with_value fv_values fv_flags fs_args set_args]. rewrite String.eqb_refl.
  cbn [fv_values fv_flags fs_args set_args].
  split; [| split; [| split]].
  - rewrite lookup_insert_ne by discriminate. rewrite lookup_insert_ne by discriminate.
    rewrite lookup_insert_eq, Kcu. cbn [kind_eqb].
    rewrite deref_store_other by exact Hd_uf. rewrite deref_store_same by exact Vcu3. reflexivity.
  - intros o. rewrite lookup_insert_ne by discriminate. rewrite lookup_insert_eq, Kcf. cbn [kind_eqb].
    rewrite deref_store_same by (apply cell_valid_store; exact Vcf3). reflexivity.
  - reflexivity.
  - unfold BoolFlag, getValuePointer, getFlagValues.
    cbn [ctx_value with_value fv_values]. rewrite String.eqb_refl. cbn [fv_values].
    rewrite lookup_insert_eq, Khc. cbn [kind_eqb].
    rewrite !deref_store_other by (apply cells_disjoint_sym; assumption).
    rewrite Dhc. reflexivity.
Qed.

(** C4 (as the code does it). Take a node of an application whose flag
    schema is exactly [ui] (bool, default false) and [fmt] (text, default
    the empty string), with any descriptions and storage pointers, and
    that has an action, and run it on
    ["--ui";"--fmt";"json";"hello";"--aaa";"bbb"]. The subcommand lookup
    uses the first argument, whatever it looks like: if the node has a
    child named "--ui", the run is the child's run on the remaining
    arguments. Otherwise (a child named "hello" makes no difference)
    parsing succeeds silently: [ui] reads true, [fmt] reads "json",
    OtherArgs is exactly ["hello";"--aaa";"bbb"], the help flag is
    unset, and [run] returns what the action returns on that scope. *)
Theorem run_basic_args sc f w ctx m c a app cmd du df pu pf act :
  getCli w c = Some (a, app) ->
  w_cmds w !! c = Some cmd ->
  c_flags cmd = basic_flags du df pu pf ->
  c_actionCallback cmd = Some act ->
  match c_subCommandsMap cmd !! "--ui" with
  | Some child =>
      run sc (S f) w ctx m c ["--ui"; "--fmt"; "json"; "hello"; "--aaa"; "bbb"] =
      run sc f w ctx m child ["--fmt"; "json"; "hello"; "--aaa"; "bbb"]
  | None =>
      exists ctx1 m1,
        BoolFlag ctx1 m1 "ui" false = true /\ (forall o, StringFlag ctx1 m1 "fmt" o = "json") /\
        OtherArgs ctx1 = Some ["hello"; "--aaa"; "bbb"] /\ HelpFlag ctx1 m1 = false /\
        run sc (S f) w ctx m c ["--ui"; "--fmt"; "json"; "hello"; "--aaa"; "bbb"] =
        Some (Ret (act ctx1 m1).2, (act ctx1 m1).1, m1)
  end.
Proof.
  intros Ha Hc Hf Hact.
  destruct (c_subCommandsMap cmd !! "--ui") as [child|] eqn:Hs.
  - rewrite run_S, Ha, Hc. cbv zeta. rewrite Hs. reflexivity.
  - destruct (parseFlags_basic sc ctx m (commandPath w c) du df pu pf)
      as [ctx1 [m1 [Hp [H1 [H2 [H3 H4]]]]]].
    exists ctx1, m1. split; [exact H1 |]. split; [exact H2 |]. split; [exact H3 |].
    split; [exact H4 |].
    rewrite run_S, Ha, Hc. cbv zeta. rewrite Hs, Hf, Hp, H4, Hact.
    destruct (act ctx1 m1) as [lg e]. reflexivity.
Qed.

Lemma run_basic_args_witness :
  match c_subCommandsMap (cmd_at basic_world 0) !! "--ui" with
  | Some child =>
      run strconv_example 1 basic_world [] mem0 0 ["--ui"; "--fmt"; "json"; "hello"; "--aaa"; "bbb"] =
      run strconv_example 0 basic_world [] mem0 child ["--fmt"; "json"; "hello"; "--aaa"; "bbb"]
  | None =>
      exists ctx1 m1,
        BoolFlag ctx1 m1 "ui" false = true /\ (forall o, StringFlag ctx1 m1 "fmt" o = "json") /\
        OtherArgs ctx1 = Some ["hello"; "--aaa"; "bbb"] /\ HelpFlag ctx1 m1 = false /\
        run strconv_example 1 basic_world [] mem0 0 ["--ui"; "--fmt"; "json"; "hello"; "--aaa"; "bbb"] =
        Some (Ret (observe_action ctx1 m1).2, (observe_action ctx1 m1).1, m1)
  end /\
  match c_subCommandsMap (cmd_at basic_world_dash_ui 0) !! "--ui" with
  | Some child =>
      run strconv_example 1 basic_world_dash_ui [] mem0 0
        ["--ui"; "--fmt"; "json"; "hello"; "--aaa"; "bbb"] =
      run strconv_example 0 basic_world_dash_ui [] mem0 child ["--fmt"; "json"; "hello"; "--aaa"; "bbb"]
  | None =>
      exists ctx1 m1,
        BoolFlag ctx1 m1 "ui" false = true /\ (forall o, StringFlag ctx1 m1 "fmt" o = "json") /\
        OtherArgs ctx1 = Some ["hello"; "--aaa"; "bbb"] /\ HelpFlag ctx1 m1 = false /\
        run strconv_example 1 basic_world_dash_ui [] mem0 0
          ["--ui"; "--fmt"; "json"; "hello"; "--aaa"; "bbb"] =
        Some (Ret (observe_action ctx1 m1).2, (observe_action ctx1 m1).1, m1)
  end.
Proof.
  split.
  - apply (run_basic_args strconv_example 0 basic_world [] mem0 0
             (app_of basic_world 0).1 (app_of basic_world 0).2 (cmd_at basic_world 0)
             "Interactive" "Format" (PtrTo KBool 7) PtrNone observe_action);
      vm_compute; reflexivity.
  - apply (run_basic_args strconv_example 0 basic_world_dash_ui [] mem0 0
             (app_of basic_world_dash_ui 0).1 (app_of basic_world_dash_ui 0).2
             (cmd_at basic_world_dash_ui 0)
             "Interactive" "Format" (PtrTo KBool 7) PtrNone observe_action);
      vm_compute; reflexivity.
Defined.

(** C4 as stated fails: the root has the [ui]/[fmt] schema and no child
    named [hello], yet the run goes to the child "--ui", which knows no
    [fmt] flag, and fails without running the root's action. *)
Lemma run_basic_args_dash_child :
  (fun r => r.1.1) <$>
    run strconv_example 2 basic_world_dash_ui [] mem0 0
      ["--ui"; "--fmt"; "json"; "hello"; "--aaa"; "bbb"] =
  Some (Ret (Some (EText (parse_error_text (PUndefined "fmt") "Basics --ui")))).
Proof. vm_compute. reflexivity. Qed.

(* ------------------------------------------------------------------ *)
(** * Declarations of an unsupported type *)

(** Binding declarations with distinct names that the parser does not
    know yet, every supported one with a name Var accepts, succeeds, and leaves the parser and the cell map unchanged
    at every name declared only with unsupported values. *)
Lemma bind_protos_spec ps fs vals m :
  NoDup (fp_name <$> ps) ->
  (forall p, p ∈ ps -> fs_formal fs !! fp_name p = None) ->
  (forall p, p ∈ ps -> kind_of (fp_value p) <> None -> var_name_ok (fp_name p) = true) ->
  exists fs' vals' m', bind_protos ps fs vals m = inl (fs', vals', m') /\
    forall x, (forall p, p ∈ ps -> fp_name p = x -> kind_of (fp_value p) = None) ->
      fs_formal fs' !! x = fs_formal fs !! x /\ vals' !! x = vals !! x.
Proof.
  revert fs vals m. induction ps as [|p r IH]; intros fs vals m Hnd Hfree Hok; simpl.
  - do 3 eexists. split; [reflexivity |]. auto.
  - rewrite fmap_cons in Hnd. apply NoDup_cons in Hnd as [Hnotin Hnd].
    assert (Hfree_r : forall q, q ∈ r -> fs_formal fs !! fp_name q = None)
      by (intros q Hq; apply Hfree; set_solver).
    assert (Hok_r : forall q, q ∈ r -> kind_of (fp_value q) <> None -> var_name_ok (fp_name q) = true)
      by (intros q Hq; apply Hok; set_solver).
    unfold proto_addFlag. destruct (kind_of (fp_value p)) as [k|] eqn:Hk.
    + destruct (bind_cell m k (fp_ptr p) (fp_value p)) as [c m1].
      rewrite fs_var_fresh
        by first [apply Hok; [set_solver | rewrite Hk; discriminate] | apply Hfree; set_solver].
      set (fs1 := {| fs_name := fs_name fs; fs_formal := _; fs_args := _; fs_output := _ |}).
      destruct (IH fs1 (<[fp_name p := c]> vals) m1 Hnd) as [fs' [vals' [m' [Hb Hx]]]].
      { intros q Hq. simpl. rewrite lookup_insert_ne.
        - apply Hfree_r, Hq.
        - intros He. apply Hnotin. rewrite He. apply list_elem_of_fmap_2, Hq. }
      { exact Hok_r. }
      exists fs', vals', m'. split; [exact Hb |].
      intros x Hxu. assert (Hne : fp_name p <> x).
      { intros <-. rewrite (Hxu p) in Hk by (set_solver || reflexivity). discriminate. }
      destruct (Hx x) as [H1 H2]; [intros q Hq; apply Hxu; set_solver |].
      rewrite H1, H2. simpl. rewrite !lookup_insert_ne by exact Hne. auto.
    + destruct (IH fs vals m Hnd Hfree_r Hok_r) as [fs' [vals' [m' [Hb Hx]]]].
      exists fs', vals', m'. split; [exact Hb |].
      intros x Hxu. apply Hx. intros q Hq. apply Hxu. set_solver.
Qed.

Ltac fs_var_inl_in H :=
  match type of H with
  | context [fs_var ?fs ?c ?d ?n ?u] =>
      let E := fresh "Hv" in
      destruct (fs_var fs c d n u) eqn:E;
      [apply fs_var_inl in E as [_ [_ ->]] | simpl in H; discriminate H]
  end.


Lemma protos_names (fs : flagSet) :
  map_Forall (fun k p => fp_name p = k) fs ->
  fp_name <$> (snd <$> map_to_list fs) = fst <$> map_to_list fs.
Proof.
  intros Hf. rewrite <- list_fmap_compose. apply list_fmap_ext.
  intros i [k p] Hi. simpl. apply (Hf k p). apply elem_of_map_to_list.
  eapply list_elem_of_lookup_2. exact Hi.
Qed.

Lemma protos_elem (fs : flagSet) p :
  p ∈ snd <$> map_to_list fs -> exists k, fs !! k = Some p.
Proof.
  intros Hp. apply list_elem_of_fmap_1 in Hp as [[k q] [-> Hkq]].
  apply elem_of_map_to_list in Hkq. exists k. exact Hkq.
Qed.





(** Binding a well-formed schema whose supported declarations have
    names Var accepts never panics. *)
Lemma bind_protos_wf (fs : flagSet) path m :
  flagSet_wf fs -> names_ok fs ->
  exists flags vals m1,
    bind_protos (snd <$> map_to_list fs) (new_flagset path) ∅ m = inl (flags, vals, m1).
Proof.
  intros Hwf Hok.
  destruct (bind_protos_spec (snd <$> map_to_list fs) (new_flagset path) ∅ m)
    as [flags [vals [m1 [Hb _]]]].
  { rewrite protos_names by exact Hwf. apply NoDup_fst_map_to_list. }
  { intros p _. apply lookup_empty. }
  { intros p Hp. destruct (protos_elem fs p Hp) as [k Hkp]. exact (Hok k p Hkp). }
  eauto.
Qed.







(* ------------------------------------------------------------------ *)
(** * Runs without external storage leave the shared store alone *)

Lemma store_fresh_ext m c v : (exists i, c_at c = LFresh i) -> m_ext (store m c v) = m_ext m.
Proof. intros [i Hi]. unfold store. rewrite Hi. reflexivity. Qed.

Lemma alloc_ext m k v : m_ext (alloc m k v).2 = m_ext m /\ exists i, c_at (alloc m k v).1 = LFresh i.
Proof. split; [reflexivity | eexists; reflexivity]. Qed.

Lemma parse_loop_ext sc fs m args :
  fresh_cells fs -> m_ext (parse_loop sc fs m args).1.1.2 = m_ext m.
Proof.
  intros Hf. assert (Hn : length args <= length args) by lia.
  revert Hn. generalize (length args) at 2. intros n. revert args m.
  induction n as [|n IH]; intros [|s rest] m Hn; try reflexivity; [simpl in Hn; lia |].
  simpl in Hn. cbn [parse_loop].
  repeat case_match; simplify_eq/=; try reflexivity;
    repeat match goal with
    | H : fs_formal fs !! _ = Some ?fl |- _ =>
        let i := fresh "i" in let Hi := fresh "Hi" in
        destruct (Hf _ _ H) as [i Hi]; clear H
    end;
    repeat first
      [ rewrite IH by (simpl in *; lia)
      | rewrite store_fresh_ext by (eexists; eassumption)
      | reflexivity ].
Qed.

Lemma bind_cell_no_ext m k p v : has_ext_storage p = false -> bind_cell m k p v = alloc m k v.
Proof. destruct p; simpl; congruence. Qed.

Lemma bind_protos_ext ps fs vals m :
  Forall (fun p => has_ext_storage (fp_ptr p) = false) ps -> fresh_cells fs ->
  match bind_protos ps fs vals m with
  | inl (fs', _, m') => m_ext m' = m_ext m /\ fresh_cells fs'
  | inr (_, m') => m_ext m' = m_ext m
  end.
Proof.
  revert fs vals m. induction ps as [|p r IH]; intros fs vals m Hps Hf; simpl; [auto |].
  apply Forall_cons in Hps as [Hp Hr]. unfold proto_addFlag.
  destruct (kind_of (fp_value p)) as [k|].
  - rewrite bind_cell_no_ext by exact Hp.
    destruct (alloc_ext m k (fp_value p)) as [He [i Hi]].
    destruct (alloc m k (fp_value p)) as [c m1]. simpl in He, Hi.
    destruct (fs_var fs c (fp_value p) (fp_name p) (fp_description p)) as [fs1|lg] eqn:Hv.
    + apply fs_var_inl in Hv as [_ [_ ->]]. cbn iota.
      assert (Hf1 : fresh_cells
        {| fs_name := fs_name fs;
           fs_formal := <[fp_name p := {| f_name := fp_name p; f_usage := fp_description p;
                                          f_cell := c; f_defvalue := fp_value p |}]> (fs_formal fs);
           fs_args := fs_args fs; fs_output := fs_output fs |}).
      { unfold fresh_cells. simpl. apply map_Forall_insert_2; [exists i; exact Hi | exact Hf]. }
      specialize (IH _ (<[fp_name p := c]> vals) m1 Hr Hf1).
      destruct (bind_protos r _ _ m1) as [[[fs' vals'] m']|[lg' m']].
      * destruct IH as [He' Hf']. split; [congruence | exact Hf'].
      * congruence.
    + exact He.
  - cbn iota. apply IH; assumption.
Qed.

Lemma parseFlags_ext sc (fs : flagSet) ctx m path args r m' lg :
  map_Forall (fun _ p => has_ext_storage (fp_ptr p) = false) fs ->
  parseFlags sc fs ctx m path args = (r, m', lg) -> m_ext m' = m_ext m.
Proof.
  intros Hfs Hp. unfold parseFlags in Hp.
  assert (Hl : Forall (fun p => has_ext_storage (fp_ptr p) = false) (snd <$> map_to_list fs)).
  { apply Forall_fmap. apply map_Forall_to_list in Hfs.
    eapply Forall_impl; [exact Hfs |]. intros [k p]. simpl. auto. }
  pose proof (bind_protos_ext _ (new_flagset path) ∅ m Hl (map_Forall_empty _)) as He.
  destruct (bind_protos _ _ _ m) as [[[flags vals] m1]|[lg1 m1]] eqn:Hb;
    [| injection Hp as _ <- _; exact He].
  destruct He as [He1 Hf1].
  destruct (alloc_ext m1 KBool (GBool false)) as [He2 [i Hi]].
  destruct (alloc m1 KBool (GBool false)) as [hc m2]. simpl in He2, Hi.
  destruct (fs_var flags hc (GBool false) "help" (help_usage path)) as [fl1|lg2] eqn:Hv;
    [| injection Hp as _ <- _; congruence].
  apply fs_var_inl in Hv as [_ [_ ->]].
  unfold fs_parse in Hp.
  pose proof (parse_loop_ext sc
    (set_output {| fs_name := fs_name flags;
                   fs_formal := <["help" := {| f_name := "help"; f_usage := help_usage path;
                                               f_cell := hc; f_defvalue := GBool false |}]>
                                  (fs_formal flags);
                   fs_args := fs_args flags; fs_output := fs_output flags |} (Stdout ctx))
    m2 args) as Hpl.
  destruct (parse_loop _ _ m2 args) as [[[rest m3] lg3] e].
  simpl in Hpl. rewrite <- He1, <- He2, <- Hpl.
  - destruct e; injection Hp as _ <- _; reflexivity.
  - unfold fresh_cells. simpl. apply map_Forall_insert_2; [exists i; exact Hi | exact Hf1].
Qed.

Lemma run_ext sc fuel w ctx m c args r lg m' :
  no_ext_storage w -> run sc fuel w ctx m c args = Some (r, lg, m') -> m_ext m' = m_ext m.
Proof.
  intros Hw. revert ctx m c args r lg m'.
  induction fuel as [|f IH]; intros ctx m c args r lg m' Hrun; [discriminate |].
  rewrite run_S in Hrun. cbv zeta in Hrun.
  destruct (getCli w c) as [[a app]|]; [| injection Hrun as _ _ <-; reflexivity].
  destruct (w_cmds w !! c) as [cmd|] eqn:Hc; [| injection Hrun as _ _ <-; reflexivity].
  destruct args as [|a0 rest].
  - unfold help_or_panic in Hrun. repeat (case_match; simplify_eq/=); try reflexivity.
    all: match goal with H : run _ _ _ _ _ _ _ = Some _ |- _ => eapply IH; exact H end.
  - destruct (c_subCommandsMap cmd !! a0) as [sub|]; [eapply IH; exact Hrun |].
    destruct (parseFlags sc (c_flags cmd) ctx m (commandPath w c) (a0 :: rest))
      as [[pr m1] lg1] eqn:Hp.
    assert (He : m_ext m1 = m_ext m) by (eapply parseFlags_ext; [apply (Hw c cmd Hc) | exact Hp]).
    rewrite <- He. clear Hp He.
    unfold help_or_panic in Hrun. repeat (case_match; simplify_eq/=); try reflexivity.
    all: match goal with H : run _ _ _ _ _ _ _ = Some _ |- _ => eapply IH; exact H end.
Qed.

Lemma Cli_Run_ext sc fuel w a ctx m args r lg m' :
  no_ext_storage w -> Cli_Run sc fuel w a ctx m args = Some (r, lg, m') -> m_ext m' = m_ext m.
Proof.
  intros Hw H. unfold Cli_Run in H.
  destruct (w_clis w !! a) as [app|]; [| injection H as _ _ <-; reflexivity].
  destruct (cli_preRunCommand app) as [pre|]; [| eapply run_ext; eassumption].
  destruct (pre ctx m) as [lg0 [e|]]; [injection H as _ _ <-; reflexivity |].
  destruct (run sc fuel w ctx m (cli_rootCommand app) args) as [[[r1 lg1] m1]|] eqn:Hr;
    [| discriminate].
  injection H as _ _ <-. eapply run_ext; eassumption.
Qed.

(** C2. When no flag of the configuration has external storage, a
    buffered run never changes the store shared between calls (the
    cells it writes are the ones it allocates itself). Hence two
    RunBuffer calls on the same configuration do not interfere: a call
    made after another one returns exactly what it returns on its own,
    its captured output and its result (which take in everything its
    action observes) depending only on its own context and arguments. *)
Theorem RunBuffer_no_interference sc fA fB w a ctxA bA pjA argsA ctxB bB pjB argsB g
    oA rA gA :
  no_ext_storage w ->
  RunBuffer sc fA w a ctxA bA pjA argsA g = Some (oA, rA, gA) ->
  gA = g /\
  RunBuffer sc fB w a ctxB bB pjB argsB gA = RunBuffer sc fB w a ctxB bB pjB argsB g.
Proof.
  intros Hw H. unfold RunBuffer in H.
  destruct (Cli_Run _ _ _ _ _ _ argsA) as [[[r lg] m1]|] eqn:Hr; [| discriminate].
  injection H as _ _ <-. apply Cli_Run_ext in Hr; [| exact Hw].
  simpl in Hr. rewrite Hr. split; reflexivity.
Qed.

Lemma RunBuffer_no_interference_witness :
  no_ext_storage hello_world /\
  RunBuffer strconv_example 3 hello_world 0 [] 1 false ["hello"; "--name"; "A"] ∅ =
    Some ([IText "Hello A"], Ret None, ∅) /\
  (∅ = (∅ : gmap Z gval) /\
   RunBuffer strconv_example 3 hello_world 0 [] 2 false [] ∅ =
   RunBuffer strconv_example 3 hello_world 0 [] 2 false [] ∅).
Proof.
  assert (Hw : no_ext_storage hello_world)
    by (unfold no_ext_storage; apply (bool_decide_unpack _); vm_compute; reflexivity).
  assert (Ha : RunBuffer strconv_example 3 hello_world 0 [] 1 false ["hello"; "--name"; "A"] ∅ =
               Some ([IText "Hello A"], Ret None, ∅)) by (vm_compute; reflexivity).
  split; [exact Hw |]. split; [exact Ha |].
  exact (RunBuffer_no_interference strconv_example 3 3 hello_world 0 [] 1 false
           ["hello"; "--name"; "A"] [] 2 false [] ∅ [IText "Hello A"] (Ret None) ∅ Hw Ha).
Defined.

(* ------------------------------------------------------------------ *)
(** * Parsing, configuration and help output *)

Lemma bind_protos_keys ps fs vals m fs' vals' m' :
  bind_protos ps fs vals m = inl (fs', vals', m') ->
  forall x,
    (is_Some (fs_formal fs' !! x) <->
       is_Some (fs_formal fs !! x) \/
       exists p, p ∈ ps /\ fp_name p = x /\ kind_of (fp_value p) <> None) /\
    (is_Some (vals' !! x) <->
       is_Some (vals !! x) \/
       exists p, p ∈ ps /\ fp_name p = x /\ kind_of (fp_value p) <> None) /\
    fs_name fs' = fs_name fs /\ fs_output fs' = fs_output fs /\ fs_args fs' = fs_args fs.
Proof.
  revert fs vals m. induction ps as [|p r IH]; intros fs vals m Hb x; simpl in Hb.
  - injection Hb as <- <- <-. split; [| split]; [split; [auto | intros [H|[p [Hp _]]]; [exact H | set_solver]] .. | auto].
  - unfold proto_addFlag in Hb. destruct (kind_of (fp_value p)) as [k|] eqn:Hk.
    + destruct (bind_cell m k (fp_ptr p) (fp_value p)) as [c m1].
      fs_var_inl_in Hb.
      destruct (IH _ _ _ Hb x) as [H1 [H2 [H3 [H4 H5]]]]. simpl in H1, H2, H3, H4, H5.
      split; [| split; [| auto]].
      * rewrite H1. destruct (decide (fp_name p = x)) as [<-|Hne].
        -- rewrite lookup_insert_eq. split; [intros _; right; exists p; split; [set_solver | rewrite Hk; split; [reflexivity | discriminate]] | intros _; left; eexists; reflexivity].
        -- rewrite lookup_insert_ne by exact Hne. split.
           ++ intros [H|[q [Hq Hq']]]; [left; exact H | right; exists q; split; [set_solver | exact Hq']].
           ++ intros [H|[q [Hq Hq']]]; [left; exact H |].
              apply elem_of_cons in Hq as [->|Hq]; [destruct Hq'; congruence |].
              right; exists q; auto.
      * rewrite H2. destruct (decide (fp_name p = x)) as [<-|Hne].
        -- rewrite lookup_insert_eq. split; [intros _; right; exists p; split; [set_solver | rewrite Hk; split; [reflexivity | discriminate]] | intros _; left; eexists; reflexivity].
        -- rewrite lookup_insert_ne by exact Hne. split.
           ++ intros [H|[q [Hq Hq']]]; [left; exact H | right; exists q; split; [set_solver | exact Hq']].
           ++ intros [H|[q [Hq Hq']]]; [left; exact H |].
              apply elem_of_cons in Hq as [->|Hq]; [destruct Hq'; congruence |].
              right; exists q; auto.
    + destruct (IH _ _ _ Hb x) as [H1 [H2 H3]]. split; [| split; [| exact H3]].
      * rewrite H1. split.
        -- intros [H|[q [Hq Hq']]]; [left; exact H | right; exists q; split; [set_solver | exact Hq']].
        -- intros [H|[q [Hq [Hq1 Hq2]]]]; [left; exact H |].
           apply elem_of_cons in Hq as [->|Hq]; [congruence |]. right; exists q; auto.
      * rewrite H2. split.
        -- intros [H|[q [Hq Hq']]]; [left; exact H | right; exists q; split; [set_solver | exact Hq']].
        -- intros [H|[q [Hq [Hq1 Hq2]]]]; [left; exact H |].
           apply elem_of_cons in Hq as [->|Hq]; [congruence |]. right; exists q; auto.
Qed.

Lemma cells_hold_alloc all vals m k v :
  cells_hold all vals m -> cells_hold all vals (alloc m k v).2.
Proof.
  intros H x c Hx. destruct (H x c Hx) as [Hv Hp].
  pose proof (alloc_spec m k v) as S. destruct (alloc m k v) as [c' m'].
  destruct S as [_ [_ [_ [Hval Hold]]]]. simpl.
  split; [apply Hval, Hv |]. destruct (Hold c Hv) as [_ ->]. exact Hp.
Qed.

Lemma bind_protos_cells all ps fs vals m fs' vals' m' :
  Forall (fun p => has_ext_storage (fp_ptr p) = false) ps ->
  (forall p, p ∈ ps -> p ∈ all) ->
  cells_hold all vals m ->
  bind_protos ps fs vals m = inl (fs', vals', m') ->
  cells_hold all vals' m'.
Proof.
  revert fs vals m. induction ps as [|p r IH]; intros fs vals m Hext Hall Hh Hb; simpl in Hb.
  - injection Hb as <- <- <-. exact Hh.
  - apply Forall_cons in Hext as [Hp Hr]. unfold proto_addFlag in Hb.
    destruct (kind_of (fp_value p)) as [k|] eqn:Hk.
    + rewrite bind_cell_no_ext in Hb by exact Hp.
      pose proof (cells_hold_alloc all vals m k (fp_value p) Hh) as Hh1.
      pose proof (alloc_spec m k (fp_value p)) as S.
      destruct (alloc m k (fp_value p)) as [c m1]. destruct S as [Kc [Vc [Dc _]]].
      fs_var_inl_in Hb.
      eapply IH; [exact Hr | intros q Hq; apply Hall; set_solver | | exact Hb].
      intros x c0 Hx. destruct (decide (fp_name p = x)) as [<-|Hne].
      * rewrite lookup_insert_eq in Hx. injection Hx as <-.
        split; [exact Vc |]. exists p. split; [apply Hall; set_solver |].
        rewrite Kc. auto.
      * rewrite lookup_insert_ne in Hx by exact Hne. exact (Hh1 x c0 Hx).
    + eapply IH; [exact Hr | intros q Hq; apply Hall; set_solver | exact Hh | exact Hb].
Qed.

Lemma bind_protos_panic ps fs vals m lg m' :
  bind_protos ps fs vals m = inr (lg, m') -> exists it, lg = [(fs_output fs, it)].
Proof.
  revert fs vals m. induction ps as [|p r IH]; intros fs vals m Hb; simpl in Hb; [discriminate |].
  unfold proto_addFlag in Hb. destruct (kind_of (fp_value p)) as [k|].
  - destruct (bind_cell m k (fp_ptr p) (fp_value p)) as [c m1].
    destruct (fs_var fs c (fp_value p) (fp_name p) (fp_description p)) as [fs1|lg1] eqn:Hv.
    + apply fs_var_inl in Hv as [_ [_ ->]]. cbn iota in Hb. apply IH in Hb. exact Hb.
    + cbn iota in Hb. injection Hb as <- _. destruct (fs_var_inr _ _ _ _ _ _ Hv) as [it [_ ->]].
      eauto.
  - apply (IH _ _ _ Hb).
Qed.

(** A supported declaration with a name Var refuses makes the binding panic. *)
Lemma bind_protos_bad ps fs vals m p :
  p ∈ ps -> kind_of (fp_value p) <> None -> var_name_ok (fp_name p) = false ->
  exists e, bind_protos ps fs vals m = inr e.
Proof.
  revert fs vals m. induction ps as [|q r IH]; intros fs vals m Hp Hk Hv.
  - apply elem_of_nil in Hp. contradiction.
  - simpl. unfold proto_addFlag. apply elem_of_cons in Hp as [<-|Hp].
    + destruct (kind_of (fp_value p)) as [k|] eqn:Hk'; [| congruence].
      destruct (bind_cell m k (fp_ptr p) (fp_value p)) as [c m1].
      destruct (fs_var_bad_name fs c (fp_value p) (fp_name p) (fp_description p) Hv) as [lg ->].
      eexists. reflexivity.
    + destruct (kind_of (fp_value q)) as [k|].
      * destruct (bind_cell m k (fp_ptr q) (fp_value q)) as [c m1].
        destruct (fs_var fs c (fp_value q) (fp_name q) (fp_description q)) as [fs1|lg].
        -- cbn iota. apply IH; assumption.
        -- eexists. reflexivity.
      * cbn iota. apply IH; assumption.
Qed.


(** In a well-formed schema, a declaration listed under the name [x]. *)
Lemma protos_named (fs : flagSet) x :
  flagSet_wf fs ->
  ((exists p, p ∈ snd <$> map_to_list fs /\ fp_name p = x /\ kind_of (fp_value p) <> None) <->
   declares fs x).
Proof.
  intros Hwf. split.
  - intros [p [Hp [<- Hk]]]. destruct (protos_elem fs p Hp) as [k Hkp].
    rewrite <- (Hwf k p Hkp) in Hkp. exists p. auto.
  - intros [p [Hp Hk]]. exists p. split; [| split; [apply (Hwf x p Hp) | exact Hk]].
    apply list_elem_of_fmap_2' with (x := (x, p)); [| reflexivity].
    apply elem_of_map_to_list. exact Hp.
Qed.

Lemma parseFlags_open sc (fs : flagSet) ctx m path args :
  flagSet_wf fs -> names_ok fs -> ~ declares fs "help" ->
  exists flags vals m2 hc,
    parseFlags sc fs ctx m path args =
      (let '(rest, m3, lg, e) := parse_loop sc (help_parser flags hc path ctx) m2 args in
       match e with
       | Some pe => (PFErr pe, m3, lg)
       | None => (PFOk (with_value ctx FlagValuesKey
                          (CVFlagValues {| fv_flags := set_args (help_parser flags hc path ctx) rest;
                                           fv_values := <["help" := hc]> vals |})), m3, lg)
       end) /\
    fs_name flags = path /\ fs_args flags = [] /\
    c_kind hc = KBool /\ cell_valid m2 hc /\ deref m2 hc = GBool false /\
    (forall x, x <> "help" ->
       (is_Some (fs_formal flags !! x) <-> declares fs x) /\ (is_Some (vals !! x) <-> declares fs x)) /\
    fs_formal flags !! "help" = None /\ vals !! "help" = None /\
    (map_Forall (fun _ p => has_ext_storage (fp_ptr p) = false) fs ->
     cells_hold (snd <$> map_to_list fs) vals m2 /\
     forall x c, vals !! x = Some c -> cells_disjoint c hc).
Proof.
  intros Hwf Hok Hh. destruct (bind_protos_wf fs path m Hwf Hok) as [flags [vals [m1 Hb]]].
  pose proof (bind_protos_keys _ _ _ _ _ _ _ Hb) as Hk.
  assert (Hkx : forall x, (is_Some (fs_formal flags !! x) <-> declares fs x) /\
                          (is_Some (vals !! x) <-> declares fs x)).
  { intros x. destruct (Hk x) as [H1 [H2 _]]. rewrite H1, H2, <- (protos_named fs x Hwf).
    cbn [new_flagset fs_formal]. rewrite lookup_empty.
    split; (split; [intros [[? H]|H]; [discriminate | exact H] | intros H; right; exact H]). }
  destruct (Hk "help") as [_ [_ [Hn [Ho Ha]]]].
  assert (Hfh : fs_formal flags !! "help" = None).
  { destruct (fs_formal flags !! "help") eqn:E; [| reflexivity].
    exfalso. apply Hh. apply (proj1 (Hkx "help")). rewrite E. eexists; reflexivity. }
  assert (Hvh : vals !! "help" = None).
  { destruct (vals !! "help") eqn:E; [| reflexivity].
    exfalso. apply Hh. apply (proj2 (Hkx "help")). rewrite E. eexists; reflexivity. }
  pose proof (alloc_spec m1 KBool (GBool false)) as S.
  destruct (alloc m1 KBool (GBool false)) as [hc m2] eqn:Ea.
  destruct S as [Kh [Vh [Dh [Pv Po]]]].
  exists flags, vals, m2, hc. split.
  - unfold parseFlags. rewrite Hb, Ea. rewrite fs_var_fresh by first [reflexivity | exact Hfh].
    unfold fs_parse.
    fold (help_parser flags hc path ctx).
    destruct (parse_loop sc (help_parser flags hc path ctx) m2 args) as [[[rest m3] lg] [e|]];
      reflexivity.
  - simpl in Hn, Ho, Ha. split; [exact Hn |]. split; [exact Ha |].
    split; [exact Kh |]. split; [exact Vh |]. split; [exact Dh |].
    split; [intros x _; apply Hkx |]. split; [exact Hfh |]. split; [exact Hvh |].
    intros Hext.
    assert (Hc : cells_hold (snd <$> map_to_list fs) vals m1).
    { eapply bind_protos_cells; [| | | exact Hb].
      - apply Forall_fmap. apply map_Forall_to_list in Hext.
        eapply Forall_impl; [exact Hext |]. intros [k p]. simpl. auto.
      - auto.
      - intros x c Hx. rewrite lookup_empty in Hx. discriminate. }
    split.
    + pose proof (cells_hold_alloc _ _ _ KBool (GBool false) Hc) as Hc2. rewrite Ea in Hc2. exact Hc2.
    + intros x c Hx. destruct (Hc x c Hx) as [Hv _]. apply (Po c Hv).
Qed.

Lemma parse_loop_stops sc fs m args rest :
  stops_at_once args = Some rest -> parse_loop sc fs m args = (rest, m, [], None).
Proof.
  destruct args as [|s r]; simpl; [intros [= <-]; reflexivity |].
  unfold is_positional. destruct (_ || _)%bool eqn:E; [intros [= <-]; reflexivity |].
  destruct (String.eqb_spec s "--") as [->|]; [| discriminate]. intros [= <-].
  reflexivity.
Qed.

Lemma parse_loop_log sc fs m args :
  Forall (fun e => e.1 = fs_output fs) (parse_loop sc fs m args).1.2.
Proof.
  assert (Hn : length args <= length args) by lia.
  revert Hn. generalize (length args) at 2. intros n. revert args m.
  induction n as [|n IH]; intros [|s rest] m Hn; try (simpl; constructor); [simpl in Hn; lia |].
  simpl in Hn. cbn [parse_loop].
  repeat case_match; simplify_eq/=.
  all: try solve [ unfold fail_log, usage_log; repeat constructor ].
  all: apply IH; simpl in *; lia.
Qed.

(** X1. A successful [parseFlags] changes the scope only under [FlagValuesKey]: every other key reads as before, the writer [Stdout] is the same, and the new flag values carry a parser named by the command path, writing to the scope's writer, with a help flag bound. *)
Theorem parseFlags_scope sc (fs : flagSet) ctx m path args ctx1 m1 lg :
  parseFlags sc fs ctx m path args = (PFOk ctx1, m1, lg) ->
  (forall k, k <> FlagValuesKey -> ctx_value ctx1 k = ctx_value ctx k) /\
  Stdout ctx1 = Stdout ctx /\
  exists fv, getFlagValues ctx1 = Some fv /\ fs_name (fv_flags fv) = path /\
             fs_output (fv_flags fv) = Stdout ctx /\ is_Some (fv_values fv !! "help").
Proof.
  unfold parseFlags.
  destruct (bind_protos _ _ _ m) as [[[flags vals] m2]|[lg0 m0]] eqn:Hb; [| discriminate].
  destruct (bind_protos_keys _ _ _ _ _ _ _ Hb "help") as [_ [_ [Hn _]]].
  destruct (alloc m2 KBool (GBool false)) as [hc m3].
  destruct (fs_var flags hc (GBool false) "help" (help_usage path)) as [fl1|lg1] eqn:Hv;
    [| discriminate].
  apply fs_var_inl in Hv as [_ [_ ->]].
  unfold fs_parse. destruct (parse_loop _ _ _ args) as [[[rest m4] lg4] [e|]]; [discriminate |].
  intros [= <- <- <-].
  assert (Hk : forall k, k <> FlagValuesKey ->
             ctx_value (with_value ctx FlagValuesKey (CVFlagValues
               {| fv_flags := set_args (set_output
                    {| fs_name := fs_name flags;
                       fs_formal := <["help" := {| f_name := "help"; f_usage := help_usage path;
                                                   f_cell := hc; f_defvalue := GBool false |}]>
                                      (fs_formal flags);
                       fs_args := fs_args flags; fs_output := fs_output flags |}
                    (Stdout ctx)) rest;
                  fv_values := <["help" := hc]> vals |})) k = ctx_value ctx k).
  { intros k Hne. cbn [with_value ctx_value]. destruct (String.eqb_spec k FlagValuesKey); congruence. }
  split; [exact Hk |]. split.
  - unfold Stdout. rewrite Hk by discriminate. reflexivity.
  - eexists. split.
    + unfold getFlagValues. cbn [with_value ctx_value]. rewrite String.eqb_refl. reflexivity.
    + simpl. rewrite Hn. split; [reflexivity |]. split; [reflexivity |].
      rewrite lookup_insert_eq. eexists; reflexivity.
Qed.

(** X2. What [parseFlags] prints (usage text, error messages) goes to the writer of the scope it was given, except when [FlagSet.Var] panics: it has then printed exactly one message, to the standard error, the flag set's output before [SetOutput]. *)
Theorem parseFlags_writes_to_scope sc (fs : flagSet) ctx m path args r m1 lg :
  parseFlags sc fs ctx m path args = (r, m1, lg) ->
  match r with
  | PFPanic => exists it, lg = [(WErr, it)]
  | _ => Forall (fun e => e.1 = Stdout ctx) lg
  end.
Proof.
  unfold parseFlags.
  destruct (bind_protos _ _ _ m) as [[[flags vals] m2]|[lg0 m0]] eqn:Hb.
  2: { intros [= <- _ <-]. exact (bind_protos_panic _ _ _ _ _ _ Hb). }
  destruct (bind_protos_keys _ _ _ _ _ _ _ Hb "help") as [_ [_ [_ [Ho _]]]].
  destruct (alloc m2 KBool (GBool false)) as [hc m3].
  destruct (fs_var flags hc (GBool false) "help" (help_usage path)) as [fl1|lg1] eqn:Hv.
  2: { intros [= <- _ <-]. destruct (fs_var_inr _ _ _ _ _ _ Hv) as [it [_ ->]].
       rewrite Ho. eauto. }
  apply fs_var_inl in Hv as [_ [_ ->]].
  unfold fs_parse.
  match goal with |- context [parse_loop sc ?P m3 args] =>
    pose proof (parse_loop_log sc P m3 args) as Hl end.
  destruct (parse_loop _ _ _ args) as [[[rest m4] lg4] [e|]]; intros [= <- _ <-]; exact Hl.
Qed.

Lemma parseFlags_help_declared sc (fs : flagSet) ctx m path args :
  flagSet_wf fs -> names_ok fs -> declares fs "help" ->
  exists m1, parseFlags sc fs ctx m path args =
    (PFPanic, m1, [(WErr, IText ((if String.eqb path EmptyString then "flag redefined: help"
                                  else path ++ " flag redefined: help") ++ nl))]).
Proof.
  intros Hwf Hok Hh. destruct (bind_protos_wf fs path m Hwf Hok) as [flags [vals [m1 Hb]]].
  destruct (bind_protos_keys _ _ _ _ _ _ _ Hb "help") as [[_ Hk] [_ [Hn [Ho _]]]].
  destruct Hk as [g Hg]; [right; apply (protos_named fs "help" Hwf), Hh |].
  unfold parseFlags. rewrite Hb. destruct (alloc m1 KBool (GBool false)) as [hc m2].
  unfold fs_var, var_panic. rewrite Hg. simpl in Hn, Ho. rewrite Hn, Ho. eexists. reflexivity.
Qed.

(** X3. For a well-formed schema, [parseFlags] panics exactly when [FlagSet.Var] refuses a name: the command declares a flag named help (of a supported kind), which the help flag added by [parseFlags] then defines twice, or a declaration of a supported kind has a name beginning with '-' or containing '='. *)
Theorem parseFlags_panics_iff sc (fs : flagSet) ctx m path args :
  flagSet_wf fs ->
  ((parseFlags sc fs ctx m path args).1.1 = PFPanic <->
   declares fs "help" \/
   exists n p, fs !! n = Some p /\ kind_of (fp_value p) <> None /\ var_name_ok n = false).
Proof.
  intros Hwf.
  assert (Hbad : (exists n p, fs !! n = Some p /\ kind_of (fp_value p) <> None /\
                              var_name_ok n = false) <-> ~ names_ok fs).
  { split.
    - intros [n [p [Hp [Hk Hv]]]] Hok. specialize (Hok n p Hp Hk).
      rewrite (Hwf n p Hp) in Hok. congruence.
    - intros Hn. apply map_not_Forall in Hn as [n [p [Hp Hnp]]]; [| intros ? ?; apply _].
      exists n, p. split; [exact Hp |]. rewrite <- (Hwf n p Hp).
      destruct (kind_of (fp_value p)) eqn:Hk; [| exfalso; apply Hnp; intros H; congruence].
      destruct (var_name_ok (fp_name p)) eqn:Hv; [exfalso; apply Hnp; intros _; reflexivity |].
      split; [discriminate | reflexivity]. }
  rewrite Hbad. split.
  - intros Hp. destruct (decide (declares fs "help")) as [H|H]; [left; exact H | right; intros Hok].
    destruct (parseFlags_open sc fs ctx m path args Hwf Hok H) as [flags [vals [m2 [hc [Heq _]]]]].
    rewrite Heq in Hp. destruct (parse_loop _ _ _ _) as [[[rest m3] lg] [e|]]; discriminate.
  - intros Hc. destruct (decide (names_ok fs)) as [Hok|Hok].
    + destruct Hc as [Hh|Hn]; [| contradiction].
      destruct (parseFlags_help_declared sc fs ctx m path args Hwf Hok Hh) as [m1 ->].
      reflexivity.
    + apply Hbad in Hok as [n [p [Hp [Hk Hv]]]].
      destruct (bind_protos_bad (snd <$> map_to_list fs) (new_flagset path) ∅ m p) as [[lg m1] He].
      * apply list_elem_of_fmap_2' with (x := (n, p)); [| reflexivity].
        apply elem_of_map_to_list. exact Hp.
      * exact Hk.
      * rewrite (Hwf n p Hp). exact Hv.
      * unfold parseFlags. rewrite He. reflexivity.
Qed.

(** X4. Without a help declaration, with names that [FlagSet.Var] accepts and without external storage, argument lists on which the parser stops at once (empty, a first positional argument, or a leading [--]) parse without output; [OtherArgs] is what is left, [HelpFlag] is false and each typed accessor reads the declared default. *)
Theorem parseFlags_defaults sc (fs : flagSet) ctx m path args rest :
  flagSet_wf fs -> names_ok fs -> ~ declares fs "help" ->
  map_Forall (fun _ p => has_ext_storage (fp_ptr p) = false) fs ->
  stops_at_once args = Some rest ->
  exists ctx1 m1,
    parseFlags sc fs ctx m path args = (PFOk ctx1, m1, []) /\
    OtherArgs ctx1 = Some rest /\ HelpFlag ctx1 m1 = false /\
    forall n p, fs !! n = Some p -> accessor_reads ctx1 m1 n (fp_value p).
Proof.
  intros Hwf Hok Hh Hext Hs.
  destruct (parseFlags_open sc fs ctx m path args Hwf Hok Hh)
    as [flags [vals [m2 [hc [Heq [_ [_ [Kh [Vh [Dh [Hkx [_ [Hvh Hc]]]]]]]]]]]]].
  destruct (Hc Hext) as [Hhold _].
  rewrite Heq, (parse_loop_stops _ _ _ _ _ Hs).
  do 2 eexists. split; [reflexivity |].
  set (ctx1 := with_value ctx FlagValuesKey _).
  assert (Hg : forall x, getValuePointer ctx1 x = (<["help" := hc]> vals) !! x).
  { intros x. unfold getValuePointer, getFlagValues, ctx1. cbn [with_value ctx_value].
    rewrite String.eqb_refl. reflexivity. }
  split; [unfold OtherArgs, getFlagValues, ctx1; cbn [with_value ctx_value];
          rewrite String.eqb_refl; reflexivity |].
  split.
  { unfold HelpFlag, BoolFlag. rewrite Hg, lookup_insert_eq, Kh, Dh. reflexivity. }
  intros n p Hp.
  destruct (kind_of (fp_value p)) as [k|] eqn:Hk;
    [| destruct (fp_value p); try discriminate; exact I].
  assert (Hd : declares fs n) by (exists p; rewrite Hk; split; [exact Hp | discriminate]).
  assert (Hn : n <> "help") by (intros ->; contradiction).
  destruct (proj2 (proj2 (Hkx n Hn)) Hd) as [c Hvc].
  destruct (Hhold n c Hvc) as [_ [p' [Hp' [Hn' [Hk' Hd']]]]].
  destruct (protos_elem fs p' Hp') as [k' Hk'p].
  assert (Hpp : p' = p).
  { rewrite <- (Hwf k' p' Hk'p), Hn' in Hk'p. congruence. }
  subst p'.
  assert (Hr : getValuePointer ctx1 n = Some c) by (rewrite Hg, lookup_insert_ne by congruence; exact Hvc).
  unfold accessor_reads, StringFlag, IntFlag, FloatFlag, BoolFlag. rewrite Hr, Hd'.
  destruct (fp_value p); simpl in Hk'; try discriminate; injection Hk' as <-;
    intros o; reflexivity.
Qed.

Lemma parse_loop_h sc fs m pre rest :
  pre = "-" \/ pre = "--" -> fs_formal fs !! "h" = None ->
  parse_loop sc fs m ((pre ++ "h") :: rest) = (rest, m, usage_log fs, Some PHelpRequested).
Proof.
  intros Hpre Hf.
  assert (H45 : ch 45 = Ascii.Ascii true false true true false true false false) by reflexivity.
  assert (H61 : ch 61 = Ascii.Ascii true false true true true true false false) by reflexivity.
  destruct Hpre as [-> | ->];
    [change ("-" ++ "h") with "-h" | change ("--" ++ "h") with "--h"];
    cbn -[lookup ch]; unfold char_at_is; cbn -[lookup ch];
    rewrite ?H45, ?H61; cbn -[lookup]; rewrite Hf; reflexivity.
Qed.

Lemma parse_loop_help sc fs m pre rest g :
  pre = "-" \/ pre = "--" -> fs_formal fs !! "help" = Some g -> c_kind (f_cell g) = KBool ->
  parse_loop sc fs m ((pre ++ "help") :: rest) =
  parse_loop sc fs (store m (f_cell g) (GBool true)) rest.
Proof.
  intros Hpre Hf Hk.
  assert (H45 : ch 45 = Ascii.Ascii true false true true false true false false) by reflexivity.
  assert (H61 : ch 61 = Ascii.Ascii true false true true true true false false) by reflexivity.
  destruct Hpre as [-> | ->];
    [change ("-" ++ "help") with "-help" | change ("--" ++ "help") with "--help"];
    lazymatch goal with |- _ = ?r => set (R := r) end;
    cbn -[lookup ch store]; unfold char_at_is; cbn -[lookup ch store];
    rewrite ?H45, ?H61; cbn -[lookup ch store]; rewrite ?H61; cbn -[lookup store];
    rewrite Hf, Hk; reflexivity.
Qed.

(** X5. With names that [FlagSet.Var] accepts, an undeclared [-h] (or [--h]) makes [parseFlags] fail with [flag.ErrHelp] after printing the usage header ("Usage:" when the command path is empty, else "Usage of" and the path) and the defaults, while [-help] (or [--help]) succeeds silently with [HelpFlag] true and the rest of the arguments as [OtherArgs]. *)
Theorem parseFlags_h_help sc (fs : flagSet) ctx m path pre rest rest' :
  flagSet_wf fs -> names_ok fs -> ~ declares fs "help" -> ~ declares fs "h" ->
  pre = "-" \/ pre = "--" -> stops_at_once rest = Some rest' ->
  (exists m1 ds,
     parseFlags sc fs ctx m path ((pre ++ "h") :: rest) =
       (PFErr PHelpRequested, m1,
        [(Stdout ctx, IText ((if String.eqb path EmptyString then "Usage:"
                               else "Usage of " ++ path ++ ":") ++ nl));
         (Stdout ctx, IDefaults ds)])) /\
  (exists ctx1 m1,
     parseFlags sc fs ctx m path ((pre ++ "help") :: rest) = (PFOk ctx1, m1, []) /\
     HelpFlag ctx1 m1 = true /\ OtherArgs ctx1 = Some rest').
Proof.
  intros Hwf Hok Hh Hhh Hpre Hs. split.
  - destruct (parseFlags_open sc fs ctx m path ((pre ++ "h") :: rest) Hwf Hok Hh)
      as [flags' [vals' [m2' [hc' [Heq' [Hn' [_ [_ [_ [_ [Hkx _]]]]]]]]]]].
    rewrite Heq'.
    rewrite (parse_loop_h sc _ m2' pre rest Hpre).
    + do 2 eexists. unfold usage_log. cbn [help_parser set_output fs_output fs_name].
      rewrite Hn'. reflexivity.
    + cbn [help_parser set_output fs_formal]. rewrite lookup_insert_ne by discriminate.
      destruct (fs_formal flags' !! "h") eqn:E; [| reflexivity].
      exfalso. apply Hhh. apply (proj1 (proj1 (Hkx "h" ltac:(discriminate)))).
      rewrite E. eexists; reflexivity.
  - destruct (parseFlags_open sc fs ctx m path ((pre ++ "help") :: rest) Hwf Hok Hh)
      as [flags [vals [m2 [hc [Heq [_ [_ [Kh [Vh [Dh _]]]]]]]]]].
    rewrite Heq.
    rewrite (parse_loop_help sc _ m2 pre rest
               {| f_name := "help"; f_usage := help_usage path; f_cell := hc; f_defvalue := GBool false |}
               Hpre (lookup_insert_eq _ _ _) Kh).
    rewrite (parse_loop_stops _ _ _ _ _ Hs).
    do 2 eexists. split; [reflexivity |].
    split.
    + unfold HelpFlag, BoolFlag, getValuePointer, getFlagValues. cbn [with_value ctx_value].
      rewrite String.eqb_refl. cbn [fv_values f_cell]. rewrite lookup_insert_eq, Kh.
      rewrite deref_store_same by exact Vh. reflexivity.
    + unfold OtherArgs, getFlagValues. cbn [with_value ctx_value]. rewrite String.eqb_refl.
      reflexivity.
Qed.

(** X6. A command declaring its own help flag (its other names accepted by [FlagSet.Var]) panics as soon as it is run with arguments whose first one names no child; all it prints is the flag package's message, "<command path> flag redefined: help" (or "flag redefined: help" for an empty path), on the standard error. *)
Theorem run_help_declared_panics sc f w ctx m c a app cmd a0 rest :
  getCli w c = Some (a, app) -> w_cmds w !! c = Some cmd ->
  flagSet_wf (c_flags cmd) -> names_ok (c_flags cmd) -> declares (c_flags cmd) "help" ->
  c_subCommandsMap cmd !! a0 = None ->
  exists m1, run sc (S f) w ctx m c (a0 :: rest) =
    Some (Panic, [(WErr, IText ((if String.eqb (commandPath w c) EmptyString
                                 then "flag redefined: help"
                                 else commandPath w c ++ " flag redefined: help") ++ nl))], m1).
Proof.
  intros Hg Hc Hwf Hok Hd Hs.
  destruct (parseFlags_help_declared sc (c_flags cmd) ctx m (commandPath w c) (a0 :: rest) Hwf Hok Hd)
    as [m1 Hp].
  exists m1. rewrite run_S, Hg, Hc. cbv zeta. rewrite Hs, Hp. reflexivity.
Qed.

Lemma str_app_cons x (a b : string) : String x a ++ b = String x (a ++ b).
Proof. reflexivity. Qed.

Lemma str_app_assoc (a b c : string) : (a ++ b) ++ c = a ++ (b ++ c).
Proof.
  induction a as [|x a IH]; [reflexivity |].
  rewrite !str_app_cons, IH. reflexivity.
Qed.

Lemma str_app_nil_l (a : string) : EmptyString ++ a = a.
Proof. reflexivity. Qed.

Lemma path_walk_app w i cmd s t :
  path_walk w i cmd (s ++ t) = path_walk w i cmd s ++ t.
Proof.
  revert cmd s. induction i as [|i IH]; intros cmd s; simpl; [reflexivity |].
  destruct (c_parent cmd) as [p|]; [| reflexivity].
  destruct (w_cmds w !! p) as [pc|]; [| reflexivity].
  destruct (String.eqb (c_name pc) EmptyString); rewrite <- IH; [reflexivity |].
  rewrite !str_app_assoc. reflexivity.
Qed.

Lemma path_walk_step w i cmd pth :
  path_walk w (S i) cmd pth =
  match c_parent cmd with
  | None => pth
  | Some p =>
      match w_cmds w !! p with
      | None => pth
      | Some pc =>
          path_walk w i pc
            (if String.eqb (c_name pc) EmptyString then pth else c_name pc ++ " " ++ pth)
      end
  end.
Proof. reflexivity. Qed.

Lemma path_walk_parent w i a b s :
  c_parent a = c_parent b -> path_walk w i a s = path_walk w i b s.
Proof. intros H. destruct i; simpl; [reflexivity | rewrite H; reflexivity]. Qed.

Lemma chain_ends_parent w i a b :
  c_parent a = c_parent b -> chain_ends w i a = chain_ends w i b.
Proof. intros H. destruct i; simpl; rewrite H; reflexivity. Qed.

Lemma chain_ends_S w i cmd : chain_ends w i cmd = true -> chain_ends w (S i) cmd = true.
Proof.
  revert cmd. induction i as [|i IH]; intros cmd; simpl.
  - destruct (c_parent cmd); [discriminate | reflexivity].
  - destruct (c_parent cmd) as [p|]; [| reflexivity].
    destruct (w_cmds w !! p) as [pc|]; [apply IH | discriminate].
Qed.

Lemma chain_ends_le w i j cmd : i <= j -> chain_ends w i cmd = true -> chain_ends w j cmd = true.
Proof. induction 1; [tauto | intros Hc; apply chain_ends_S; auto]. Qed.

Lemma path_walk_S w i cmd s :
  chain_ends w i cmd = true -> path_walk w (S i) cmd s = path_walk w i cmd s.
Proof.
  revert cmd s. induction i as [|i IH]; intros cmd s; simpl.
  - destruct (c_parent cmd); [discriminate | reflexivity].
  - destruct (c_parent cmd) as [p|]; [| reflexivity].
    destruct (w_cmds w !! p) as [pc|]; [intros H; apply (IH pc _ H) | discriminate].
Qed.

Lemma path_walk_le w i j cmd s :
  i <= j -> chain_ends w i cmd = true -> path_walk w j cmd s = path_walk w i cmd s.
Proof.
  induction 1 as [|j Hij IH]; [reflexivity |].
  intros Hc. rewrite path_walk_S by (apply (chain_ends_le w i); auto). auto.
Qed.

Lemma path_walk_shape w w' i cmd s :
  same_shape w w' -> chain_ends w i cmd = true -> path_walk w' i cmd s = path_walk w i cmd s.
Proof.
  intros Hs. revert cmd s. induction i as [|i IH]; intros cmd s; simpl; [reflexivity |].
  destruct (c_parent cmd) as [p|]; [| reflexivity].
  destruct (w_cmds w !! p) as [pc|] eqn:Ep; [| discriminate].
  intros Hc. destruct (Hs p pc Ep) as [pc' [-> [Hn [Hp _]]]]. rewrite Hn.
  rewrite (path_walk_parent w' i pc' pc) by exact Hp. apply IH. exact Hc.
Qed.

Lemma chain_ends_shape w w' i cmd :
  same_shape w w' -> chain_ends w i cmd = true -> chain_ends w' i cmd = true.
Proof.
  intros Hs. revert cmd. induction i as [|i IH]; intros cmd; simpl; [tauto |].
  destruct (c_parent cmd) as [p|]; [| reflexivity].
  destruct (w_cmds w !! p) as [pc|] eqn:Ep; [| discriminate].
  intros Hc. destruct (Hs p pc Ep) as [pc' [-> [_ [Hp _]]]].
  rewrite (chain_ends_parent w' i pc' pc) by exact Hp. auto.
Qed.

Lemma getCli_walk_step w i c :
  getCli_walk w (S i) c =
  match w_cmds w !! c with
  | None => None
  | Some cmd =>
      match c_app cmd with
      | Some a => Some a
      | None => match c_parent cmd with Some p => getCli_walk w i p | None => None end
      end
  end.
Proof. reflexivity. Qed.

Lemma getCli_walk_S w k c cmd :
  w_cmds w !! c = Some cmd -> chain_ends w k cmd = true ->
  getCli_walk w (S (S k)) c = getCli_walk w (S k) c.
Proof.
  revert c cmd. induction k as [|k IH]; intros c cmd Hc Hk.
  - simpl in Hk |- *. rewrite Hc. destruct (c_app cmd); [reflexivity |].
    destruct (c_parent cmd); [discriminate | reflexivity].
  - rewrite (getCli_walk_step w (S (S k))), (getCli_walk_step w (S k)), Hc. destruct (c_app cmd); [reflexivity |].
    simpl in Hk. destruct (c_parent cmd) as [p|]; [| reflexivity].
    destruct (w_cmds w !! p) as [pc|] eqn:Ep; [| discriminate].
    exact (IH p pc Ep Hk).
Qed.

Lemma getCli_walk_le w k j c cmd :
  S k <= j -> w_cmds w !! c = Some cmd -> chain_ends w k cmd = true ->
  getCli_walk w j c = getCli_walk w (S k) c.
Proof.
  intros Hj Hc Hk. induction Hj as [|j Hj IH]; [reflexivity |].
  rewrite <- IH. destruct j as [|j]; [lia |].
  apply (getCli_walk_S w j c cmd Hc). apply (chain_ends_le w k); [lia | exact Hk].
Qed.

Lemma getCli_walk_shape w w' k c cmd :
  same_shape w w' -> w_cmds w !! c = Some cmd -> chain_ends w k cmd = true ->
  getCli_walk w' (S k) c = getCli_walk w (S k) c.
Proof.
  intros Hs. revert c cmd. induction k as [|k IH]; intros c cmd Hc Hk.
  - destruct (Hs c cmd Hc) as [cmd' [Hc' [_ [Hp Ha]]]].
    simpl. rewrite Hc, Hc', Ha, Hp. reflexivity.
  - destruct (Hs c cmd Hc) as [cmd' [Hc' [_ [Hp Ha]]]].
    rewrite (getCli_walk_step w' (S k)), (getCli_walk_step w (S k)), Hc, Hc', Ha, Hp. destruct (c_app cmd); [reflexivity |].
    simpl in Hk. destruct (c_parent cmd) as [p|]; [| reflexivity].
    destruct (w_cmds w !! p) as [pc|] eqn:Ep; [| discriminate].
    exact (IH p pc Ep Hk).
Qed.

Lemma alloc_cmd_fresh w cmd : w_cmds w !! snd (alloc_cmd w cmd) = None.
Proof. unfold alloc_cmd. simpl. apply not_elem_of_dom, is_fresh. Qed.

Lemma AddCommand_some w c child chd cc :
  w_cmds w !! child = Some chd -> w_cmds w !! c = Some cc -> c <> child ->
  AddCommand w c child =
    Some {| w_cmds := <[c := with_subs (c_subCommands cc ++ [child])%list
                                       (<[c_name chd := child]> (c_subCommandsMap cc)) cc]>
                        (<[child := with_parent (Some c) chd]> (w_cmds w));
            w_clis := w_clis w |}.
Proof.
  intros Hch Hc Hne. unfold AddCommand, update_cmd. rewrite Hch. simpl.
  rewrite lookup_insert_ne by congruence. rewrite Hc. reflexivity.
Qed.

(** X7. [NewSubCommand] on a node whose parent chain is short enough allocates a new node, makes it the last child and the map entry of its name, and gives it the parent's command path extended by its name and the parent's application. *)
Theorem NewSubCommand_child w c cmd name desc :
  w_cmds w !! c = Some cmd -> chain_ends w 8 cmd = true ->
  exists w' x,
    NewSubCommand w c name desc = Some (w', x) /\ w_cmds w !! x = None /\
    c_parent (cmd_at w' x) = Some c /\
    c_subCommands (cmd_at w' c) = (c_subCommands cmd ++ [x])%list /\
    c_subCommandsMap (cmd_at w' c) !! name = Some x /\
    commandPath w' x =
      commandPath w c ++ (if String.eqb (c_name cmd) EmptyString then name else " " ++ name) /\
    getCli w' x = getCli w c.
Proof.
  intros Hc Hk.
  pose proof (alloc_cmd_fresh w (NewCommand name desc)) as Hf.
  unfold NewSubCommand. destruct (alloc_cmd w (NewCommand name desc)) as [w1 x] eqn:Ea.
  simpl in Hf.
  assert (Hw1 : w1 = {| w_cmds := <[x := NewCommand name desc]> (w_cmds w); w_clis := w_clis w |}).
  { unfold alloc_cmd in Ea. injection Ea as <- <-. reflexivity. }
  assert (Hne : c <> x) by congruence.
  rewrite (AddCommand_some w1 c x (NewCommand name desc) cmd);
    [| subst w1; apply lookup_insert_eq | subst w1; simpl; rewrite lookup_insert_ne by congruence; exact Hc
     | exact Hne].
  set (w' := {| w_cmds := _; w_clis := _ |}).
  assert (Hx' : w_cmds w' !! x = Some (with_parent (Some c) (NewCommand name desc))).
  { subst w'. simpl. rewrite lookup_insert_ne by congruence. apply lookup_insert_eq. }
  assert (Hc' : w_cmds w' !! c = Some (with_subs ((c_subCommands cmd ++ [x])%list)
                   (<[c_name (NewCommand name desc) := x]> (c_subCommandsMap cmd)) cmd)).
  { subst w'. apply lookup_insert_eq. }
  assert (Hs : same_shape w w').
  { intros y cy Hy. subst w'. simpl. destruct (decide (y = c)) as [->|Hyc].
    - rewrite lookup_insert_eq. eexists; split; [reflexivity |]. rewrite Hc in Hy.
      injection Hy as <-. auto.
    - rewrite lookup_insert_ne by congruence. subst w1. simpl.
      rewrite lookup_insert_ne by congruence. rewrite lookup_insert_ne by congruence.
      exists cy. auto. }
  exists w', x. split; [reflexivity |]. split; [exact Hf |].
  unfold cmd_at. rewrite Hx', Hc'. simpl. split; [reflexivity |]. split; [reflexivity |].
  split; [apply lookup_insert_eq |]. split.
  - unfold commandPath. rewrite Hx', Hc.
    change maxDepth with (S 9). rewrite (path_walk_step w' 9).
    cbn [with_parent c_parent]. rewrite Hc'. cbn [with_subs c_name NewCommand].
    rewrite (path_walk_parent w' 9 _ cmd) by reflexivity.
    assert (Hk9 : chain_ends w 9 cmd = true) by (apply (chain_ends_le w 8); [lia | exact Hk]).
    rewrite (path_walk_shape w w' 9 cmd _ Hs Hk9).
    rewrite (path_walk_S w 9) by exact Hk9.
    destruct (String.eqb (c_name cmd) EmptyString) eqn:E.
    + apply String.eqb_eq in E. rewrite E. rewrite <- path_walk_app. reflexivity.
    + rewrite <- path_walk_app. reflexivity.
  - unfold getCli. change maxDepth with (S 9).
    rewrite (getCli_walk_step w' 9 x), Hx'. cbn [with_parent c_app c_parent NewCommand].
    rewrite (getCli_walk_shape w w' 8 c cmd Hs Hc Hk).
    rewrite (getCli_walk_le w 8 (S 9) c cmd) by (auto; lia).
    subst w' w1. reflexivity.
Qed.

Lemma getCli_walk_skel w w' i c :
  same_skel w w' -> getCli_walk w' i c = getCli_walk w i c.
Proof.
  intros [Hs _]. revert c. induction i as [|i IH]; intros c; [reflexivity |].
  rewrite !getCli_walk_step. specialize (Hs c).
  destruct (w_cmds w' !! c) as [a|], (w_cmds w !! c) as [b|]; simpl in Hs; try discriminate;
    [| reflexivity].
  injection Hs as Hn Hp Ha. rewrite Hp, Ha. destruct (c_app b); [reflexivity |].
  destruct (c_parent b); [apply IH | reflexivity].
Qed.

Lemma getCli_skel w w' c : same_skel w w' -> getCli w' c = getCli w c.
Proof.
  intros H. unfold getCli. rewrite (getCli_walk_skel w w' _ _ H), (proj2 H). reflexivity.
Qed.

Lemma path_walk_skel w w' i cmd s :
  same_skel w w' -> path_walk w' i cmd s = path_walk w i cmd s.
Proof.
  intros [Hs _]. revert cmd s. induction i as [|i IH]; intros cmd s; [reflexivity |].
  rewrite !path_walk_step. destruct (c_parent cmd) as [p|]; [| reflexivity].
  specialize (Hs p).
  destruct (w_cmds w' !! p) as [a|], (w_cmds w !! p) as [b|]; simpl in Hs; try discriminate;
    [| reflexivity].
  injection Hs as Hn Hp Ha. rewrite Hn, (path_walk_parent w' i a b) by exact Hp. apply IH.
Qed.

Lemma commandPath_skel w w' c : same_skel w w' -> commandPath w' c = commandPath w c.
Proof.
  intros H. unfold commandPath. pose proof (proj1 H c) as Hc.
  destruct (w_cmds w' !! c) as [a|], (w_cmds w !! c) as [b|]; simpl in Hc; try discriminate;
    [| reflexivity].
  injection Hc as Hn Hp Ha. rewrite Hn, (path_walk_parent w' _ a b) by exact Hp.
  apply path_walk_skel. exact H.
Qed.

Lemma isDefaultCommand_skel w w' c : same_skel w w' -> isDefaultCommand w' c = isDefaultCommand w c.
Proof. intros H. unfold isDefaultCommand. rewrite (getCli_skel w w' c H). reflexivity. Qed.

Lemma update_cmd_skel w c f w' :
  (forall cmd, skel (f cmd) = skel cmd) -> update_cmd w c f = Some w' -> same_skel w w'.
Proof.
  intros Hf Hu. destruct (update_cmd_inv w c f w' Hu) as [cmd [Hc [Hw Hl]]].
  split; [| exact Hl]. intros y. rewrite Hw. destruct (decide (y = c)) as [->|Hne].
  - rewrite lookup_insert_eq, Hc. simpl. rewrite Hf. reflexivity.
  - rewrite lookup_insert_ne by congruence. reflexivity.
Qed.

Lemma foldl_max_ge {A} (f : A -> nat) l a : a <= foldl (fun acc s => Nat.max acc (f s)) a l.
Proof. revert a. induction l as [|x l IH]; intros a; simpl; [lia |]. etransitivity; [| apply IH]. lia. Qed.

Lemma foldl_max_elem {A} (f : A -> nat) l a x :
  x ∈ l -> f x <= foldl (fun acc s => Nat.max acc (f s)) a l.
Proof.
  revert a. induction l as [|y l IH]; intros a Hx; [inversion Hx |].
  simpl. apply elem_of_cons in Hx as [->|Hx].
  - etransitivity; [| apply foldl_max_ge]. lia.
  - apply IH, Hx.
Qed.

Lemma foldl_max_ext {A} (f g : A -> nat) l a :
  (forall s, f s = g s) ->
  foldl (fun acc s => Nat.max acc (f s)) a l = foldl (fun acc s => Nat.max acc (g s)) a l.
Proof. intros H. revert a. induction l as [|x l IH]; intros a; simpl; [reflexivity |]. rewrite H. apply IH. Qed.

Lemma name_len_longest w cmd s : s ∈ c_subCommands cmd -> name_len w s <= longestSubcommand w cmd.
Proof. intros Hs. unfold longestSubcommand. apply foldl_max_elem, Hs. Qed.

(** X8. In the help listing, a visible child's line is its name padded with spaces to the longest child name plus three, then its short description and the default marker; the padding is at least three spaces. *)
Theorem subcommand_line_aligned w cmd s sc :
  s ∈ c_subCommands cmd -> w_cmds w !! s = Some sc -> c_hidden sc = false ->
  exists k, 3 <= k /\ String.length (c_name sc) + k = 3 + longestSubcommand w cmd /\
    subcommand_line w (longestSubcommand w cmd) s =
      [(WOs, IText ("   " ++ c_name sc ++ repeat_str " " k ++ c_shortdescription sc ++ " " ++
                    (if isDefaultCommand w s then "[default]" else EmptyString) ++ nl))].
Proof.
  intros Hin Hs Hh. pose proof (name_len_longest w cmd s Hin) as Hl.
  unfold name_len in Hl. rewrite Hs in Hl.
  exists (3 + longestSubcommand w cmd - String.length (c_name sc)).
  split; [lia |]. split; [lia |].
  unfold subcommand_line. rewrite Hs, Hh. reflexivity.
Qed.

(** X9. After [Hidden], the node has no line in its parent's listing, and every other line, the column width, the applications, the command paths and the children of all nodes are unchanged. *)
Theorem Hidden_unlisted w x w' :
  Hidden w x = Some w' ->
  (forall l, subcommand_line w' l x = []) /\
  (forall l y, y <> x -> subcommand_line w' l y = subcommand_line w l y) /\
  (forall cmd, longestSubcommand w' cmd = longestSubcommand w cmd) /\
  (forall y, getCli w' y = getCli w y /\ commandPath w' y = commandPath w y) /\
  (forall y, c_subCommands (cmd_at w' y) = c_subCommands (cmd_at w y) /\
             c_subCommandsMap (cmd_at w' y) = c_subCommandsMap (cmd_at w y)).
Proof.
  intros Hu. pose proof (update_cmd_skel w x (with_hidden true) w' (fun _ => eq_refl) Hu) as Hk.
  destruct (update_cmd_inv w x _ w' Hu) as [cmd [Hc [Hw _]]].
  assert (Hy : forall y, y <> x -> w_cmds w' !! y = w_cmds w !! y).
  { intros y Hne. rewrite Hw, lookup_insert_ne by congruence. reflexivity. }
  assert (Hx : w_cmds w' !! x = Some (with_hidden true cmd)) by (rewrite Hw; apply lookup_insert_eq).
  split; [| split; [| split; [| split]]].
  - intros l. unfold subcommand_line. rewrite Hx. reflexivity.
  - intros l y Hne. unfold subcommand_line. rewrite (Hy y Hne), (isDefaultCommand_skel w w' y Hk).
    reflexivity.
  - intros c. unfold longestSubcommand. apply foldl_max_ext. intros s. unfold name_len.
    destruct (decide (s = x)) as [->|Hne]; [rewrite Hx, Hc; reflexivity | rewrite (Hy s Hne); reflexivity].
  - intros y. split; [apply getCli_skel | apply commandPath_skel]; exact Hk.
  - intros y. unfold cmd_at. destruct (decide (y = x)) as [->|Hne].
    + rewrite Hx, Hc. split; reflexivity.
    + rewrite (Hy y Hne). split; reflexivity.
Qed.

Lemma getCli_walk_cmds w w' i c : w_cmds w' = w_cmds w -> getCli_walk w' i c = getCli_walk w i c.
Proof.
  intros H. revert c. induction i as [|i IH]; intros c; [reflexivity |].
  rewrite !getCli_walk_step, H. destruct (w_cmds w !! c) as [cmd|]; [| reflexivity].
  destruct (c_app cmd); [reflexivity |]. destruct (c_parent cmd); [apply IH | reflexivity].
Qed.

(** X10. After [DefaultCommand(d)] on an application, exactly [d] is marked as default among the nodes of that application; nodes of other applications keep their mark. *)
Theorem DefaultCommand_marks w a d w' :
  DefaultCommand w a d = Some w' ->
  forall y b app, getCli w y = Some (b, app) ->
    isDefaultCommand w' y = if Nat.eqb b a then Nat.eqb d y else isDefaultCommand w y.
Proof.
  unfold DefaultCommand. destruct (w_clis w !! a) as [appa|] eqn:Ea; [| discriminate].
  intros [= <-] y b app Hy.
  unfold isDefaultCommand, getCli in *. cbn [w_cmds w_clis].
  rewrite (getCli_walk_cmds w) by reflexivity. destruct (getCli_walk w maxDepth y) as [b'|]; [| discriminate].
  destruct (w_clis w !! b') as [app'|] eqn:Eb; [| discriminate]. injection Hy as -> ->.
  destruct (Nat.eqb_spec b a) as [->|Hne].
  - rewrite lookup_insert_eq. reflexivity.
  - rewrite lookup_insert_ne by congruence. rewrite Eb. reflexivity.
Qed.



Lemma SubCommands_parent_kept w c xs w' y :
  SubCommands w c xs = Some w' -> c_parent (cmd_at w y) = Some c -> c_parent (cmd_at w' y) = Some c.
Proof.
  revert w. induction xs as [|x r IH]; intros w; simpl.
  - intros [= <-]. tauto.
  - destruct (AddCommand w c x) as [w1|] eqn:E; [| discriminate]. simpl. intros Hs Hy.
    apply (IH w1 Hs).
    destruct (AddCommand_spec w c x w1 E) as [chd [cc [_ [_ [Hx [_ [_ [_ [Hp _]]]]]]]]].
    destruct (decide (y = x)) as [->|Hne]; [exact Hx | rewrite (Hp y Hne); exact Hy].
Qed.

Lemma SubCommands_spec w c xs w' :
  SubCommands w c xs = Some w' ->
  c_subCommands (cmd_at w' c) = (c_subCommands (cmd_at w c) ++ xs)%list /\
  Forall (fun x => c_parent (cmd_at w' x) = Some c) xs.
Proof.
  revert w. induction xs as [|x r IH]; intros w; simpl.
  - intros [= <-]. rewrite app_nil_r. split; [reflexivity | constructor].
  - destruct (AddCommand w c x) as [w1|] eqn:E; [| discriminate]. simpl. intros Hs.
    destruct (AddCommand_spec w c x w1 E) as [chd [cc [_ [Ec [Hx [Hsub _]]]]]].
    destruct (IH w1 Hs) as [H1 H2]. split.
    + rewrite H1, Hsub, (cmd_at_some w c cc Ec), <- app_assoc. reflexivity.
    + constructor; [| exact H2]. exact (SubCommands_parent_kept w1 c r w' x Hs Hx).
Qed.

(** X11. [AddCommand] sets the child's parent, appends it to the parent's child list and maps its name to it, and changes no other node's children and no other node's parent. *)
Theorem AddCommand_frame w c child w' :
  AddCommand w c child = Some w' ->
  c_parent (cmd_at w' child) = Some c /\
  c_subCommands (cmd_at w' c) = (c_subCommands (cmd_at w c) ++ [child])%list /\
  c_subCommandsMap (cmd_at w' c) = <[c_name (cmd_at w child) := child]> (c_subCommandsMap (cmd_at w c)) /\
  (forall y, y <> c -> c_subCommands (cmd_at w' y) = c_subCommands (cmd_at w y) /\
                       c_subCommandsMap (cmd_at w' y) = c_subCommandsMap (cmd_at w y)) /\
  (forall y, y <> child -> c_parent (cmd_at w' y) = c_parent (cmd_at w y)).
Proof.
  intros H. destruct (AddCommand_spec w c child w' H)
    as [chd [cc [Ech [Ec [H1 [H2 [H3 [H4 [H5 _]]]]]]]]].
  rewrite (cmd_at_some w child chd Ech), (cmd_at_some w c cc Ec). auto.
Qed.

(** X12. [SubCommands] appends its arguments, in order, to the node's child list and makes the node the parent of each of them. *)
Theorem SubCommands_appends w c xs w' :
  SubCommands w c xs = Some w' ->
  c_subCommands (cmd_at w' c) = (c_subCommands (cmd_at w c) ++ xs)%list /\
  Forall (fun x => c_parent (cmd_at w' x) = Some c) xs.
Proof. apply SubCommands_spec. Qed.

(** X13. [NewCli] creates an application whose root has the given name as command path and whose default banner is the name, a space and the version when it is not empty, a dash and the description, followed by an empty line, on the scope's writer. *)
Theorem NewCli_banner w name desc version ctx m :
  let '(w', a) := NewCli w name desc version in
  exists app, w_clis w' !! a = Some app /\ cli_version app = version /\
    getCli w' (cli_rootCommand app) = Some (a, app) /\
    commandPath w' (cli_rootCommand app) = name /\
    PrintBanner w' app ctx m =
      Some [(Stdout ctx, IText ((name ++ (if String.eqb version EmptyString then EmptyString
                                          else " " ++ version) ++ " - " ++ desc) ++ nl));
            (Stdout ctx, IText nl)].
Proof.
  unfold NewCli. destruct (alloc_cmd w (NewCommand name desc)) as [w1 root] eqn:Ea.
  set (a := fresh (dom (w_clis w1))).
  set (W := {| w_cmds := _; w_clis := _ |}).
  eexists. split; [apply lookup_insert_eq |]. split; [reflexivity |].
  cbn [cli_rootCommand].
  assert (Hr : w_cmds W !! root = Some (with_app (Some a) (NewCommand name desc)))
    by apply lookup_insert_eq.
  split; [| split].
  - unfold getCli. change maxDepth with (S 9). rewrite getCli_walk_step, Hr. cbn.
    rewrite lookup_insert_eq. reflexivity.
  - unfold commandPath. rewrite Hr. change maxDepth with (S 9). rewrite path_walk_step. reflexivity.
  - unfold PrintBanner, defaultBannerFunction, cli_Name, cli_ShortDescription.
    cbn [cli_bannerFunction cli_version cli_rootCommand].
    rewrite Hr. destruct version as [|x v]; reflexivity.
Qed.

(** X14. [PrintHelp] prints the banner to the scope's writer, the title, the long description and the child listing to the process's standard output, then the flag defaults if flags are declared, and a final newline to the scope's writer; without parsed flag values in the scope, the defaults part is empty. *)
Theorem PrintHelp_writers w c ctx m lh :
  PrintHelp w c ctx m = Some lh ->
  exists lo,
    lh = (help_banner w c ctx m ++ lo ++
          (if Nat.ltb 0 (flagCount (c_flags (cmd_at w c))) then printDefaults ctx else []) ++
          [(Stdout ctx, IText nl)])%list /\
    Forall (fun e => e.1 = WOs) lo /\
    Forall (fun e => e.1 = Stdout ctx) (help_banner w c ctx m) /\
    (getFlagValues ctx = None -> lh = (help_banner w c ctx m ++ lo ++ [(Stdout ctx, IText nl)])%list).
Proof.
  unfold PrintHelp, help_banner, cmd_at. destruct (w_cmds w !! c) as [cmd|]; [| discriminate].
  assert (Hb : forall app lb, PrintBanner w app ctx m = Some lb -> Forall (fun e => e.1 = Stdout ctx) lb).
  { intros app lb. unfold PrintBanner. destruct (cli_bannerFunction app); simpl;
      intros [= <-]; repeat constructor. }
  assert (Hls : forall subs : list nat,
            Forall (fun e : writer * item => e.1 = WOs)
              (match subs with
               | [] => []
               | _ => ([(WOs, IText ("Available commands:" ++ nl)); (WOs, IText nl)]
                       ++ concat (subcommand_line w (longestSubcommand w cmd) <$> subs)
                       ++ [(WOs, IText nl)])%list
               end)).
  { assert (Hcat : forall l, Forall (fun e : writer * item => e.1 = WOs)
                                (concat (subcommand_line w (longestSubcommand w cmd) <$> l))).
    { intros l. apply Forall_concat, Forall_fmap, Forall_forall. intros s _.
      unfold compose, subcommand_line. repeat case_match; repeat constructor. }
    intros [|s0 subs]; [constructor |].
    apply Forall_app_2; [repeat constructor |]. apply Forall_app_2; [apply Hcat | repeat constructor]. }
  assert (Hlo : forall lb lf : log, exists lo : log, (lb ++
        (if String.eqb (commandPath w c) (c_name cmd) then []
         else [(WOs, IText ((if String.eqb (c_shortdescription cmd) EmptyString then commandPath w c
                              else commandPath w c ++ " - " ++ c_shortdescription cmd) ++ nl))]) ++
        (if String.eqb (c_longdescription cmd) EmptyString then []
         else [(WOs, IText (c_longdescription cmd ++ nl ++ nl))]) ++
        (match c_subCommands cmd with
         | [] => []
         | subs => ([(WOs, IText ("Available commands:" ++ nl)); (WOs, IText nl)]
                    ++ concat (subcommand_line w (longestSubcommand w cmd) <$> subs)
                    ++ [(WOs, IText nl)])%list
         end) ++ lf ++ [(Stdout ctx, IText nl)] = lb ++ lo ++ lf ++ [(Stdout ctx, IText nl)])%list /\
        Forall (fun e : writer * item => e.1 = WOs) lo).
  { intros lb lf.
    match goal with
    | |- exists lo, (?lb' ++ ?lt ++ ?ll ++ ?ls ++ _)%list = _ /\ _ => exists (lt ++ ll ++ ls)%list
    end.
    split.
    - rewrite !app_assoc. reflexivity.
    - apply Forall_app_2.
      { case_match; repeat constructor. }
      apply Forall_app_2.
      { case_match; [constructor | repeat constructor]. }
      destruct (c_subCommands cmd) as [|s0 l]; [constructor | apply (Hls (s0 :: l))]. }
  destruct (getCli w c) as [[a app]|].
  - destruct (PrintBanner w app ctx m) as [lb|] eqn:E; [| discriminate]. intros [= <-].
    destruct (Hlo lb (if Nat.ltb 0 (flagCount (c_flags cmd)) then printDefaults ctx else []))
      as [lo [Heq Hf]].
    exists lo. split; [exact Heq |]. split; [exact Hf |]. split; [exact (Hb app lb E) |].
    intros Hn. etransitivity; [exact Heq |]. unfold printDefaults. rewrite Hn.
    destruct (Nat.ltb _ _); reflexivity.
  - intros [= <-].
    destruct (Hlo [] (if Nat.ltb 0 (flagCount (c_flags cmd)) then printDefaults ctx else []))
      as [lo [Heq Hf]].
    exists lo. split; [exact Heq |]. split; [exact Hf |]. split; [constructor |].
    intros Hn. etransitivity; [exact Heq |]. unfold printDefaults. rewrite Hn.
    destruct (Nat.ltb _ _); reflexivity.
Qed.

Lemma str_app_nil_r (a : string) : a ++ EmptyString = a.
Proof. induction a as [|x a IH]; [reflexivity | rewrite str_app_cons, IH; reflexivity]. Qed.

Lemma fields_from_word x s cur :
  (forall i c, String.get i x = Some c -> is_space c = false) ->
  fields_from (x ++ s) cur = fields_from s (cur ++ x).
Proof.
  revert cur. induction x as [|c x IH]; intros cur Hx.
  - rewrite str_app_nil_l, str_app_nil_r. reflexivity.
  - rewrite str_app_cons. cbn [fields_from]. rewrite (Hx 0 c eq_refl).
    rewrite IH by (intros i d Hd; apply (Hx (S i) d Hd)).
    rewrite str_app_assoc. reflexivity.
Qed.

Lemma fields_from_join ws :
  Forall plain_word ws -> fields_from (join_spaces ws) EmptyString = ws.
Proof.
  induction 1 as [|x r [Hne Hx] Hr IH]; [reflexivity |].
  destruct r as [|y r].
  - cbn [join_spaces]. rewrite <- (str_app_nil_r x) at 1.
    rewrite fields_from_word by (intros i c Hc; apply (Hx i c Hc)).
    rewrite str_app_nil_l. cbn [fields_from].
    destruct (String.eqb_spec x EmptyString); [contradiction | reflexivity].
  - change (join_spaces (x :: y :: r)) with (x ++ " " ++ join_spaces (y :: r)).
    rewrite fields_from_word by (intros i c Hc; apply (Hx i c Hc)).
    rewrite str_app_nil_l.
    change (" " ++ join_spaces (y :: r)) with (String (Ascii.Ascii false false false false false true false false) (join_spaces (y :: r))).
    cbn [fields_from]. change (is_space (Ascii.Ascii false false false false false true false false)) with true. cbv iota.
    destruct (String.eqb_spec x EmptyString); [contradiction |]. rewrite IH. reflexivity.
Qed.

Lemma get_app_char (cur : string) c i d :
  String.get i (cur ++ String c EmptyString) = Some d -> String.get i cur = Some d \/ d = c.
Proof.
  revert i. induction cur as [|e cur IH]; intros i H.
  - destruct i as [|[|i]]; simpl in H; [injection H as <-; right; reflexivity | discriminate | discriminate].
  - destruct i as [|i]; simpl in H |- *; [left; exact H | apply IH, H].
Qed.

Lemma fields_from_plain s cur :
  is_ascii s = true ->
  (forall i c, String.get i cur = Some c -> is_space c = false /\ Ascii.nat_of_ascii c < 128) ->
  Forall plain_word (fields_from s cur).
Proof.
  revert cur. induction s as [|c s IH]; intros cur Hs Hcur; cbn [fields_from].
  - destruct (String.eqb_spec cur EmptyString);
      [constructor | constructor; [split; assumption | constructor]].
  - cbn [is_ascii] in Hs. apply andb_true_iff in Hs as [Hc128 Hs]. apply Nat.ltb_lt in Hc128.
    destruct (is_space c) eqn:Hc.
    + apply Forall_app_2; [| apply IH; [exact Hs | intros i d Hd; destruct i; discriminate]].
      destruct (String.eqb_spec cur EmptyString);
        [constructor | constructor; [split; assumption | constructor]].
    + apply IH; [exact Hs |]. intros i d Hd.
      destruct (get_app_char cur c i d Hd) as [H|Heq];
        [exact (Hcur i d H) | subst d; split; [exact Hc | exact Hc128]].
Qed.

Lemma is_ascii_app (a b : string) : is_ascii (a ++ b) = (is_ascii a && is_ascii b)%bool.
Proof.
  induction a as [|c a IH]; [reflexivity |].
  rewrite str_app_cons. cbn [is_ascii]. rewrite IH. apply andb_assoc.
Qed.

Lemma is_ascii_spec s :
  is_ascii s = true <-> forall i c, String.get i s = Some c -> Ascii.nat_of_ascii c < 128.
Proof.
  induction s as [|c s IH]; cbn [is_ascii].
  - split; [intros _ i c H; destruct i; discriminate | reflexivity].
  - rewrite andb_true_iff, Nat.ltb_lt, IH. split.
    + intros [H1 H2] [|i] d Hd; [injection Hd as <-; exact H1 | exact (H2 i d Hd)].
    + intros H. split; [exact (H 0 c eq_refl) | intros i d Hd; exact (H (S i) d Hd)].
Qed.

Lemma join_spaces_ascii ws : Forall plain_word ws -> is_ascii (join_spaces ws) = true.
Proof.
  induction 1 as [|x r [_ Hx] Hr IH]; [reflexivity |].
  assert (Ha : is_ascii x = true) by (apply is_ascii_spec; intros i c Hc; apply (Hx i c Hc)).
  destruct r as [|y r]; [exact Ha |].
  change (join_spaces (x :: y :: r)) with (x ++ " " ++ join_spaces (y :: r)).
  rewrite !is_ascii_app, Ha, IH. reflexivity.
Qed.

Lemma fields_join uf ws : Forall plain_word ws -> fields uf (join_spaces ws) = ws.
Proof. intros H. unfold fields. rewrite (join_spaces_ascii ws H). exact (fields_from_join ws H). Qed.

(** X15. Splitting the single-space join of nonempty ASCII words without spaces gives back the words (the line is ASCII, so [strings.Fields] takes its ASCII path), so [RunLine] on that line runs as [RunBuffer] on the words. *)
Theorem RunLine_join sc uf fuel w a ctx b printsJson ws g :
  Forall plain_word ws ->
  fields uf (join_spaces ws) = ws /\
  RunLine sc uf fuel w a ctx b printsJson (join_spaces ws) g =
  RunBuffer sc fuel w a ctx b printsJson ws g.
Proof.
  intros H. assert (E : fields uf (join_spaces ws) = ws) by exact (fields_join uf ws H).
  split; [exact E |]. unfold RunLine. rewrite E. reflexivity.
Qed.

(** X16. On a line of ASCII text, the arguments [RunLine] passes on are nonempty words of ASCII characters other than white space, and [RunLine] runs the same on the line as on these words joined by single spaces: runs of white space between words, and white space at either end, make no difference. *)
Theorem RunLine_normalizes sc uf fuel w a ctx b printsJson line g :
  is_ascii line = true ->
  Forall plain_word (fields uf line) /\
  RunLine sc uf fuel w a ctx b printsJson line g =
  RunLine sc uf fuel w a ctx b printsJson (join_spaces (fields uf line)) g.
Proof.
  intros Ha.
  assert (Hp : Forall plain_word (fields uf line)).
  { unfold fields. rewrite Ha.
    apply fields_from_plain; [exact Ha | intros i c Hc; destruct i; discriminate]. }
  split; [exact Hp |]. unfold RunLine at 2. rewrite (fields_join uf _ Hp). reflexivity.
Qed.

Lemma path_walk_cmds w w' i cmd s : w_cmds w' = w_cmds w -> path_walk w' i cmd s = path_walk w i cmd s.
Proof.
  intros H. revert cmd s. induction i as [|i IH]; intros cmd s; [reflexivity |].
  rewrite !path_walk_step, H. destruct (c_parent cmd); [| reflexivity].
  destruct (w_cmds w !! n); [apply IH | reflexivity].
Qed.

Lemma commandPath_cmds w w' c : w_cmds w' = w_cmds w -> commandPath w' c = commandPath w c.
Proof. intros H. unfold commandPath. rewrite H. destruct (w_cmds w !! c); [apply path_walk_cmds, H | reflexivity]. Qed.

Lemma longestSubcommand_cmds w w' cmd : w_cmds w' = w_cmds w -> longestSubcommand w' cmd = longestSubcommand w cmd.
Proof. intros H. unfold longestSubcommand. apply foldl_max_ext. intros s. unfold name_len. rewrite H. reflexivity. Qed.

Lemma isDefaultCommand_equiv w w' c : run_equiv w w' -> isDefaultCommand w' c = isDefaultCommand w c.
Proof.
  intros [_ Hg]. specialize (Hg c). unfold isDefaultCommand.
  destruct (getCli w' c) as [[b' app']|], (getCli w c) as [[b app]|]; unfold view_of in Hg; simpl in Hg; try discriminate;
    [| reflexivity].
  assert (Hv : cli_view app' = cli_view app) by congruence.
  unfold cli_view in Hv. injection Hv as _ _ Hd _ _ _. rewrite Hd. reflexivity.
Qed.

Lemma subcommand_line_equiv w w' l s : run_equiv w w' -> subcommand_line w' l s = subcommand_line w l s.
Proof.
  intros H. unfold subcommand_line. rewrite (proj1 H), (isDefaultCommand_equiv w w' s H). reflexivity.
Qed.

Lemma PrintBanner_view w w' app app' ctx m :
  w_cmds w' = w_cmds w -> cli_view app' = cli_view app -> PrintBanner w' app' ctx m = PrintBanner w app ctx m.
Proof.
  intros Hc Hv. unfold cli_view in Hv. injection Hv as Hver Hr _ Hb _ _.
  unfold PrintBanner, defaultBannerFunction, cli_Name, cli_ShortDescription.
  rewrite Hver, Hr, Hb, Hc. reflexivity.
Qed.

Lemma PrintHelp_equiv w w' c ctx m : run_equiv w w' -> PrintHelp w' c ctx m = PrintHelp w c ctx m.
Proof.
  intros H. pose proof (proj2 H c) as Hg. unfold PrintHelp.
  rewrite (proj1 H), (commandPath_cmds w w' c (proj1 H)).
  destruct (w_cmds w !! c) as [cmd|]; [| reflexivity].
  rewrite (longestSubcommand_cmds w w' cmd (proj1 H)).
  destruct (c_subCommands cmd) as [|s0 l]; [|
  rewrite (list_fmap_ext (subcommand_line w' (longestSubcommand w cmd))
             (subcommand_line w (longestSubcommand w cmd)) (s0 :: l))
    by (intros i s _; apply subcommand_line_equiv, H)];
  (destruct (getCli w' c) as [[b' app']|], (getCli w c) as [[b app]|]; unfold view_of in Hg; simpl in Hg; try discriminate;
    [assert (Hv : cli_view app' = cli_view app) by congruence; rewrite (PrintBanner_view w w' app app' ctx m (proj1 H) Hv) |]; reflexivity).
Qed.

Lemma run_equiv_run sc f w w' ctx m c args :
  run_equiv w w' -> run sc f w' ctx m c args = run sc f w ctx m c args.
Proof.
  intros H. revert ctx m c args. induction f as [|f IH]; intros ctx m c args; [reflexivity |].
  rewrite !run_S. pose proof (proj2 H c) as Hg. rewrite (proj1 H), (commandPath_cmds w w' c (proj1 H)).
  destruct (getCli w' c) as [[b' app']|], (getCli w c) as [[b app]|]; unfold view_of in Hg; simpl in Hg; try discriminate;
    [| reflexivity].
  assert (Hv : cli_view app' = cli_view app) by congruence.
  unfold cli_view in Hv. injection Hv as _ _ Hd _ He Hh.
  destruct (w_cmds w !! c) as [cmd|]; [| reflexivity]. cbv zeta.
  rewrite Hd, He, Hh.
  destruct args as [|a0 rest].
  - destruct (c_actionCallback cmd); [reflexivity |].
    destruct (cli_defaultCommand app); [destruct (_ && _)%bool; [rewrite IH; reflexivity |] |];
      (destruct (cli_helpHandler app); [reflexivity | rewrite (PrintHelp_equiv w w' c _ _ H); reflexivity]).
  - destruct (c_subCommandsMap cmd !! a0); [apply IH |].
    destruct (parseFlags sc (c_flags cmd) ctx m (commandPath w c) (a0 :: rest)) as [[r m1] lg1].
    destruct r as [ctx1| e |]; [| reflexivity | reflexivity].
    destruct (HelpFlag ctx1 m1); [rewrite (PrintHelp_equiv w w' c _ _ H); reflexivity |].
    destruct (c_actionCallback cmd); [reflexivity |].
    destruct (cli_defaultCommand app); [destruct (_ && _)%bool; [rewrite IH; reflexivity |] |];
      (destruct (cli_helpHandler app); [reflexivity | rewrite (PrintHelp_equiv w w' c _ _ H); reflexivity]).
Qed.

Lemma PreRun_equiv w a p w' : PreRun w a p = Some w' -> run_equiv w w'.
Proof.
  unfold PreRun, update_cli. destruct (w_clis w !! a) as [app|] eqn:Ea; [| discriminate].
  intros [= <-]. split; [reflexivity |]. intros c. unfold getCli.
  rewrite (getCli_walk_cmds w) by reflexivity. cbn [w_clis].
  destruct (getCli_walk w maxDepth c) as [b|]; [| reflexivity].
  destruct (decide (b = a)) as [->|Hne].
  - rewrite lookup_insert_eq, Ea. reflexivity.
  - rewrite lookup_insert_ne by congruence. reflexivity.
Qed.

(** X17. After [PreRun(p)], [Run] first calls [p] if it is not nil: an error from it is returned at once with its output, otherwise its output comes before that of the root command run on the configuration as it was before. *)
Theorem PreRun_Cli_Run sc fuel w a p w' ctx m args :
  PreRun w a p = Some w' ->
  exists app, w_clis w !! a = Some app /\
    Cli_Run sc fuel w' a ctx m args =
      match p with
      | None => run sc fuel w ctx m (cli_rootCommand app) args
      | Some pre =>
          match pre ctx m with
          | (lg0, Some e) => Some (Ret (Some e), lg0, m)
          | (lg0, None) =>
              match run sc fuel w ctx m (cli_rootCommand app) args with
              | Some (r, lg, m1) => Some (r, (lg0 ++ lg)%list, m1)
              | None => None
              end
          end
      end.
Proof.
  intros Hp. pose proof (PreRun_equiv w a p w' Hp) as He.
  unfold PreRun, update_cli in Hp. destruct (w_clis w !! a) as [app|] eqn:Ea; [| discriminate].
  exists app. split; [reflexivity |]. injection Hp as <-.
  unfold Cli_Run. cbn [w_clis]. rewrite lookup_insert_eq. cbn [with_preRun cli_preRunCommand cli_rootCommand].
  rewrite (run_equiv_run sc fuel w _ ctx m _ args He).
  destruct p as [pre|]; [| reflexivity].
  destruct (pre ctx m) as [lg0 [e|]]; reflexivity.
Qed.

(** X18. After [BannerFunction(nil)], printing the help of any node of that application panics: the nil banner function is called. *)
Theorem BannerFunction_nil_help_panics w a w' c ctx m :
  BannerFunction w a BannerNil = Some w' ->
  is_Some (w_cmds w !! c) -> fst <$> getCli w c = Some a ->
  PrintHelp w' c ctx m = None.
Proof.
  unfold BannerFunction, update_cli. destruct (w_clis w !! a) as [app|] eqn:Ea; [| discriminate].
  intros [= <-] [cmd Hc] Hg. unfold PrintHelp. cbn [w_cmds]. rewrite Hc.
  unfold getCli in *. rewrite (getCli_walk_cmds w) by reflexivity.
  destruct (getCli_walk w maxDepth c) as [b|]; [| discriminate].
  destruct (w_clis w !! b) as [appb|] eqn:Eb; [| discriminate]. injection Hg as ->.
  cbn [w_clis]. rewrite lookup_insert_eq. reflexivity.
Qed.

(* ------------------------------------------------------------------ *)
(** * Examples of the properties above *)

Lemma parseFlags_scope_witness :
  let r := parseFlags strconv_example (basic_flags "Interactive" "Format" PtrNone PtrNone) [] mem0
             "app" ["--ui"; "x"] in
  r = (PFOk (pf_ctx r), r.1.2, r.2) /\
  Stdout (pf_ctx r) = Stdout [] /\
  exists fv, getFlagValues (pf_ctx r) = Some fv /\ fs_name (fv_flags fv) = "app" /\
             fs_output (fv_flags fv) = Stdout [] /\ is_Some (fv_values fv !! "help").
Proof.
  intros r. assert (E : r = (PFOk (pf_ctx r), r.1.2, r.2)) by (vm_compute; reflexivity).
  split; [exact E |].
  destruct (parseFlags_scope _ _ _ _ _ _ _ _ _ E) as [_ H]. exact H.
Defined.

Lemma parseFlags_writes_to_scope_witness :
  let r := parseFlags strconv_example (basic_flags "Interactive" "Format" PtrNone PtrNone) [] mem0
             "app" ["-h"] in
  r.2 <> [] /\
  match r.1.1 with
  | PFPanic => exists it, r.2 = [(WErr, it)]
  | _ => Forall (fun e => e.1 = Stdout []) r.2
  end.
Proof.
  intros r. split; [vm_compute; discriminate |].
  apply (parseFlags_writes_to_scope strconv_example (basic_flags "Interactive" "Format" PtrNone PtrNone) [] mem0 "app" ["-h"] r.1.1 r.1.2 r.2).
  vm_compute; reflexivity.
Defined.

Lemma parseFlags_panics_iff_witness :
  flagSet_wf (flagSet_addFlag "help" "Help" (GBool false) PtrNone newFlagSet) /\
  (parseFlags strconv_example (flagSet_addFlag "help" "Help" (GBool false) PtrNone newFlagSet)
     [] mem0 "app" []).1.1 = PFPanic /\
  flagSet_wf (flagSet_addFlag "-x" "X" (GBool false) PtrNone newFlagSet) /\
  (parseFlags strconv_example (flagSet_addFlag "-x" "X" (GBool false) PtrNone newFlagSet)
     [] mem0 "app" []).1.1 = PFPanic.
Proof.
  assert (Hwf : flagSet_wf (flagSet_addFlag "help" "Help" (GBool false) PtrNone newFlagSet))
    by (unfold flagSet_wf; apply map_Forall_to_list; vm_compute; repeat constructor).
  assert (Hwf2 : flagSet_wf (flagSet_addFlag "-x" "X" (GBool false) PtrNone newFlagSet))
    by (unfold flagSet_wf; apply map_Forall_to_list; vm_compute; repeat constructor).
  split; [exact Hwf |]. split.
  - apply (proj2 (parseFlags_panics_iff strconv_example _ [] mem0 "app" [] Hwf)). left.
    apply (bool_decide_unpack _ (dec := declares_dec _ _)); vm_compute; reflexivity.
  - split; [exact Hwf2 |].
    apply (proj2 (parseFlags_panics_iff strconv_example _ [] mem0 "app" [] Hwf2)). right.
    exists "-x", {| fp_name := "-x"; fp_description := "X"; fp_value := GBool false; fp_ptr := PtrNone |}.
    split; [vm_compute; reflexivity |]. split; [discriminate | reflexivity].
Defined.

Lemma parseFlags_defaults_witness :
  exists ctx1 m1,
    parseFlags strconv_example (basic_flags "Interactive" "Format" PtrNone PtrNone) [] mem0 "app"
      ["--"; "x"] = (PFOk ctx1, m1, []) /\
    OtherArgs ctx1 = Some ["x"] /\ HelpFlag ctx1 m1 = false /\
    forall n p, basic_flags "Interactive" "Format" PtrNone PtrNone !! n = Some p ->
      accessor_reads ctx1 m1 n (fp_value p).
Proof.
  apply parseFlags_defaults.
  - unfold flagSet_wf; apply map_Forall_to_list; vm_compute; repeat constructor.
  - apply (bool_decide_unpack _ (dec := names_ok_dec _)); vm_compute; reflexivity.
  - apply (bool_decide_unpack _ (dec := not_dec (declares_dec _ _))); vm_compute; reflexivity.
  - apply map_Forall_to_list; vm_compute; repeat constructor.
  - reflexivity.
Defined.

Lemma parseFlags_h_help_witness :
  (exists m1 ds, parseFlags strconv_example (basic_flags "Interactive" "Format" PtrNone PtrNone)
      [] mem0 "app" (("-" ++ "h") :: ["x"]) =
      (PFErr PHelpRequested, m1,
       [(Stdout [], IText ((if String.eqb "app" EmptyString then "Usage:"
                            else "Usage of " ++ "app" ++ ":") ++ nl));
        (Stdout [], IDefaults ds)])) /\
  (exists ctx1 m1, parseFlags strconv_example (basic_flags "Interactive" "Format" PtrNone PtrNone)
      [] mem0 "app" (("-" ++ "help") :: ["x"]) = (PFOk ctx1, m1, []) /\
      HelpFlag ctx1 m1 = true /\ OtherArgs ctx1 = Some ["x"]).
Proof.
  apply parseFlags_h_help.
  - unfold flagSet_wf; apply map_Forall_to_list; vm_compute; repeat constructor.
  - apply (bool_decide_unpack _ (dec := names_ok_dec _)); vm_compute; reflexivity.
  - apply (bool_decide_unpack _ (dec := not_dec (declares_dec _ _))); vm_compute; reflexivity.
  - apply (bool_decide_unpack _ (dec := not_dec (declares_dec _ _))); vm_compute; reflexivity.
  - left; reflexivity.
  - reflexivity.
Defined.

Lemma run_help_declared_panics_witness :
  exists m1, run strconv_example 1 (default bare_world (Command_BoolFlag bare_world 0 "help" "Help" false []))
               [] mem0 0 ["x"] =
    Some (Panic,
          [(WErr, IText ((if String.eqb (commandPath (default bare_world
                                (Command_BoolFlag bare_world 0 "help" "Help" false [])) 0) EmptyString
                          then "flag redefined: help"
                          else commandPath (default bare_world
                                 (Command_BoolFlag bare_world 0 "help" "Help" false [])) 0
                               ++ " flag redefined: help") ++ nl))], m1).
Proof.
  set (W := default bare_world (Command_BoolFlag bare_world 0 "help" "Help" false [])).
  apply (run_help_declared_panics strconv_example 0 W [] mem0 0 (app_of W 0).1 (app_of W 0).2
           (cmd_at W 0) "x" []).
  - vm_compute; reflexivity.
  - vm_compute; reflexivity.
  - apply map_Forall_to_list; vm_compute; repeat constructor.
  - apply (bool_decide_unpack _ (dec := names_ok_dec _)); vm_compute; reflexivity.
  - apply (bool_decide_unpack _ (dec := declares_dec _ _)); vm_compute; reflexivity.
  - vm_compute; reflexivity.
Defined.

Lemma NewSubCommand_child_witness :
  exists w' x,
    NewSubCommand hello_world 0 "bye" "Bye" = Some (w', x) /\ w_cmds hello_world !! x = None /\
    c_parent (cmd_at w' x) = Some 0 /\
    c_subCommands (cmd_at w' 0) = (c_subCommands (cmd_at hello_world 0) ++ [x])%list /\
    c_subCommandsMap (cmd_at w' 0) !! "bye" = Some x /\
    commandPath w' x =
      commandPath hello_world 0 ++
        (if String.eqb (c_name (cmd_at hello_world 0)) EmptyString then "bye" else " " ++ "bye") /\
    getCli w' x = getCli hello_world 0.
Proof.
  apply NewSubCommand_child; vm_compute; reflexivity.
Defined.

Lemma subcommand_line_aligned_witness :
  exists k, 3 <= k /\
    String.length (c_name (cmd_at hello_world 1)) + k = 3 + longestSubcommand hello_world (cmd_at hello_world 0) /\
    subcommand_line hello_world (longestSubcommand hello_world (cmd_at hello_world 0)) 1 =
      [(WOs, IText ("   " ++ c_name (cmd_at hello_world 1) ++ repeat_str " " k ++
                    c_shortdescription (cmd_at hello_world 1) ++ " " ++
                    (if isDefaultCommand hello_world 1 then "[default]" else EmptyString) ++ nl))].
Proof.
  apply (subcommand_line_aligned hello_world (cmd_at hello_world 0) 1 (cmd_at hello_world 1)).
  - apply list_elem_of_In; vm_compute; auto.
  - vm_compute; reflexivity.
  - vm_compute; reflexivity.
Defined.

Lemma Hidden_unlisted_witness :
  let w' := default hello_world (Hidden hello_world 1) in
  (forall l, subcommand_line w' l 1 = []) /\
  (forall l y, y <> 1 -> subcommand_line w' l y = subcommand_line hello_world l y) /\
  (forall cmd, longestSubcommand w' cmd = longestSubcommand hello_world cmd) /\
  (forall y, getCli w' y = getCli hello_world y /\ commandPath w' y = commandPath hello_world y) /\
  (forall y, c_subCommands (cmd_at w' y) = c_subCommands (cmd_at hello_world y) /\
             c_subCommandsMap (cmd_at w' y) = c_subCommandsMap (cmd_at hello_world y)).
Proof.
  intros w'. apply Hidden_unlisted. vm_compute; reflexivity.
Defined.

Lemma DefaultCommand_marks_witness :
  let w' := default bare_world (DefaultCommand bare_world 0 0) in
  isDefaultCommand bare_world 0 = false /\
  forall y b app, getCli bare_world y = Some (b, app) ->
    isDefaultCommand w' y = if Nat.eqb b 0 then Nat.eqb 0 y else isDefaultCommand bare_world y.
Proof.
  intros w'. split; [vm_compute; reflexivity |].
  apply DefaultCommand_marks. vm_compute; reflexivity.
Defined.

Lemma AddCommand_frame_witness :
  let w' := default hello_world (AddCommand hello_world 1 2) in
  c_parent (cmd_at w' 2) = Some 1 /\
  c_subCommands (cmd_at w' 1) = (c_subCommands (cmd_at hello_world 1) ++ [2])%list /\
  c_subCommandsMap (cmd_at w' 1) =
    <[c_name (cmd_at hello_world 2) := 2]> (c_subCommandsMap (cmd_at hello_world 1)) /\
  (forall y, y <> 1 -> c_subCommands (cmd_at w' y) = c_subCommands (cmd_at hello_world y) /\
                       c_subCommandsMap (cmd_at w' y) = c_subCommandsMap (cmd_at hello_world y)) /\
  (forall y, y <> 2 -> c_parent (cmd_at w' y) = c_parent (cmd_at hello_world y)).
Proof.
  intros w'. apply AddCommand_frame. vm_compute; reflexivity.
Defined.

Lemma SubCommands_appends_witness :
  let w' := default hello_world (SubCommands hello_world 2 [1]) in
  c_subCommands (cmd_at w' 2) = (c_subCommands (cmd_at hello_world 2) ++ [1])%list /\
  Forall (fun x => c_parent (cmd_at w' x) = Some 2) [1].
Proof.
  intros w'. apply SubCommands_appends. vm_compute; reflexivity.
Defined.

Lemma PrintHelp_writers_witness :
  let lh := default [] (PrintHelp hello_world 0 [] mem0) in
  exists lo,
    lh = (help_banner hello_world 0 [] mem0 ++ lo ++
          (if Nat.ltb 0 (flagCount (c_flags (cmd_at hello_world 0))) then printDefaults [] else []) ++
          [(Stdout [], IText nl)])%list /\
    Forall (fun e => e.1 = WOs) lo /\
    Forall (fun e => e.1 = Stdout []) (help_banner hello_world 0 [] mem0) /\
    (getFlagValues [] = None -> lh = (help_banner hello_world 0 [] mem0 ++ lo ++ [(Stdout [], IText nl)])%list).
Proof.
  intros lh. apply PrintHelp_writers. vm_compute; reflexivity.
Defined.

Lemma RunLine_join_witness :
  fields (fun s => [s]) (join_spaces ["hello"; "--name"; "A"]) = ["hello"; "--name"; "A"] /\
  RunLine strconv_example (fun s => [s]) 3 hello_world 0 [] 1 false
    (join_spaces ["hello"; "--name"; "A"]) ∅ =
  RunBuffer strconv_example 3 hello_world 0 [] 1 false ["hello"; "--name"; "A"] ∅.
Proof.
  apply (RunLine_join strconv_example (fun s => [s]) 3 hello_world 0 [] 1 false
           ["hello"; "--name"; "A"] ∅).
  repeat apply List.Forall_cons; try apply List.Forall_nil;
    (split; [discriminate |]; intros i c Hc);
    do 7 (destruct i as [|i];
          [first [discriminate Hc | injection Hc as <-; split; [reflexivity | apply Nat.ltb_lt; reflexivity]] |]);
    discriminate.
Defined.

Lemma RunLine_normalizes_witness :
  is_ascii "  hello   --name A " = true /\
  Forall plain_word (fields (fun s => [s]) "  hello   --name A ") /\
  RunLine strconv_example (fun s => [s]) 3 hello_world 0 [] 1 false "  hello   --name A " ∅ =
  RunLine strconv_example (fun s => [s]) 3 hello_world 0 [] 1 false
    (join_spaces (fields (fun s => [s]) "  hello   --name A ")) ∅.
Proof.
  split; [reflexivity |].
  apply (RunLine_normalizes strconv_example (fun s => [s]) 3 hello_world 0 [] 1 false
           "  hello   --name A " ∅).
  reflexivity.
Defined.

Lemma PreRun_Cli_Run_witness :
  exists app, w_clis hello_world !! 0 = Some app /\
    Cli_Run strconv_example 3 (default hello_world (PreRun hello_world 0 (Some default_action))) 0 [] mem0
      ["hello"] =
      match default_action [] mem0 with
      | (lg0, Some e) => Some (Ret (Some e), lg0, mem0)
      | (lg0, None) =>
          match run strconv_example 3 hello_world [] mem0 (cli_rootCommand app) ["hello"] with
          | Some (r, lg, m1) => Some (r, (lg0 ++ lg)%list, m1)
          | None => None
          end
      end.
Proof.
  apply (PreRun_Cli_Run strconv_example 3 hello_world 0 (Some default_action)).
  vm_compute; reflexivity.
Defined.

Lemma BannerFunction_nil_help_panics_witness :
  PrintHelp hello_world 1 [] mem0 <> None /\
  PrintHelp (default hello_world (BannerFunction hello_world 0 BannerNil)) 1 [] mem0 = None.
Proof.
  split; [vm_compute; discriminate |].
  apply (BannerFunction_nil_help_panics hello_world 0).
  - vm_compute; reflexivity.
  - vm_compute; eexists; reflexivity.
  - vm_compute; reflexivity.
Defined.
